(** * The differential oracle of acto's checker.py, embedded in Rocq

    The development follows [src/checker.py]: the Python class [Checker] with
    its dependency index ([field_conditions_map]), the four oracles and the
    verdict returned by [check].

    Python objects that the code mutates (the dependency index owned by the
    checker and the previous snapshot) live
    in an explicit store that every method threads; exceptions are an explicit
    outcome.  Python dictionaries are association lists in insertion order,
    since the code iterates over them and the order is observable. *)

From Stdlib Require Import List String Ascii ZArith Bool Lia DecimalString.
Import ListNotations.
Local Open Scope string_scope.
Local Open Scope list_scope.
Local Open Scope Z_scope.

Set Implicit Arguments.
Set Warnings "-register-all".

(** ** Python values *)

(** A path atom: a dictionary key or a list index. *)
Inductive atom : Type :=
| AStr (s : string)
| AInt (n : Z).

Definition path := list atom.

(** [a == b] on atoms (a [str] never equals an [int]). *)
Definition atom_eqb (a b : atom) : bool :=
  match a, b with
  | AStr x, AStr y => String.eqb x y
  | AInt x, AInt y => Z.eqb x y
  | _, _ => false
  end.

(** [p == q] on lists of atoms. *)
Fixpoint path_eqb (p q : path) : bool :=
  match p, q with
  | [], [] => true
  | a :: p', b :: q' => atom_eqb a b && path_eqb p' q'
  | _, _ => false
  end.

(** The JSON-like documents the checker reads (inputs, system states, parsed
    log records, condition values).  Floats are left out. *)
Inductive value : Type :=
| VNone
| VBool (b : bool)
| VInt (z : Z)
| VStr (s : string)
| VList (l : list value)
| VDict (d : list (string * value)).

(** One side of a delta: a value, or the sentinel [NotPresent()]. *)
Inductive field_value : Type :=
| Present (v : value)
| NotPresent.

(** ** Dictionaries in insertion order *)

Section Dict.
Variables (K V : Type) (eqb : K -> K -> bool).

(** [d[k]] / [k in d] *)
Fixpoint dict_get (k : K) (d : list (K * V)) : option V :=
  match d with
  | [] => None
  | (k', v) :: d' => if eqb k k' then Some v else dict_get k d'
  end.

Definition dict_mem (k : K) (d : list (K * V)) : bool :=
  match dict_get k d with Some _ => true | None => false end.

(** [d[k] = v]: overwrite in place, or append a new key at the end. *)
Fixpoint dict_set (k : K) (v : V) (d : list (K * V)) : list (K * V) :=
  match d with
  | [] => [(k, v)]
  | (k', v') :: d' =>
      if eqb k k' then (k', v) :: d' else (k', v') :: dict_set k v d'
  end.

(** [d.pop(k)]: the dictionary without [k], or nothing when [k] is absent
    (Python raises [KeyError]). *)
Fixpoint dict_pop (k : K) (d : list (K * V)) : option (list (K * V)) :=
  match d with
  | [] => None
  | (k', v') :: d' =>
      if eqb k k' then Some d'
      else match dict_pop k d' with
           | Some r => Some ((k', v') :: r)
           | None => None
           end
  end.

Definition dict_keys (d : list (K * V)) : list K := map fst d.
Definition dict_values (d : list (K * V)) : list V := map snd d.
End Dict.

(** ** Python's [==] on documents *)

(** [bool] is a subclass of [int]: [True == 1].  Dictionaries compare
    regardless of the order of their keys. *)
Fixpoint py_eq (a b : value) {struct a} : bool :=
  match a, b with
  | VNone, VNone => true
  | VBool x, VBool y => Bool.eqb x y
  | VBool x, VInt y => Z.eqb (if x then 1 else 0) y
  | VInt x, VBool y => Z.eqb x (if y then 1 else 0)
  | VInt x, VInt y => Z.eqb x y
  | VStr x, VStr y => String.eqb x y
  | VList x, VList y =>
      (fix go (x : list value) (y : list value) {struct x} : bool :=
         match x, y with
         | [], [] => true
         | v :: x', w :: y' => py_eq v w && go x' y'
         | _, _ => false
         end) x y
  | VDict x, VDict y =>
      Nat.eqb (List.length x) (List.length y) &&
      (fix all (x : list (string * value)) {struct x} : bool :=
         match x with
         | [] => true
         | (k, v) :: x' =>
             match dict_get String.eqb k y with
             | Some w => py_eq v w
             | None => false
             end && all x'
         end) x
  | _, _ => false
  end.

(** ** Strings *)

(** [s.startswith(sub)] *)
Fixpoint startswith (s sub : string) : bool :=
  match sub, s with
  | EmptyString, _ => true
  | String c sub', String d s' => Ascii.eqb c d && startswith s' sub'
  | String _ _, EmptyString => false
  end.

(** [s.find(sub)]: the lowest index where [sub] occurs in [s], or [-1]. *)
Fixpoint find_from (s sub : string) (i : Z) : Z :=
  if startswith s sub then i
  else match s with
       | EmptyString => -1
       | String _ s' => find_from s' sub (i + 1)
       end.

Definition find (s sub : string) : Z := find_from s sub 0.

(** [s.lower()] on ASCII text. *)
Definition lower_ascii (c : ascii) : ascii :=
  let n := nat_of_ascii c in
  if (Nat.leb 65 n && Nat.leb n 90)%bool then ascii_of_nat (n + 32) else c.

Fixpoint lower (s : string) : string :=
  match s with
  | EmptyString => EmptyString
  | String c s' => String (lower_ascii c) (lower s')
  end.

(** [len(s)] *)
Definition len_str (s : string) : Z := Z.of_nat (String.length s).

(** ** Results, deltas, snapshots *)

Inductive Oracle : Type := ERROR_LOG | SYSTEM_STATE | SYSTEM_HEALTH | RECOVERY | CRASH.

Record Diff : Type := mkDiff {
  diff_path : path;
  diff_prev : field_value;
  diff_curr : field_value
}.

Inductive RunResult : Type :=
| PassResult
| UnchangedInputResult
| ConnectionRefusedResult
| InvalidInputResult (responsible_field : option path)
| ErrorResult (oracle : Oracle) (msg : string)
              (input_delta : option Diff) (matched_system_delta : option Diff).

(** [isinstance(r, PassResult)] and friends. *)
Definition is_pass (r : RunResult) : bool :=
  match r with PassResult => true | _ => false end.
Definition is_invalid_input (r : RunResult) : bool :=
  match r with InvalidInputResult _ => true | _ => false end.
Definition is_error (r : RunResult) : bool :=
  match r with ErrorResult _ _ _ _ => true | _ => false end.

(** The output of [postprocess_diff]: change kind -> path key -> delta. *)
Definition delta_map := list (string * list (string * Diff)).

(** The system delta: resource kind -> change kind -> path key -> delta. *)
Definition system_delta_map := list (string * delta_map).

Record CliResult : Type := mkCli { stdout : string; stderr : string }.

Record Snapshot : Type := mkSnapshot {
  input : value;
  cli_result : CliResult;
  system_state : list (string * value);
  operator_log : list string
}.

(** ** The dependency index *)

(** A condition record [{'field': ..., 'op': ..., 'value': ...}]. *)
Record condition : Type := mkCond {
  field : path;
  op : string;
  cvalue : value
}.

(** [field_conditions_map].  A key [json.dumps(p)] is represented by the path
    [p] it encodes ([json.loads] of the key); the dictionary keeps its
    insertion order.  Condition records are kept by value: the list object
    [dependee] that the records appended by one [encode_dependency] call
    share is copied, which is invisible to every reader because each
    evaluation normalizes the list before using it. *)
Definition conditions_map := list (path * list condition).

(** ** Schemas of the input model *)

Inductive Schema : Type :=
| ObjectSchema (schema_path : path) (properties : list (string * Schema))
| ArraySchema (schema_path : path) (item_schema : Schema)
| BaseSchema (schema_path : path).

(** ** Exceptions and the store *)

Inductive exn : Type :=
| KeyError | IndexError | TypeError | ValueError | AttributeError | OSError.

Inductive outcome (A : Type) : Type :=
| Ok (a : A)
| Raise (e : exn).
Arguments Ok {A} a.
Arguments Raise {A} e.

(** Calls made while checking, recorded so that statements of the form
    "this is not invoked" can be made. *)
Inductive call : Type :=
| CallGetDeltas
| CallCheckInput
| CallCheckResources
| CallCheckOperatorLog
| CallCheckHealth
| CallOpenDeltaLog (generation : Z).

(** The mutable objects reachable from a call to [check]. *)
Record heap : Type := mkHeap {
  (** [self.field_conditions_map] *)
  field_conditions_map : conditions_map;
  (** [self.delta_log_path]; the generation stands for
      ["%s/delta-%d.log" % (trial_dir, generation)] *)
  delta_log_path : option Z;
  (** the object [prev_snapshot], which [check] receives by reference *)
  prev_snapshot : Snapshot;
  (** delta logs written so far: generation, input delta, system delta *)
  delta_logs : list (Z * (delta_map * system_delta_map));
  (** calls made so far, oldest first *)
  calls : list call
}.

Definition M (A : Type) : Type := heap -> outcome A * heap.

Definition ret {A} (a : A) : M A := fun h => (Ok a, h).
Definition raise {A} (e : exn) : M A := fun h => (Raise e, h).
Definition bind {A B} (m : M A) (k : A -> M B) : M B :=
  fun h => match m h with
           | (Ok a, h') => k a h'
           | (Raise e, h') => (Raise e, h')
           end.
Definition get_heap : M heap := fun h => (Ok h, h).
Definition put_heap (h : heap) : M unit := fun _ => (Ok tt, h).
Definition lift {A} (o : outcome A) : M A := fun h => (o, h).

Notation "x <- m ;; k" := (bind m (fun x => k))
  (at level 61, m at next level, right associativity).
Notation "m ;;; k" := (bind m (fun _ => k))
  (at level 61, right associativity).

Definition record_call (c : call) : M unit :=
  fun h => (Ok tt, mkHeap (field_conditions_map h) (delta_log_path h)
                          (prev_snapshot h) (delta_logs h) (calls h ++ [c])).

(** ** Collaborators *)

(** [context['analysis_result']] as far as the checker reads it. *)
Record AnalysisResult : Type := mkAnalysis {
  analysis_field_conditions_map : conditions_map;
  control_flow_fields : list path
}.

(** What the checker is constructed with and what it imports: none of it is
    defined in checker.py, so it is a parameter of every method. *)
Record Env : Type := mkEnv {
  (** [context['enable_analysis']] *)
  enable_analysis : bool;
  (** [context['analysis_result']], when the key is there *)
  analysis_result : option AnalysisResult;
  (** [input_model.get_root_schema()] *)
  get_root_schema : Schema;
  (** [input_model.get_schema_by_path(path).default]; nothing when the lookup
      raises *)
  schema_default : path -> option value;
  (** [canonicalize] of common.py *)
  canonicalize : atom -> string;
  (** [GENERIC_FIELDS]: each regex as the test [re.search(regex, str(a))] *)
  GENERIC_FIELDS : list (atom -> bool);
  (** [invalid_input_message(text, input_delta)] *)
  invalid_input_message : string -> delta_map -> bool * option path;
  (** [CompareMethods.input_compare(prev, curr)] *)
  input_compare : field_value -> field_value -> bool;
  (** [CompareMethods.compare(in_prev, in_curr, out_prev, out_curr)] *)
  compare : field_value -> field_value -> field_value -> field_value -> bool;
  (** [postprocess_diff(DeepDiff(prev, curr, ignore_order=True, ...))] *)
  diff_input : value -> value -> delta_map;
  (** [postprocess_diff(DeepDiff(prev, curr, exclude_regex_paths=..., ...))] *)
  diff_resource : value -> value -> delta_map;
  (** [parse_log(line)] *)
  parse_log : string -> list (string * value);
  (** whether [open(delta_log_path, 'w')] and the writes succeed for the log
      of a generation *)
  writable : Z -> bool
}.

(** ** Operators of conditions *)

(** Modelled from the spec: [translate_op] of common.py is not in the source
    tree; the spec (sections 4.3 and 9) gives the operator strings and asks
    for an enumerated comparator applied by a pure function. *)
Inductive comparator : Type := Eq_ | Ne_ | Lt_ | Le_ | Gt_ | Ge_ | In_ | NotIn_.

(** Modelled from the spec: [translate_op(opString)]; nothing for an unknown
    operator (the collaborator raises). *)
Definition translate_op (o : string) : option comparator :=
  if String.eqb o "==" then Some Eq_
  else if String.eqb o "!=" then Some Ne_
  else if String.eqb o "<" then Some Lt_
  else if String.eqb o "<=" then Some Le_
  else if String.eqb o ">" then Some Gt_
  else if String.eqb o ">=" then Some Ge_
  else if String.eqb o "in" then Some In_
  else if String.eqb o "not in" then Some NotIn_
  else None.

(** [translate_op(op) == operator.eq] *)
Definition is_operator_eq (c : comparator) : bool :=
  match c with Eq_ => true | _ => false end.

(** The order of Python on numbers and strings; other operands raise. *)
Definition py_compare (a b : value) : outcome comparison :=
  let num (v : value) : option Z :=
    match v with
    | VInt z => Some z
    | VBool b => Some (if b then 1 else 0)
    | _ => None
    end in
  match num a, num b with
  | Some x, Some y => Ok (Z.compare x y)
  | _, _ =>
      match a, b with
      | VStr x, VStr y => Ok (String.compare x y)
      | _, _ => Raise TypeError
      end
  end.

(** [a in b] *)
Definition py_in (a b : value) : outcome bool :=
  match b with
  | VList l => Ok (existsb (fun x => py_eq a x) l)
  | VDict d =>
      match a with
      | VStr k => Ok (dict_mem String.eqb k d)
      | _ => Ok false
      end
  | VStr s =>
      match a with
      | VStr sub => Ok (negb (Z.eqb (find s sub) (-1)))
      | _ => Raise TypeError
      end
  | _ => Raise TypeError
  end.

(** Modelled from the spec: the comparator applied to the resolved value and
    the value of the condition. *)
Definition apply_op (c : comparator) (a b : value) : outcome bool :=
  let on_order (f : comparison -> bool) :=
    match py_compare a b with
    | Ok r => Ok (f r)
    | Raise e => Raise e
    end in
  match c with
  | Eq_ => Ok (py_eq a b)
  | Ne_ => Ok (negb (py_eq a b))
  | Lt_ => on_order (fun r => match r with Lt => true | _ => false end)
  | Le_ => on_order (fun r => match r with Gt => false | _ => true end)
  | Gt_ => on_order (fun r => match r with Gt => true | _ => false end)
  | Ge_ => on_order (fun r => match r with Lt => false | _ => true end)
  | In_ => py_in a b
  | NotIn_ => match py_in a b with Ok r => Ok (negb r) | Raise e => Raise e end
  end.

(** ** Indexing *)

(** [l[n]] with Python's negative indices; nothing when out of range. *)
Definition py_index {A : Type} (l : list A) (n : Z) : option A :=
  let len := Z.of_nat (List.length l) in
  if (0 <=? n) && (n <? len) then nth_error l (Z.to_nat n)
  else if (- len <=? n) && (n <? 0) then nth_error l (Z.to_nat (len + n))
  else None.

(** [operator.getitem(container, key)] *)
Definition getitem (container : value) (key : atom) : outcome value :=
  match container, key with
  | VDict d, AStr k =>
      match dict_get String.eqb k d with
      | Some v => Ok v
      | None => Raise KeyError
      end
  | VDict _, AInt _ => Raise KeyError
  | VList l, AInt n =>
      match py_index l n with
      | Some v => Ok v
      | None => Raise IndexError
      end
  | VStr s, AInt n =>
      match py_index (list_ascii_of_string s) n with
      | Some c => Ok (VStr (String c EmptyString))
      | None => Raise IndexError
      end
  | _, _ => Raise TypeError
  end.

(** [reduce(operator.getitem, path, input)] *)
Fixpoint reduce_getitem (p : path) (acc : value) : outcome value :=
  match p with
  | [] => Ok acc
  | a :: p' =>
      match getitem acc a with
      | Ok v => reduce_getitem p' v
      | Raise e => Raise e
      end
  end.

(** ** Checker.__init__, helper, encode_dependency *)

(** Modelled from the spec: [is_subfield(subpath, path)] of common.py is not
    in the source tree; a subfield is a path "whose prefix equals" [path]
    (section 4.3), the path itself included. *)
Fixpoint is_subfield (subpath p : path) : bool :=
  match p, subpath with
  | [], _ => true
  | a :: p', b :: s' => atom_eqb a b && is_subfield s' p'
  | _ :: _, [] => false
  end.

(** The record [{'field': dependee, 'op': '==', 'value': 'true'}]. *)
Definition enabled_condition (dependee : path) : condition :=
  mkCond dependee "==" (VStr "true").

(** [encode_dependency(depender, dependee)] on [self.field_conditions_map]. *)
Definition encode_dependency (depender dependee : path) (m : conditions_map)
  : conditions_map :=
  let m1 := if dict_mem path_eqb depender m then m else m ++ [(depender, [])] in
  map (fun kv : path * list condition =>
         let (key, value) := kv in
         if is_subfield key depender
         then (key, value ++ [enabled_condition dependee])
         else (key, value)) m1.

(** [helper(schema)] on [self.field_conditions_map]. *)
Fixpoint helper (schema : Schema) (m : conditions_map) : conditions_map :=
  match schema with
  | ObjectSchema schema_path properties =>
      (fix items (ps : list (string * Schema)) (m : conditions_map)
         : conditions_map :=
         match ps with
         | [] => m
         | (key, value) :: ps' =>
             let m1 := if String.eqb key "enabled"
                       then encode_dependency schema_path
                              (schema_path ++ [AStr key]) m
                       else m in
             let m2 := match value with
                       | ObjectSchema _ _ => helper value m1
                       | ArraySchema _ item => helper item m1
                       | BaseSchema _ => m1
                       end in
             items ps' m2
         end) properties m
  | _ => m
  end.

(** [Checker.__init__]: the dependency index of the new checker. *)
Definition Checker_init (E : Env) : outcome conditions_map :=
  if enable_analysis E then
    match analysis_result E with
    | Some a => Ok (helper (get_root_schema E) (analysis_field_conditions_map a))
    | None => Raise KeyError
    end
  else Ok (helper (get_root_schema E) []).

(** ** check_condition *)

Definition with_field (c : condition) (p : path) : condition :=
  mkCond p (op c) (cvalue c).
Definition with_value (c : condition) (v : value) : condition :=
  mkCond (field c) (op c) v.

(** The loop [if path[i] == 'INDEX': path[i] = 0] over the list object. *)
Definition index_to_zero (p : path) : path :=
  map (fun a => if atom_eqb a (AStr "INDEX") then AInt 0 else a) p.

Definition is_bool (v : value) : bool :=
  match v with VBool _ => true | _ => false end.

(** [check_condition(input, condition)]: the result, and the condition record
    as the call leaves it (the record is a shared object and the method
    writes to it). *)
Definition check_condition (inp : value) (c : condition)
  : outcome bool * condition :=
  let c := with_field c (index_to_zero (field c)) in
  match reduce_getitem (field c) inp with
  | Raise KeyError | Raise TypeError =>
      match translate_op (op c) with
      | None => (Raise ValueError, c)
      | Some o => (Ok (is_operator_eq o && py_eq (cvalue c) VNone), c)
      end
  | Raise e => (Raise e, c)
  | Ok v =>
      match translate_op (op c) with
      | None => (Raise ValueError, c)
      | Some o =>
          match apply_op o v (cvalue c) with
          | Raise e => (Raise e, c)
          | Ok true => (Ok true, c)
          | Ok false =>
              if is_bool v then
                let c := with_value c (VBool (py_eq (cvalue c) (VStr "true"))) in
                (apply_op o v (cvalue c), c)
              else (Ok false, c)
          end
      end
  end.

(** The loop of [should_skip_input_delta]
    [for condition in conditions: if not check_condition(...): return True]:
    whether it returned [True], and the records as the loop leaves them. *)
Fixpoint check_conditions (inp : value) (conditions : list condition)
  : outcome bool * list condition :=
  match conditions with
  | [] => (Ok false, [])
  | c :: rest =>
      match check_condition inp c with
      | (Ok true, c') =>
          let (r, rest') := check_conditions inp rest in (r, c' :: rest')
      | (Ok false, c') => (Ok true, c' :: rest)
      | (Raise e, c') => (Raise e, c' :: rest)
      end
  end.

(** ** find_nearest_parent *)

Definition len {A : Type} (l : list A) : Z := Z.of_nat (List.length l).

(** The loop [for i in range(len(p)): if p[i] != path[i]: different = True]. *)
Fixpoint different (p q : path) : bool :=
  match p, q with
  | [], _ => false
  | a :: p', b :: q' => if negb (atom_eqb a b) then true else different p' q'
  | _ :: _, [] => true
  end.

(** [find_nearest_parent(path, encoded_path_list)]; the loop state is the pair
    of the locals [length] and [ret]. *)
Definition find_nearest_parent (p : path) (encoded_path_list : list path)
  : option path :=
  snd (fold_left
         (fun (st : Z * option path) (q : path) =>
            let (length, ret) := st in
            if len q >? len p then (length, ret)
            else if different q p then (length, ret)
            else if len q >? length then (length, Some q)
            else (length, ret))
         encoded_path_list (0, None)).

(** Updates of single attributes of the heap objects. *)
Definition set_field_conditions_map (m : conditions_map) : M unit :=
  fun h => (Ok tt, mkHeap m (delta_log_path h) (prev_snapshot h)
                          (delta_logs h) (calls h)).
Definition set_delta_log_path (g : Z) : M unit :=
  fun h => (Ok tt, mkHeap (field_conditions_map h) (Some g) (prev_snapshot h)
                          (delta_logs h) (calls h)).
Definition set_prev_system_state (st : list (string * value)) : M unit :=
  fun h => (Ok tt,
            mkHeap (field_conditions_map h) (delta_log_path h)
                   (mkSnapshot (input (prev_snapshot h))
                               (cli_result (prev_snapshot h)) st
                               (operator_log (prev_snapshot h)))
                   (delta_logs h) (calls h)).
Definition write_delta_log (g : Z) (d : delta_map * system_delta_map) : M unit :=
  fun h => (Ok tt, mkHeap (field_conditions_map h) (delta_log_path h)
                          (prev_snapshot h) (delta_logs h ++ [(g, d)]) (calls h)).

(** ** should_skip_input_delta *)

(** [x == default_value] for one side of a delta; the sentinel is not a
    document and equals none. *)
Definition side_eq (x : field_value) (v : value) : bool :=
  match x with Present a => py_eq a v | NotPresent => false end.

(** [x == None or isinstance(x, NotPresent)] *)
Definition none_or_not_present (x : field_value) : bool :=
  match x with Present a => py_eq a VNone | NotPresent => true end.

(** The [try] block: whether it returned [True] (an exception is caught and
    only logged). *)
Definition default_rule (E : Env) (d : Diff) : bool :=
  match schema_default E (diff_path d) with
  | Some default_value =>
      if side_eq (diff_prev d) default_value && none_or_not_present (diff_curr d)
      then true
      else side_eq (diff_curr d) default_value && none_or_not_present (diff_prev d)
  | None => false
  end.

(** [re.match(r"^\d$", str(a))] on ASCII text: one digit, possibly followed by
    a newline. *)
Definition is_digit (c : ascii) : bool :=
  let n := nat_of_ascii c in (Nat.leb 48 n && Nat.leb n 57)%bool.

Definition single_digit (a : atom) : bool :=
  match a with
  | AInt n => (0 <=? n) && (n <=? 9)
  | AStr (String c EmptyString) => is_digit c
  | AStr (String c (String nl EmptyString)) =>
      is_digit c && Ascii.eqb nl (ascii_of_nat 10)
  | AStr _ => false
  end.

(** The loop over [i] for one control-flow field of the length of the path:
    whether [not_match] stays [False]. *)
Fixpoint gate_matches (p control_flow_field : path) : bool :=
  match p, control_flow_field with
  | a :: p', c :: f' =>
      if atom_eqb c (AStr "INDEX") && single_digit a then gate_matches p' f'
      else if negb (atom_eqb a c) then false
      else gate_matches p' f'
  | _, _ => true
  end.

(** Evaluates the conditions stored under [key] and leaves the records in the
    index as the evaluation changed them. *)
Definition eval_conditions (snapshot : Snapshot) (key : path) : M bool :=
  h <- get_heap ;;
  match dict_get path_eqb key (field_conditions_map h) with
  | None => raise KeyError
  | Some conditions =>
      let (r, conditions') := check_conditions (input snapshot) conditions in
      set_field_conditions_map
        (dict_set path_eqb key conditions' (field_conditions_map h)) ;;;
      lift r
  end.

Definition should_skip_input_delta (E : Env) (input_delta : Diff)
  (snapshot : Snapshot) : M bool :=
  if default_rule E input_delta then ret true
  else
    h <- get_heap ;;
    let field_conditions_map := field_conditions_map h in
    skip <-
      (if dict_mem path_eqb (diff_path input_delta) field_conditions_map
       then eval_conditions snapshot (diff_path input_delta)
       else match find_nearest_parent (diff_path input_delta)
                    (dict_keys field_conditions_map) with
            | Some parent => eval_conditions snapshot parent
            | None => ret false
            end) ;;
    if skip : bool then ret true
    else if negb (enable_analysis E) then ret false
    else match analysis_result E with
         | None => ret false
         | Some a =>
             ret (existsb
                    (fun control_flow_field =>
                       (len (diff_path input_delta) =? len control_flow_field)
                       && gate_matches (diff_path input_delta) control_flow_field)
                    (control_flow_fields a))
         end.

(** ** _list_matched_fields *)

(** The three nested loops over [delta_dict.values()]. *)
Definition all_deltas (delta_dict : system_delta_map) : list Diff :=
  List.concat (map (fun resource_delta_list : delta_map =>
                 List.concat (map (fun type_delta_list : list (string * Diff) =>
                                dict_values type_delta_list)
                             (dict_values resource_delta_list)))
              (dict_values delta_dict)).

(** The loop over [GENERIC_FIELDS]: whether it returned [[]]. *)
Fixpoint generic_field (regexes : list (atom -> bool)) (p : path) : outcome bool :=
  match regexes with
  | [] => Ok false
  | regex :: regexes' =>
      match py_index p (-1) with
      | None => Raise IndexError
      | Some a => if regex a then Ok true else generic_field regexes' p
      end
  end.

(** The [while] loop.  [fuel] counts the atoms of [p] that the loop has not
    looked at yet: with none left, [p[-position - 1]] is out of range. *)
Fixpoint while_canonical_match (E : Env) (fuel : nat) (p dpath : path)
  (position : Z) : outcome Z :=
  match fuel with
  | O => Raise IndexError
  | S fuel' =>
      match py_index p (- position - 1), py_index dpath (- position - 1) with
      | Some a, Some b =>
          if String.eqb (canonicalize E a) (canonicalize E b) then
            let position := position + 1 in
            if position =? Z.min (len p) (len dpath) then Ok position
            else while_canonical_match E fuel' p dpath position
          else Ok position
      | _, _ => Raise IndexError
      end
  end.

(** The loop over the system deltas; the state is [(results, max_match)]. *)
Fixpoint matched_loop (E : Env) (p : path) (deltas : list Diff)
  (results : list Diff) (max_match : Z) : outcome (list Diff) :=
  match deltas with
  | [] => Ok results
  | delta :: deltas' =>
      match while_canonical_match E (List.length p) p (diff_path delta) 0 with
      | Raise e => Raise e
      | Ok position =>
          if (position =? max_match) && negb (position =? 0)
          then matched_loop E p deltas' (results ++ [delta]) max_match
          else if position >? max_match
               then matched_loop E p deltas' [delta] position
               else matched_loop E p deltas' results max_match
      end
  end.

Definition _list_matched_fields (E : Env) (p : path)
  (delta_dict : system_delta_map) : outcome (list Diff) :=
  match generic_field (GENERIC_FIELDS E) p with
  | Raise e => Raise e
  | Ok true => Ok []
  | Ok false => matched_loop E p (all_deltas delta_dict) [] 0
  end.

(** ** get_deltas *)

(** The loop [for resource in curr_system_state]; [acc] is
    [system_state_delta]. *)
Fixpoint system_state_deltas (E : Env) (curr : list (string * value))
  (acc : system_delta_map) : M system_delta_map :=
  match curr with
  | [] => ret acc
  | (resource, curr_resource) :: curr' =>
      h <- get_heap ;;
      let prev_system_state := system_state (prev_snapshot h) in
      (if dict_mem String.eqb resource prev_system_state then ret tt
       else set_prev_system_state
              (dict_set String.eqb resource (VDict []) prev_system_state)) ;;;
      h <- get_heap ;;
      match dict_get String.eqb resource (system_state (prev_snapshot h)) with
      | None => raise KeyError
      | Some prev_resource =>
          system_state_deltas E curr'
            (dict_set String.eqb resource
                      (diff_resource E prev_resource curr_resource) acc)
      end
  end.

Definition get_deltas (E : Env) (snapshot : Snapshot)
  : M (delta_map * system_delta_map) :=
  record_call CallGetDeltas ;;;
  h <- get_heap ;;
  let input_delta := diff_input E (input (prev_snapshot h)) (input snapshot) in
  system_state_delta <- system_state_deltas E (system_state snapshot) [] ;;
  ret (input_delta, system_state_delta).

(** ** check_input *)

Definition check_input (E : Env) (snapshot : Snapshot) (input_delta : delta_map)
  : M RunResult :=
  record_call CallCheckInput ;;;
  let stdout := stdout (cli_result snapshot) in
  let stderr := stderr (cli_result snapshot) in
  if negb (find stderr "connection refused" =? -1) then ret ConnectionRefusedResult
  else
    let (is_invalid, reponsible_field_path) :=
      invalid_input_message E stderr input_delta in
    let is_invalid := if len_str stderr >? 0 then true else is_invalid in
    if is_invalid then ret (InvalidInputResult reponsible_field_path)
    else if negb (find stdout "unchanged" =? -1)
            || negb (find stderr "unchanged" =? -1)
         then ret UnchangedInputResult
         else ret PassResult.

(** ** check_resources: the system state oracle *)

(** The two nested loops over [input_delta.values()]. *)
Definition input_deltas (input_delta : delta_map) : list Diff :=
  List.concat (map (fun delta_list : list (string * Diff) => dict_values delta_list)
                   (dict_values input_delta)).

(** The wildcard loop: the final value of [found]. *)
Definition found_anywhere (E : Env) (delta : Diff)
  (system_delta_without_cr : system_delta_map) : bool :=
  fold_left (fun (found : bool) (state_delta : Diff) =>
               if compare E (diff_prev delta) (diff_curr delta)
                          (diff_prev state_delta) (diff_curr state_delta)
               then true else found)
            (all_deltas system_delta_without_cr) false.

(** The loop [for match_delta in match_deltas]: the first matched delta that
    is inconsistent with the input delta. *)
Fixpoint first_inconsistent (E : Env) (delta : Diff) (match_deltas : list Diff)
  : option Diff :=
  match match_deltas with
  | [] => None
  | match_delta :: rest =>
      if negb (compare E (diff_prev delta) (diff_curr delta)
                       (diff_prev match_delta) (diff_curr match_delta))
      then Some match_delta
      else first_inconsistent E delta rest
  end.

(** The body of the loop over the input deltas: the result the oracle returns
    at this delta, or nothing when the loop goes on. *)
Definition check_delta (E : Env) (snapshot : Snapshot)
  (system_delta_without_cr : system_delta_map) (delta : Diff)
  : M (option RunResult) :=
  if input_compare E (diff_prev delta) (diff_curr delta) then ret None
  else
    skip <- should_skip_input_delta E delta snapshot ;;
    if skip : bool then ret None
    else
      match_deltas <- lift (_list_matched_fields E (diff_path delta)
                                                 system_delta_without_cr) ;;
      match first_inconsistent E delta match_deltas with
      | Some match_delta =>
          ret (Some (ErrorResult SYSTEM_STATE
                       "Matched delta inconsistent with input delta"
                       (Some delta) (Some match_delta)))
      | None =>
          if len match_deltas =? 0 then
            if found_anywhere E delta system_delta_without_cr then ret None
            else ret (Some (ErrorResult SYSTEM_STATE
                              "Found no matching fields for input"
                              (Some delta) None))
          else ret None
      end.

Fixpoint check_delta_loop (E : Env) (snapshot : Snapshot)
  (system_delta_without_cr : system_delta_map) (deltas : list Diff)
  : M (option RunResult) :=
  match deltas with
  | [] => ret None
  | delta :: deltas' =>
      r <- check_delta E snapshot system_delta_without_cr delta ;;
      match r with
      | Some result => ret (Some result)
      | None => check_delta_loop E snapshot system_delta_without_cr deltas'
      end
  end.

(** The [with open(self.delta_log_path, 'w')] block. *)
Definition log_deltas (E : Env) (d : delta_map * system_delta_map) : M unit :=
  h <- get_heap ;;
  match delta_log_path h with
  | None => raise AttributeError
  | Some g =>
      record_call (CallOpenDeltaLog g) ;;;
      if writable E g then write_delta_log g d else raise OSError
  end.

Definition check_resources (E : Env) (snapshot : Snapshot) : M RunResult :=
  record_call CallCheckResources ;;;
  d <- get_deltas E snapshot ;;
  let (input_delta, system_delta) := d : delta_map * system_delta_map in
  log_deltas E (input_delta, system_delta) ;;;
  match dict_pop String.eqb "custom_resource_spec" system_delta with
  | None => raise KeyError
  | Some system_delta_without_cr =>
      r <- check_delta_loop E snapshot system_delta_without_cr
             (input_deltas input_delta) ;;
      match r with
      | Some result => ret result
      | None => ret PassResult
      end
  end.

(** ** check_operator_log *)

(** [parsed_log['level'].lower()] *)
Definition log_level (parsed_log : list (string * value)) : outcome string :=
  match dict_get String.eqb "level" parsed_log with
  | None => Raise KeyError
  | Some (VStr s) => Ok (lower s)
  | Some _ => Raise AttributeError
  end.

(** The loop over [list(parsed_log.values())]. *)
Fixpoint invalid_in_values (E : Env) (input_delta : delta_map)
  (values : list value) : option RunResult :=
  match values with
  | [] => None
  | VStr s :: values' =>
      if String.eqb s "" then invalid_in_values E input_delta values'
      else
        let (is_invalid, reponsible_field_path) :=
          invalid_input_message E s input_delta in
        if is_invalid then Some (InvalidInputResult reponsible_field_path)
        else invalid_in_values E input_delta values'
  | _ :: values' => invalid_in_values E input_delta values'
  end.

(** The loop over the log lines.  The search of [EXCLUDE_ERROR_REGEX] that
    ends the body only chooses between [continue] and the end of the body,
    where the report of an error is commented out. *)
Fixpoint operator_log_loop (E : Env) (input_delta : delta_map)
  (log : list string) : outcome RunResult :=
  match log with
  | [] => Ok PassResult
  | line :: log' =>
      let parsed_log := parse_log E line in
      match parsed_log with
      | [] => operator_log_loop E input_delta log'
      | _ :: _ =>
          match log_level parsed_log with
          | Raise e => Raise e
          | Ok level =>
              if negb (String.eqb level "warn") && negb (String.eqb level "error")
                 && negb (String.eqb level "fatal")
              then operator_log_loop E input_delta log'
              else
                match invalid_in_values E input_delta (dict_values parsed_log) with
                | Some result => Ok result
                | None => operator_log_loop E input_delta log'
                end
          end
      end
  end.

Definition check_operator_log (E : Env) (snapshot : Snapshot) : M RunResult :=
  record_call CallCheckOperatorLog ;;;
  d <- get_deltas E snapshot ;;
  lift (operator_log_loop E (fst d) (operator_log snapshot)).

(** ** check_health: the system health oracle *)

Definition obind {A B : Type} (o : outcome A) (k : A -> outcome B) : outcome B :=
  match o with Ok a => k a | Raise e => Raise e end.

Notation "x <-? o ;; k" := (obind o (fun x => k))
  (at level 61, o at next level, right associativity).

(** [a and b] on tests that may raise: [b] is evaluated only if [a] holds. *)
Definition and_then (a b : outcome bool) : outcome bool :=
  x <-? a ;; if x : bool then b else Ok false.

(** [doc[p1]...[pn] == doc[q1]...[qm]] *)
Definition eq_at (doc : value) (p q : list string) : outcome bool :=
  a <-? reduce_getitem (map AStr p) doc ;;
  b <-? reduce_getitem (map AStr q) doc ;;
  Ok (py_eq a b).

(** [system_state[kind].values()] *)
Definition resources_of (system_state : list (string * value)) (kind : string)
  : outcome (list value) :=
  match dict_get String.eqb kind system_state with
  | None => Raise KeyError
  | Some (VDict d) => Ok (dict_values d)
  | Some _ => Raise AttributeError
  end.

(** One loop of [check_health]: the names of the resources that [healthy]
    rejects. *)
Fixpoint unhealthy (healthy : value -> outcome bool) (resources : list value)
  : outcome (list value) :=
  match resources with
  | [] => Ok []
  | r :: resources' =>
      h <-? healthy r ;;
      if h : bool then unhealthy healthy resources'
      else
        name <-? reduce_getitem [AStr "metadata"; AStr "name"] r ;;
        names <-? unhealthy healthy resources' ;;
        Ok (name :: names)
  end.

Definition healthy_stateful_set (sfs : value) : outcome bool :=
  and_then (eq_at sfs ["spec"; "replicas"] ["status"; "replicas"])
    (and_then (eq_at sfs ["status"; "replicas"] ["status"; "ready_replicas"])
       (eq_at sfs ["status"; "current_revision"] ["status"; "update_revision"])).

Definition healthy_deployment (dp : value) : outcome bool :=
  replicas <-? reduce_getitem [AStr "spec"; AStr "replicas"] dp ;;
  if py_eq replicas (VInt 0) then Ok true
  else
    and_then (eq_at dp ["spec"; "replicas"] ["status"; "replicas"])
      (and_then (eq_at dp ["status"; "replicas"] ["status"; "ready_replicas"])
         (eq_at dp ["status"; "ready_replicas"] ["status"; "updated_replicas"])).

Definition healthy_pod (pod : value) : outcome bool :=
  phase <-? reduce_getitem [AStr "status"; AStr "phase"] pod ;;
  Ok (existsb (fun x => py_eq phase x)
              [VStr "Running"; VStr "Completed"; VStr "Succeeded"]).

(** [', '.join(resources)] *)
Fixpoint join_names (names : list value) : outcome string :=
  match names with
  | [] => Ok ""
  | VStr s :: [] => Ok s
  | VStr s :: names' => rest <-? join_names names' ;; Ok (s ++ ", " ++ rest)%string
  | _ :: _ => Raise TypeError
  end.

(** The loop that builds [error_msg]. *)
Fixpoint health_message (kinds : list (string * list value)) : outcome string :=
  match kinds with
  | [] => Ok ""
  | (kind, resources) :: kinds' =>
      if len resources =? 0 then health_message kinds'
      else
        names <-? join_names resources ;;
        rest <-? health_message kinds' ;;
        Ok (kind ++ ": " ++ names ++ String (ascii_of_nat 10) rest)%string
  end.

Definition check_health (snapshot : Snapshot) : M RunResult :=
  record_call CallCheckHealth ;;;
  lift (let system_state := system_state snapshot in
        sfs <-? resources_of system_state "stateful_set" ;;
        u_sfs <-? unhealthy healthy_stateful_set sfs ;;
        dps <-? resources_of system_state "deployment" ;;
        u_dps <-? unhealthy healthy_deployment dps ;;
        pods <-? resources_of system_state "pod" ;;
        u_pods <-? unhealthy healthy_pod pods ;;
        error_msg <-? health_message [("statefulset", u_sfs);
                                      ("deployment", u_dps); ("pod", u_pods)] ;;
        if negb (String.eqb error_msg "")
        then Ok (ErrorResult SYSTEM_HEALTH error_msg None None)
        else Ok PassResult).

(** ** check *)

(** [check(snapshot, prev_snapshot, generation)]; [prev_snapshot] is the
    object of that name in the heap.  The calls of [flatten_dict] and of
    [logging], whose results the method does not use, are left out. *)
Definition check (E : Env) (snapshot : Snapshot) (generation : Z) : M RunResult :=
  match system_state snapshot with
  | [] => ret (InvalidInputResult None)
  | _ :: _ =>
      set_delta_log_path generation ;;;
      d <- get_deltas E snapshot ;;
      let input_delta := fst d in
      input_result <- check_input E snapshot input_delta ;;
      if negb (is_pass input_result) then ret input_result
      else
        state_result <- check_resources E snapshot ;;
        log_result <- check_operator_log E snapshot ;;
        (* XXX: disable health check for now *)
        let health_result := PassResult in
        if is_invalid_input log_result then ret log_result
        else if is_error health_result then ret health_result
        else if is_error state_result then ret state_result
        else if is_error log_result then ret log_result
        else ret PassResult
  end.

(** * Specification vocabulary *)

(** ** Invariants of the heap and properties of returned values *)

(** [hoare P m Q]: from a heap where [P] holds, [m] ends in a heap where [P]
    holds (also when it raises), and a returned value satisfies [Q]. *)
Definition hoare {A : Type} (P : heap -> Prop) (m : M A) (Q : A -> Prop) : Prop :=
  forall h, P h -> P (snd (m h)) /\ (forall a, fst (m h) = Ok a -> Q a).

Definition any {A : Type} (_ : A) : Prop := True.

(** An error reported on behalf of the health oracle. *)
Definition health_error (r : RunResult) : bool :=
  match r with ErrorResult SYSTEM_HEALTH _ _ _ => true | _ => false end.

Definition not_health (r : RunResult) : Prop := health_error r = false.

Definition not_health_opt (r : option RunResult) : Prop :=
  match r with Some x => not_health x | None => True end.

Definition no_health_call (h : heap) : Prop := ~ In CallCheckHealth (calls h).

(** ** The stages of check *)

(** The first statements of [check] on a non-empty system state, up to the
    verdict of the input oracle. *)
Definition input_stage (E : Env) (snapshot : Snapshot) (generation : Z)
  : M RunResult :=
  set_delta_log_path generation ;;;
  d <- get_deltas E snapshot ;;
  check_input E snapshot (fst d).

(** The verdict combiner as section 4.7 of the spec words it, on the verdicts
    of the input, state, log and health oracles. *)
Definition VerdictCombiner_spec (input_verdict state_verdict log_verdict
  health_verdict : RunResult) : RunResult :=
  if is_invalid_input input_verdict then input_verdict
  else if is_invalid_input log_verdict then log_verdict
  else match input_verdict with
       | ConnectionRefusedResult => input_verdict
       | UnchangedInputResult => input_verdict
       | _ =>
           if is_error health_verdict then health_verdict
           else if is_error state_verdict then state_verdict
           else if is_error log_verdict then log_verdict
           else PassResult
       end.

(** The combination that [check] computes once the input oracle passed. *)
Definition after_input_pass (state_result log_result health_result : RunResult)
  : RunResult :=
  if is_invalid_input log_result then log_result
  else if is_error health_result then health_result
  else if is_error state_result then state_result
  else if is_error log_result then log_result
  else PassResult.

(** ** Longest-suffix matching, as the spec words it *)

(** The number of leading atoms that two paths share under canonicalization. *)
Fixpoint common_prefix_length (E : Env) (p q : path) : nat :=
  match p, q with
  | a :: p', b :: q' =>
      if String.eqb (canonicalize E a) (canonicalize E b)
      then S (common_prefix_length E p' q')
      else O
  | _, _ => O
  end.

(** The suffix overlap of two paths: the number of trailing atoms they share
    under canonicalization. *)
Definition suffix_overlap (E : Env) (p q : path) : Z :=
  Z.of_nat (common_prefix_length E (rev p) (rev q)).

(** The largest suffix overlap of [p] with a delta of the list (0 for none). *)
Definition max_overlap (E : Env) (p : path) (deltas : list Diff) : Z :=
  fold_right (fun d m => Z.max (suffix_overlap E p (diff_path d)) m) 0 deltas.

(** The deltas whose suffix overlap with [p] is maximal and not zero. *)
Definition longest_suffix_matches (E : Env) (p : path) (delta_dict : system_delta_map)
  : list Diff :=
  let deltas := all_deltas delta_dict in
  let m := max_overlap E p deltas in
  filter (fun d => (suffix_overlap E p (diff_path d) =? m) && negb (m =? 0)) deltas.

(** The last atom of [p] matches one of the generic regexes. *)
Definition last_atom_generic (E : Env) (p : path) : bool :=
  match rev p with
  | a :: _ => existsb (fun regex => regex a) (GENERIC_FIELDS E)
  | [] => false
  end.

(** ** The nearest parent, as the spec words it *)

(** The longest key that is an elementwise prefix of [p] (rule D3). *)
Definition nearest_parent_spec (p : path) (keys : list path) : option path :=
  fold_left (fun (best : option path) (q : path) =>
               if is_subfield p q
               then match best with
                    | Some b => if len q >? len b then Some q else best
                    | None => Some q
                    end
               else best)
            keys None.

(** The test under which the loop of [find_nearest_parent] assigns [ret]. *)
Definition assigns_ret (p q : path) : bool :=
  negb (len q >? len p) && negb (different q p) && (len q >? 0).

(** ** The invariant of the dependency index, as the spec words it *)

(** The key [k] is in the index and [c] is one of its conditions. *)
Definition carries (m : conditions_map) (k : path) (c : condition) : Prop :=
  exists conditions, dict_get path_eqb k m = Some conditions /\ In c conditions.

(** Section 3: every key of which [k] is a proper prefix carries the
    conditions stored under [k]. *)
Definition conditions_propagated (m : conditions_map) : Prop :=
  forall k p conditions,
    dict_get path_eqb k m = Some conditions ->
    dict_mem path_eqb p m = true ->
    is_subfield p k = true -> p <> k ->
    forall c, In c conditions -> carries m p c.

(** The index that [Checker.__init__] starts from. *)
Definition seed_index (E : Env) : conditions_map :=
  if enable_analysis E then
    match analysis_result E with
    | Some a => analysis_field_conditions_map a
    | None => []
    end
  else [].

(** The calls [encode_dependency(depender, dependee)] that [helper] makes on
    a schema, in the order of the walk. *)
Fixpoint dependencies (schema : Schema) : list (path * path) :=
  match schema with
  | ObjectSchema schema_path properties =>
      (fix items (ps : list (string * Schema)) : list (path * path) :=
         match ps with
         | [] => []
         | (key, value) :: ps' =>
             (if String.eqb key "enabled"
              then [(schema_path, schema_path ++ [AStr key])]
              else [])
             ++ match value with
                | ObjectSchema _ _ => dependencies value
                | ArraySchema _ item => dependencies item
                | BaseSchema _ => []
                end
             ++ items ps'
         end) properties
  | _ => []
  end.

(** The index after a list of [encode_dependency] calls. *)
Definition encode_all (calls : list (path * path)) (m : conditions_map)
  : conditions_map :=
  fold_left (fun m c => encode_dependency (fst c) (snd c) m) calls m.

(** ** The state oracle, as the spec words it *)

(** Steps 1 to 3 of the state oracle: the deltas are computed and logged, and
    [custom_resource_spec] is taken out of the system delta.  The result is
    the list of input deltas and the working system delta. *)
Definition state_oracle_deltas (E : Env) (snapshot : Snapshot)
  : M (list Diff * system_delta_map) :=
  record_call CallCheckResources ;;;
  d <- get_deltas E snapshot ;;
  log_deltas E d ;;;
  match dict_pop String.eqb "custom_resource_spec" (snd d) with
  | None => raise KeyError
  | Some system_delta_without_cr =>
      ret (input_deltas (fst d), system_delta_without_cr)
  end.

(** [compare(d.prev, d.curr, s.prev, s.curr)] *)
Definition consistent (E : Env) (d s : Diff) : bool :=
  compare E (diff_prev d) (diff_curr d) (diff_prev s) (diff_curr s).

(** Every input delta of the list is equivalent, skipped, or matched
    consistently (by all its longest-suffix matches, or, when it has none, by
    some delta of the system delta); the skip engine is asked in the heap that
    the deltas before left. *)
Inductive all_consistent (E : Env) (snapshot : Snapshot) (sd : system_delta_map)
  : list Diff -> heap -> heap -> Prop :=
| consistent_done (h : heap) : all_consistent E snapshot sd [] h h
| consistent_equivalent (d : Diff) (ds : list Diff) (h h' : heap) :
    input_compare E (diff_prev d) (diff_curr d) = true ->
    all_consistent E snapshot sd ds h h' ->
    all_consistent E snapshot sd (d :: ds) h h'
| consistent_skipped (d : Diff) (ds : list Diff) (h h1 h' : heap) :
    input_compare E (diff_prev d) (diff_curr d) = false ->
    should_skip_input_delta E d snapshot h = (Ok true, h1) ->
    all_consistent E snapshot sd ds h1 h' ->
    all_consistent E snapshot sd (d :: ds) h h'
| consistent_matched (d : Diff) (ds : list Diff) (h h1 h' : heap)
    (matches : list Diff) :
    input_compare E (diff_prev d) (diff_curr d) = false ->
    should_skip_input_delta E d snapshot h = (Ok false, h1) ->
    _list_matched_fields E (diff_path d) sd = Ok matches ->
    (forall m, In m matches -> consistent E d m = true) ->
    (matches = [] -> exists s, In s (all_deltas sd) /\ consistent E d s = true) ->
    all_consistent E snapshot sd ds h1 h' ->
    all_consistent E snapshot sd (d :: ds) h h'.

(** The two errors of the state oracle. *)
Definition inconsistent_error (d m : Diff) : RunResult :=
  ErrorResult SYSTEM_STATE "Matched delta inconsistent with input delta"
              (Some d) (Some m).

Definition no_match_error (d : Diff) : RunResult :=
  ErrorResult SYSTEM_STATE "Found no matching fields for input" (Some d) None.

(** * Further vocabulary *)

(** ** The loop of get_deltas in closed form *)

(** [prev_system_state] after the loop of [get_deltas] over the resources of
    the current state: each resource kind that is missing gets an empty
    dictionary, at the end. *)
Fixpoint with_missing_resources (prev curr : list (string * value))
  : list (string * value) :=
  match curr with
  | [] => prev
  | (resource, _) :: curr' =>
      with_missing_resources
        (if dict_mem String.eqb resource prev then prev
         else dict_set String.eqb resource (VDict []) prev)
        curr'
  end.

(** The resource of the previous state that a resource of the current state
    is compared with. *)
Definition resource_before (prev : list (string * value)) (resource : string)
  : value :=
  match dict_get String.eqb resource prev with
  | Some v => v
  | None => VDict []
  end.

(** [system_state_delta] after the loop of [get_deltas]. *)
Fixpoint system_deltas_of (E : Env) (prev curr : list (string * value))
  (acc : system_delta_map) : system_delta_map :=
  match curr with
  | [] => acc
  | (resource, curr_resource) :: curr' =>
      system_deltas_of E prev curr'
        (dict_set String.eqb resource
                  (diff_resource E (resource_before prev resource) curr_resource)
                  acc)
  end.

(** Two heaps that differ at most in [prev_snapshot.system_state]. *)
Definition same_but_prev_state (h h' : heap) : Prop :=
  field_conditions_map h' = field_conditions_map h
  /\ delta_log_path h' = delta_log_path h
  /\ delta_logs h' = delta_logs h
  /\ calls h' = calls h
  /\ input (prev_snapshot h') = input (prev_snapshot h)
  /\ cli_result (prev_snapshot h') = cli_result (prev_snapshot h)
  /\ operator_log (prev_snapshot h') = operator_log (prev_snapshot h).

(** ** What a check leaves of the dependency index *)

(** The part of a condition record that no evaluation changes: the field
    with ['INDEX'] read as [0], and the operator. *)
Definition condition_shape (c : condition) : path * string :=
  (index_to_zero (field c), op c).

(** The keys of the index, in order, each with the shapes of its conditions. *)
Definition index_shape (m : conditions_map) : list (path * list (path * string)) :=
  map (fun kv : path * list condition => (fst kv, map condition_shape (snd kv))) m.

(** ** The verdicts of check *)

(** An error of the state oracle about one of the input deltas [ds]: the
    delta is not input-equivalent, and either one of the system deltas is
    reported as inconsistent with it, or none was found to match it. *)
Definition state_error (E : Env) (ds : list Diff) (r : RunResult) : Prop :=
  exists d,
    In d ds
    /\ input_compare E (diff_prev d) (diff_curr d) = false
    /\ ((exists m, r = inconsistent_error d m /\ consistent E d m = false)
        \/ r = no_match_error d).

(** The verdicts that the input oracle can give. *)
Definition input_verdict (r : RunResult) : Prop :=
  r = PassResult \/ r = UnchangedInputResult \/ r = ConnectionRefusedResult
  \/ exists p, r = InvalidInputResult p.

(** What a check keeps of the heap [h0]: the input, the CLI result and the
    operator log of the previous snapshot, every resource entry of its system
    state, the shape of the dependency index, and the delta logs written
    before. *)
Definition framed (h0 h : heap) : Prop :=
  input (prev_snapshot h) = input (prev_snapshot h0)
  /\ cli_result (prev_snapshot h) = cli_result (prev_snapshot h0)
  /\ operator_log (prev_snapshot h) = operator_log (prev_snapshot h0)
  /\ (forall k v,
        dict_get String.eqb k (system_state (prev_snapshot h0)) = Some v ->
        dict_get String.eqb k (system_state (prev_snapshot h)) = Some v)
  /\ index_shape (field_conditions_map h) = index_shape (field_conditions_map h0)
  /\ exists written, delta_logs h = delta_logs h0 ++ written.

(** ** Matching by the last atom *)

(** The last atoms of two paths are the same up to canonicalization. *)
Definition same_last_atom (E : Env) (p q : path) : bool :=
  match rev p, rev q with
  | a :: _, b :: _ => String.eqb (canonicalize E a) (canonicalize E b)
  | _, _ => false
  end.

(** ** Log lines that the log oracle passes over *)

(** The line parses to nothing, or to a record whose level, in lower case, is
    not [warn], [error] or [fatal]. *)
Definition ignored_line (E : Env) (line : string) : bool :=
  match parse_log E line with
  | [] => true
  | parsed_log =>
      match log_level parsed_log with
      | Ok level =>
          negb (String.eqb level "warn") && negb (String.eqb level "error")
          && negb (String.eqb level "fatal")
      | Raise _ => false
      end
  end.

(** ** The health oracle on its own *)

(** The resources of a kind, when the system state has the kind and it is a
    dictionary. *)
Definition kind_is (system_state : list (string * value)) (kind : string)
  (resources : list (string * value)) : Prop :=
  dict_get String.eqb kind system_state = Some (VDict resources).

(** Every resource of the list passes the test [healthy]. *)
Definition all_healthy (healthy : value -> outcome bool)
  (resources : list (string * value)) : Prop :=
  forall r, In r (dict_values resources) -> healthy r = Ok true.

(** ** Keys in the order of their lengths *)

(** Among the keys that are prefixes of [p], each one is longer than those
    before it in the dictionary (a parent is inserted before its children). *)
Definition parents_first (p : path) (keys : list path) : Prop :=
  forall before b between q after,
    keys = before ++ b :: between ++ q :: after ->
    is_subfield p b = true -> is_subfield p q = true ->
    len b < len q.

(** ** count_num_fields *)

(** [count_num_fields(snapshot, prev_snapshot)]; [prev_snapshot] is the
    object of that name in the heap, and [flatten_dict], which common.py
    defines, is a parameter (the method only takes the length of its
    result). *)
Definition count_num_fields (E : Env)
  (flatten_dict : list (string * value) -> list (path * value))
  (snapshot : Snapshot) : M (option (Z * Z)) :=
  d <- get_deltas E snapshot ;;
  let (input_delta, system_delta) := d : delta_map * system_delta_map in
  let flattened_system_state := flatten_dict (system_state snapshot) in
  input_result <- check_input E snapshot input_delta ;;
  if negb (is_pass input_result) then ret None
  else if len input_delta >? 0
       then ret (Some (len flattened_system_state, len (all_deltas system_delta)))
       else ret None.

(** ** Example collaborators

    Stand-ins for the imported modules, used to run the checker on concrete
    snapshots. *)
Module Fixtures.

(** [str(a)] *)
Definition str (a : atom) : string :=
  match a with
  | AStr s => s
  | AInt n => DecimalString.NilZero.string_of_int (Z.to_int n)
  end.

(** A key of a [postprocess_diff] dictionary, in the style of DeepDiff. *)
Fixpoint path_key (p : path) : string :=
  match p with
  | [] => ""
  | a :: p' => ("[" ++ str a ++ "]" ++ path_key p')%string
  end.

(** A structural diff of nested dictionaries: a changed leaf, an added key
    and a removed key each give one delta. *)
Fixpoint diff_at (pre : path) (prev curr : value) {struct curr}
  : list (string * (string * Diff)) :=
  match prev, curr with
  | VDict dp, VDict dc =>
      (fix added (dc : list (string * value)) : list (string * (string * Diff)) :=
         match dc with
         | [] => []
         | (k, v) :: dc' =>
             let p := pre ++ [AStr k] in
             match dict_get String.eqb k dp with
             | Some u => diff_at p u v
             | None => [("dictionary_item_added",
                         (path_key p, mkDiff p NotPresent (Present v)))]
             end ++ added dc'
         end) dc
      ++ flat_map (fun kv : string * value =>
                     let p := pre ++ [AStr (fst kv)] in
                     if dict_mem String.eqb (fst kv) dc then []
                     else [("dictionary_item_removed",
                            (path_key p, mkDiff p (Present (snd kv)) NotPresent))])
                  dp
  | _, _ =>
      if py_eq prev curr then []
      else [("values_changed", (path_key pre, mkDiff pre (Present prev) (Present curr)))]
  end.

(** Groups the deltas by change kind. *)
Fixpoint group (l : list (string * (string * Diff))) (acc : delta_map) : delta_map :=
  match l with
  | [] => acc
  | (kind, kd) :: l' =>
      let old := match dict_get String.eqb kind acc with
                 | Some x => x
                 | None => []
                 end in
      group l' (dict_set String.eqb kind (old ++ [kd]) acc)
  end.

Definition diff (prev curr : value) : delta_map := group (diff_at [] prev curr) [].

(** Both sides of a delta present and equal. *)
Definition same (a b : field_value) : bool :=
  match a, b with
  | Present x, Present y => py_eq x y
  | NotPresent, NotPresent => true
  | _, _ => false
  end.

(** The text names the input as invalid. *)
Definition invalid_message (text : string) (_ : delta_map) : bool * option path :=
  if negb (find text "invalid" =? -1) then (true, Some [AStr "spec"; AStr "foo"])
  else (false, None).

(** A log line [level msg] parsed into its level (the first four or five
    letters) and its message. *)
Definition parse (line : string) : list (string * value) :=
  if startswith line "error " then [("level", VStr "error"); ("msg", VStr line)]
  else if startswith line "info " then [("level", VStr "info"); ("msg", VStr line)]
  else [].

Definition env (analysis : option AnalysisResult) (root : Schema)
  (can_write : Z -> bool) : Env :=
  {| enable_analysis := match analysis with Some _ => true | None => false end;
     analysis_result := analysis;
     get_root_schema := root;
     schema_default := fun _ => None;
     canonicalize := fun a => lower (str a);
     GENERIC_FIELDS := [fun a => String.eqb (str a) "name"];
     invalid_input_message := invalid_message;
     input_compare := same;
     compare := fun in_prev in_curr out_prev out_curr =>
                  same in_prev out_prev && same in_curr out_curr;
     diff_input := diff;
     diff_resource := diff;
     parse_log := parse;
     writable := can_write |}.

Definition doc (l : list (string * value)) : value := VDict l.

(** The input [{spec: {replicas: n}}]. *)
Definition replicas_input (n : Z) : value :=
  doc [("spec", doc [("replicas", VInt n)])].

(** A system state with the custom resource and one stateful set [db]. *)
Definition replicas_state (cr n : Z) : list (string * value) :=
  [("custom_resource_spec", doc [("replicas", VInt cr)]);
   ("stateful_set", doc [("db", doc [("spec", doc [("replicas", VInt n)])])])].

Definition snapshot_of (inp : value) (out err : string)
  (st : list (string * value)) (log : list string) : Snapshot :=
  mkSnapshot inp (mkCli out err) st log.

Definition heap_of (m : conditions_map) (prev : Snapshot) : heap :=
  mkHeap m None prev [] [].

Definition plain_env : Env := env None (BaseSchema []) (fun _ => true).

(** The schema of [spec: {tls: {cert, enabled}, enabled}] with the properties
    of each object in the given order. *)
Definition tls_object : Schema :=
  ObjectSchema [AStr "spec"; AStr "tls"]
    [("cert", BaseSchema [AStr "spec"; AStr "tls"; AStr "cert"]);
     ("enabled", BaseSchema [AStr "spec"; AStr "tls"; AStr "enabled"])].

Definition spec_enabled : string * Schema :=
  ("enabled", BaseSchema [AStr "spec"; AStr "enabled"]).

(** [tls] comes before [enabled] in [spec]. *)
Definition tls_first_schema : Schema :=
  ObjectSchema [] [("spec", ObjectSchema [AStr "spec"] [("tls", tls_object); spec_enabled])].

(** [enabled] comes before [tls] in [spec]. *)
Definition enabled_first_schema : Schema :=
  ObjectSchema [] [("spec", ObjectSchema [AStr "spec"] [spec_enabled; ("tls", tls_object)])].

(** The input [{spec: {enabled: e, tls: {enabled: t, cert: c}}}]. *)
Definition tls_input (e t : bool) (c : string) : value :=
  doc [("spec", doc [("enabled", VBool e);
                     ("tls", doc [("enabled", VBool t); ("cert", VStr c)])])].

(** A system state in which only the custom resource changes with [c]. *)
Definition tls_state (c : string) : list (string * value) :=
  [("custom_resource_spec", doc [("cert", VStr c)]);
   ("stateful_set", doc [("db", doc [("spec", doc [("replicas", VInt 3)])])])].


(** An index as the analysis gives it: a change of [spec.tls.cert] shows only
    if no port has its own [tls] and [spec.tls.enabled] is true. *)
Definition cert_path : path := [AStr "spec"; AStr "tls"; AStr "cert"].

Definition gate_index : conditions_map :=
  [(cert_path,
    [mkCond [AStr "spec"; AStr "ports"; AStr "INDEX"; AStr "tls"] "==" VNone;
     mkCond [AStr "spec"; AStr "tls"; AStr "enabled"] "==" (VStr "true")])].

Definition gate_env : Env :=
  env (Some (mkAnalysis gate_index [])) (BaseSchema []) (fun _ => true).

End Fixtures.

(** * Properties *)

Import Fixtures.

(** ** The input oracle *)

(** [len(stderr) > 0] says that [stderr] is not the empty string. *)
Lemma len_str_positive (s : string) : (len_str s >? 0) = negb (String.eqb s "").
Proof.
  destruct s as [|c s]; [reflexivity|].
  unfold len_str; simpl String.length.
  apply Z.gtb_lt. lia.
Qed.

(** C6: inside the input oracle, [ConnectionRefused] comes before
    [InvalidInput], which comes before [Unchanged], which comes before [Pass]:
    a [stderr] with "connection refused" gives [ConnectionRefused]; otherwise a
    positive answer of [invalid_input_message] or a non-empty [stderr] gives
    [InvalidInput] with the path the collaborator named; otherwise "unchanged"
    in either stream gives [Unchanged]; otherwise the verdict is [Pass]. *)
Theorem check_input_precedence (E : Env) (snapshot : Snapshot)
  (input_delta : delta_map) (h : heap) :
  let out := stdout (cli_result snapshot) in
  let err := stderr (cli_result snapshot) in
  let verdict := fst (check_input E snapshot input_delta h) in
  let answer := invalid_input_message E err input_delta in
  (find err "connection refused" <> -1 -> verdict = Ok ConnectionRefusedResult)
  /\ (find err "connection refused" = -1 ->
      fst answer = true \/ err <> "" ->
      verdict = Ok (InvalidInputResult (snd answer)))
  /\ (find err "connection refused" = -1 ->
      fst answer = false -> err = "" ->
      find out "unchanged" <> -1 \/ find err "unchanged" <> -1 ->
      verdict = Ok UnchangedInputResult)
  /\ (find err "connection refused" = -1 ->
      fst answer = false -> err = "" ->
      find out "unchanged" = -1 -> find err "unchanged" = -1 ->
      verdict = Ok PassResult).
Proof.
  cbv zeta. unfold check_input, bind, record_call, ret. simpl.
  destruct (invalid_input_message E (stderr (cli_result snapshot)) input_delta)
    as [is_invalid responsible] eqn:Hanswer.
  rewrite len_str_positive. simpl.
  repeat split.
  - intros Hrefused. apply Z.eqb_neq in Hrefused. now rewrite Hrefused.
  - intros Hfree Hinvalid. apply Z.eqb_eq in Hfree. rewrite Hfree. simpl.
    destruct Hinvalid as [-> | Hne].
    + now destruct (negb _).
    + apply String.eqb_neq in Hne. now rewrite Hne.
  - intros Hfree -> Hempty Hun. apply Z.eqb_eq in Hfree. rewrite Hfree.
    rewrite Hempty in Hun |- *. simpl.
    destruct Hun as [Hun | Hun].
    + apply Z.eqb_neq in Hun. now rewrite Hun.
    + now contradiction Hun.
  - intros Hfree -> Hempty Hout Herr. apply Z.eqb_eq in Hfree, Hout.
    rewrite Hfree. rewrite Hempty. simpl. now rewrite Hout.
Qed.

(** The four verdicts of the input oracle, each on a concrete CLI output. *)
Lemma check_input_precedence_witness :
  let h := heap_of [] (snapshot_of VNone "" "" [] []) in
  let at_ (out err : string) :=
    fst (check_input plain_env (snapshot_of VNone out err [] []) [] h) in
  at_ "unchanged" "dial tcp: connection refused" = Ok ConnectionRefusedResult
  /\ at_ "unchanged" "field is invalid"
     = Ok (InvalidInputResult (Some [AStr "spec"; AStr "foo"]))
  /\ at_ "resource unchanged" "" = Ok UnchangedInputResult
  /\ at_ "resource configured" "" = Ok PassResult.
Proof.
  cbv zeta. split; [|split; [|split]].
  - apply (check_input_precedence plain_env
             (snapshot_of VNone "unchanged" "dial tcp: connection refused" [] [])).
    vm_compute. discriminate.
  - apply (check_input_precedence plain_env
             (snapshot_of VNone "unchanged" "field is invalid" [] []) []).
    + reflexivity.
    + left. reflexivity.
  - apply (check_input_precedence plain_env
             (snapshot_of VNone "resource unchanged" "" [] []) []).
    + reflexivity.
    + reflexivity.
    + reflexivity.
    + left. vm_compute. discriminate.
  - apply (check_input_precedence plain_env
             (snapshot_of VNone "resource configured" "" [] []) []);
      reflexivity.
Defined.

(** ** Reasoning about methods: an invariant of the heap and a property of
    the returned value *)

Section Hoare.
Variable P : heap -> Prop.

Lemma hoare_ret {A} (a : A) (Q : A -> Prop) : Q a -> hoare P (ret a) Q.
Proof. intros Ha h Hh. split; [exact Hh|]. simpl. intros b [= <-]. exact Ha. Qed.

Lemma hoare_raise {A} (e : exn) (Q : A -> Prop) : hoare P (raise e) Q.
Proof. intros h Hh. split; [exact Hh|]. simpl. discriminate. Qed.

Lemma hoare_lift {A} (o : outcome A) (Q : A -> Prop) :
  (forall a, o = Ok a -> Q a) -> hoare P (lift o) Q.
Proof. intros Ho h Hh. split; [exact Hh|]. exact Ho. Qed.

Lemma hoare_get_heap (Q : heap -> Prop) :
  (forall h, P h -> Q h) -> hoare P get_heap Q.
Proof. intros HQ h Hh. split; [exact Hh|]. simpl. intros a [= <-]. auto. Qed.

Lemma hoare_bind {A B} (m : M A) (k : A -> M B) (R : A -> Prop) (Q : B -> Prop) :
  hoare P m R -> (forall a, R a -> hoare P (k a) Q) -> hoare P (bind m k) Q.
Proof.
  intros Hm Hk h Hh. unfold bind.
  destruct (Hm h Hh) as [Hinv Hres].
  destruct (m h) as [[a|e] h1]; simpl in *.
  - apply (Hk a (Hres a eq_refl) h1 Hinv).
  - split; [exact Hinv|discriminate].
Qed.

Lemma hoare_weaken {A} (m : M A) (Q Q' : A -> Prop) :
  hoare P m Q -> (forall a, Q a -> Q' a) -> hoare P m Q'.
Proof.
  intros Hm HQ h Hh. destruct (Hm h Hh) as [Hinv Hres]. split; auto.
Qed.
End Hoare.

(** ** What every method of a check preserves and returns *)

Lemma operator_log_loop_verdict (E : Env) (d : delta_map) (log : list string)
  (r : RunResult) :
  operator_log_loop E d log = Ok r -> r = PassResult \/ is_invalid_input r = true.
Proof.
  induction log as [|line log IH]; simpl.
  - intros [= <-]. now left.
  - destruct (parse_log E line) as [|kv parsed]; [exact IH|].
    destruct (log_level (kv :: parsed)) as [level|e]; [|discriminate].
    destruct (negb _ && negb _ && negb _); [exact IH|].
    destruct (invalid_in_values E d (dict_values (kv :: parsed))) as [x|] eqn:Hx;
      [|exact IH].
    intros [= <-]. right.
    revert Hx. generalize (dict_values (kv :: parsed)).
    intros vs. induction vs as [|v vs IHv]; simpl; [discriminate|].
    destruct v; auto.
    destruct (String.eqb s ""); auto.
    destruct (invalid_input_message E s d) as [[|] p]; auto.
    now intros [= <-].
Qed.

Section Invariant.
(** A property of the heap that no write of a check breaks, as long as the
    call recorded is not a call of [check_health]. *)
Variable P : heap -> Prop.
Hypothesis P_record_call :
  forall c h, c <> CallCheckHealth -> P h -> P (snd (record_call c h)).
Hypothesis P_field_conditions_map :
  forall m h, P h -> P (snd (set_field_conditions_map m h)).
Hypothesis P_delta_log_path :
  forall g h, P h -> P (snd (set_delta_log_path g h)).
Hypothesis P_prev_system_state :
  forall st h, P h -> P (snd (set_prev_system_state st h)).
Hypothesis P_delta_log :
  forall g d h, P h -> P (snd (write_delta_log g d h)).

Lemma inv_record_call (c : call) :
  c <> CallCheckHealth -> hoare P (record_call c) any.
Proof. intros Hc h Hh. split; [auto|intros; exact I]. Qed.

Lemma inv_set_field_conditions_map (m : conditions_map) :
  hoare P (set_field_conditions_map m) any.
Proof. intros h Hh. split; [auto|intros; exact I]. Qed.

Lemma inv_set_delta_log_path (g : Z) : hoare P (set_delta_log_path g) any.
Proof. intros h Hh. split; [auto|intros; exact I]. Qed.

Lemma inv_set_prev_system_state (st : list (string * value)) :
  hoare P (set_prev_system_state st) any.
Proof. intros h Hh. split; [auto|intros; exact I]. Qed.

Lemma inv_write_delta_log (g : Z) (d : delta_map * system_delta_map) :
  hoare P (write_delta_log g d) any.
Proof. intros h Hh. split; [auto|intros; exact I]. Qed.

Ltac hoare_step :=
  match goal with
  | |- hoare _ (bind _ _) _ => eapply hoare_bind; [|intros ? ?]
  | |- hoare _ (ret _) _ => apply hoare_ret
  | |- hoare _ (raise _) _ => apply hoare_raise
  | |- hoare _ get_heap _ => apply hoare_get_heap with (Q := any); intros; exact I
  | |- hoare _ (record_call _) _ => apply inv_record_call; discriminate
  | |- hoare _ (set_field_conditions_map _) _ => apply inv_set_field_conditions_map
  | |- hoare _ (set_delta_log_path _) _ => apply inv_set_delta_log_path
  | |- hoare _ (set_prev_system_state _) _ => apply inv_set_prev_system_state
  | |- hoare _ (write_delta_log _ _) _ => apply inv_write_delta_log
  | |- hoare _ (if ?b then _ else _) _ => destruct b eqn:?
  | |- hoare _ (match ?x with _ => _ end) _ => destruct x eqn:?
  | |- any _ => exact I
  | |- True => exact I
  end.

Lemma inv_system_state_deltas (E : Env) (curr : list (string * value))
  (acc : system_delta_map) :
  hoare P (system_state_deltas E curr acc) any.
Proof.
  revert acc. induction curr as [|[resource doc] curr IH]; intros acc; simpl.
  - repeat hoare_step.
  - repeat hoare_step; try apply IH; exact I.
Qed.

Lemma inv_get_deltas (E : Env) (snapshot : Snapshot) :
  hoare P (get_deltas E snapshot) any.
Proof.
  unfold get_deltas. repeat hoare_step.
  apply inv_system_state_deltas.
Qed.

Lemma inv_check_input (E : Env) (snapshot : Snapshot) (d : delta_map) :
  hoare P (check_input E snapshot d) not_health.
Proof.
  unfold check_input.
  destruct (invalid_input_message E (stderr (cli_result snapshot)) d).
  repeat hoare_step; try exact I; reflexivity.
Qed.

Lemma inv_eval_conditions (snapshot : Snapshot) (key : path) :
  hoare P (eval_conditions snapshot key) any.
Proof.
  unfold eval_conditions.
  eapply hoare_bind; [hoare_step|intros h _].
  destruct (dict_get path_eqb key (field_conditions_map h)) as [l|]; [|hoare_step].
  destruct (check_conditions (input snapshot) l).
  repeat hoare_step. apply hoare_lift. intros; exact I.
Qed.

Lemma inv_should_skip (E : Env) (d : Diff) (snapshot : Snapshot) :
  hoare P (should_skip_input_delta E d snapshot) any.
Proof.
  unfold should_skip_input_delta.
  repeat hoare_step; try apply inv_eval_conditions; exact I.
Qed.

Lemma inv_check_delta (E : Env) (snapshot : Snapshot)
  (sd : system_delta_map) (d : Diff) :
  hoare P (check_delta E snapshot sd d) not_health_opt.
Proof.
  unfold check_delta.
  hoare_step; [hoare_step; exact I|].
  hoare_step; [apply inv_should_skip|].
  hoare_step; [hoare_step; exact I|].
  hoare_step; [apply hoare_lift with (Q := any); intros; exact I|].
  repeat hoare_step; try exact I; reflexivity.
Qed.

Lemma inv_check_delta_loop (E : Env) (snapshot : Snapshot)
  (sd : system_delta_map) (ds : list Diff) :
  hoare P (check_delta_loop E snapshot sd ds) not_health_opt.
Proof.
  induction ds as [|d ds IH]; simpl.
  - hoare_step. exact I.
  - eapply hoare_bind; [apply inv_check_delta|intros r Hr].
    destruct r; [hoare_step; assumption|apply IH].
Qed.

Lemma inv_log_deltas (E : Env) (d : delta_map * system_delta_map) :
  hoare P (log_deltas E d) any.
Proof. unfold log_deltas. repeat hoare_step; exact I. Qed.

Lemma inv_check_resources (E : Env) (snapshot : Snapshot) :
  hoare P (check_resources E snapshot) not_health.
Proof.
  unfold check_resources.
  eapply hoare_bind; [hoare_step|intros _ _].
  eapply hoare_bind; [apply inv_get_deltas|intros [input_delta system_delta] _].
  eapply hoare_bind; [apply inv_log_deltas|intros _ _].
  destruct (dict_pop _ _ _); [|hoare_step].
  eapply hoare_bind; [apply inv_check_delta_loop|intros r Hr].
  destruct r; hoare_step; [assumption|reflexivity].
Qed.

Lemma inv_check_operator_log (E : Env) (snapshot : Snapshot) :
  hoare P (check_operator_log E snapshot) not_health.
Proof.
  unfold check_operator_log.
  eapply hoare_bind; [hoare_step|intros _ _].
  eapply hoare_bind; [apply inv_get_deltas|intros d _].
  apply hoare_lift. intros r Hr.
  destruct (operator_log_loop_verdict _ _ _ Hr) as [-> | Hi]; [reflexivity|].
  now destruct r.
Qed.

Lemma inv_check (E : Env) (snapshot : Snapshot) (g : Z) :
  hoare P (check E snapshot g) not_health.
Proof.
  unfold check. destruct (system_state snapshot); [hoare_step; reflexivity|].
  eapply hoare_bind; [hoare_step|intros _ _].
  eapply hoare_bind; [apply inv_get_deltas|intros d _].
  eapply hoare_bind; [apply inv_check_input|intros input_result Hi].
  destruct (negb (is_pass input_result)); [hoare_step; assumption|].
  eapply hoare_bind; [apply inv_check_resources|intros state_result Hs].
  eapply hoare_bind; [apply inv_check_operator_log|intros log_result Hl].
  repeat hoare_step; try assumption; reflexivity.
Qed.
End Invariant.

(** ** The health oracle inside check *)

Lemma no_health_record_call (c : call) (h : heap) :
  c <> CallCheckHealth -> no_health_call h -> no_health_call (snd (record_call c h)).
Proof.
  intros Hc Hh. unfold no_health_call, record_call in *. simpl.
  rewrite in_app_iff. intros [Hin | [Heq | []]]; [auto|congruence].
Qed.

(** C9: [check] never reports an error of the health oracle, and it never
    calls [check_health]: a heap whose record of calls has no call of
    [check_health] still has none after [check]. *)
Theorem check_never_reports_health (E : Env) (snapshot : Snapshot) (g : Z)
  (h : heap) :
  (forall msg input_delta matched,
     fst (check E snapshot g h)
     <> Ok (ErrorResult SYSTEM_HEALTH msg input_delta matched))
  /\ (~ In CallCheckHealth (calls h) ->
      ~ In CallCheckHealth (calls (snd (check E snapshot g h)))).
Proof.
  split.
  - intros msg i m Heq.
    assert (Hc : hoare (fun _ => True) (check E snapshot g) not_health)
      by (apply inv_check; auto).
    destruct (Hc h I) as [_ Hres]. specialize (Hres _ Heq). discriminate.
  - intros Hh.
    assert (Hc : hoare no_health_call (check E snapshot g) not_health).
    { apply inv_check; auto. intros; now apply no_health_record_call. }
    apply (Hc h Hh).
Qed.

(** The health oracle reports an unready deployment when it is called on its
    own, while [check] passes the same snapshot (in the example of the spec,
    deployment web has 3 replicas of which 1 is ready). *)
Lemma check_never_reports_health_witness :
  let web := doc [("metadata", doc [("name", VStr "web")]);
                  ("spec", doc [("replicas", VInt 3)]);
                  ("status", doc [("replicas", VInt 3); ("ready_replicas", VInt 1);
                                  ("updated_replicas", VInt 3)])] in
  let st := [("custom_resource_spec", doc []); ("stateful_set", doc []);
             ("deployment", doc [("web", web)]); ("pod", doc [])] in
  let s := snapshot_of VNone "" "" st [] in
  let h := heap_of [] s in
  fst (check_health s h)
  = Ok (ErrorResult SYSTEM_HEALTH ("deployment: web" ++ String (ascii_of_nat 10) "")
                    None None)
  /\ fst (check plain_env s 0 h) = Ok PassResult
  /\ ~ In CallCheckHealth (calls (snd (check plain_env s 0 h))).
Proof.
  cbv zeta. split; [reflexivity|split; [reflexivity|]].
  apply check_never_reports_health. simpl. tauto.
Defined.

(** ** Runs of the first stage *)

Lemma dict_get_set_same {V : Type} (k : string) (v : V) (d : list (string * V)) :
  dict_mem String.eqb k d = false ->
  dict_get String.eqb k (dict_set String.eqb k v d) = Some v.
Proof.
  unfold dict_mem. induction d as [|[k' v'] d IH]; simpl.
  - now rewrite String.eqb_refl.
  - destruct (String.eqb k k') eqn:Hk; [discriminate|].
    simpl. rewrite Hk. exact IH.
Qed.

Lemma system_state_deltas_total (E : Env) (curr : list (string * value))
  (acc : system_delta_map) (h : heap) :
  exists d, fst (system_state_deltas E curr acc h) = Ok d.
Proof.
  revert acc h. induction curr as [|[resource doc] curr IH]; intros acc h; simpl.
  - now exists acc.
  - unfold bind at 1. simpl.
    destruct (dict_mem String.eqb resource (system_state (prev_snapshot h))) eqn:Hm.
    + unfold bind, ret, get_heap. simpl.
      unfold dict_mem in Hm.
      destruct (dict_get String.eqb resource (system_state (prev_snapshot h)));
        [apply IH|discriminate].
    + unfold bind, set_prev_system_state, get_heap. simpl.
      rewrite (dict_get_set_same _ _ _ Hm). apply IH.
Qed.

Lemma get_deltas_total (E : Env) (snapshot : Snapshot) (h : heap) :
  exists d, fst (get_deltas E snapshot h) = Ok d.
Proof.
  unfold get_deltas, bind, record_call, get_heap. simpl.
  match goal with
  | |- context [system_state_deltas E ?c ?a ?h'] =>
      destruct (system_state_deltas_total E c a h') as [d Hd];
      destruct (system_state_deltas E c a h') as [[d'|e] h1]
  end; simpl in Hd; [|discriminate].
  simpl. eauto.
Qed.

Lemma check_input_total (E : Env) (snapshot : Snapshot) (d : delta_map) (h : heap) :
  exists r, fst (check_input E snapshot d h) = Ok r.
Proof.
  unfold check_input, bind, record_call, ret. simpl.
  destruct (invalid_input_message E _ d) as [is_invalid p].
  repeat match goal with
         | |- context [if ?b then _ else _] => destruct b
         end; simpl; eauto.
Qed.

(** The first stage of [check] always reaches a verdict of the input oracle. *)
Lemma input_stage_total (E : Env) (snapshot : Snapshot) (g : Z) (h : heap) :
  exists r, fst (input_stage E snapshot g h) = Ok r.
Proof.
  unfold input_stage. unfold bind at 1. simpl.
  unfold bind.
  match goal with
  | |- context [get_deltas E snapshot ?h'] =>
      destruct (get_deltas_total E snapshot h') as [d Hd];
      destruct (get_deltas E snapshot h') as [[d'|e] h1]
  end; simpl in Hd; [|discriminate].
  apply check_input_total.
Qed.

(** [check] on a non-empty system state is its first stage followed by the
    state and log oracles. *)
Lemma check_unfold (E : Env) (snapshot : Snapshot) (g : Z) (h : heap) :
  system_state snapshot <> [] ->
  check E snapshot g h
  = (input_result <- input_stage E snapshot g ;;
     if negb (is_pass input_result) then ret input_result
     else
       state_result <- check_resources E snapshot ;;
       log_result <- check_operator_log E snapshot ;;
       ret (after_input_pass state_result log_result PassResult)) h.
Proof.
  intros Hne. unfold check, input_stage.
  destruct (system_state snapshot) as [|kv st]; [contradiction|].
  unfold bind. simpl.
  destruct (get_deltas E snapshot _) as [[d|e] h1]; [|reflexivity].
  destruct (check_input E snapshot (fst d) h1) as [[r|e] h2]; [|reflexivity].
  destruct (negb (is_pass r)); [reflexivity|].
  destruct (check_resources E snapshot h2) as [[sr|e] h3]; [|reflexivity].
  destruct (check_operator_log E snapshot h3) as [[lr|e] h4]; [|reflexivity].
  unfold after_input_pass. simpl.
  destruct (is_invalid_input lr); [reflexivity|].
  destruct (is_error sr); [reflexivity|].
  destruct (is_error lr); reflexivity.
Qed.

(** ** An empty system state *)

(** C10: when [snapshot.system_state] is the empty mapping, [check] returns
    [InvalidInput(None)] at once: the heap is what it was, so no delta was
    computed, no delta log was written, no oracle was called and the previous
    snapshot and the dependency index were not touched. *)
Theorem check_empty_system_state (E : Env) (snapshot : Snapshot) (g : Z) (h : heap) :
  system_state snapshot = [] ->
  check E snapshot g h = (Ok (InvalidInputResult None), h).
Proof.
  intros Hempty. unfold check. rewrite Hempty. reflexivity.
Qed.

(** An environment where every write fails and a log full of errors: the
    empty system state still gives [InvalidInput(None)] and an untouched
    heap. *)
Lemma check_empty_system_state_witness :
  let E := env None (BaseSchema []) (fun _ => false) in
  let s := snapshot_of (replicas_input 5) "" "connection refused" []
                       ["error invalid"] in
  let h := heap_of [] (snapshot_of (replicas_input 3) "" "" (replicas_state 3 3) []) in
  check E s 7 h = (Ok (InvalidInputResult None), h) /\ calls h = [] /\ delta_logs h = [].
Proof.
  cbv zeta. split; [|split; reflexivity].
  apply check_empty_system_state. reflexivity.
Defined.

(** ** The verdict of check *)

(** C2, as the code has it: on an empty system state [check] returns
    [InvalidInput(None)] before any oracle runs.  Otherwise the verdict of the
    input oracle is returned whenever it is not [Pass] ([ConnectionRefused],
    [InvalidInput] or [Unchanged], before the state and log oracles run);
    when it is [Pass], [InvalidInput] of the log oracle is returned, then an
    error of the health oracle (whose verdict inside [check] is [Pass]), then
    an error of the state oracle, then an error of the log oracle, otherwise
    [Pass].  So [InvalidInput] of the input oracle or of the log oracle is
    returned in preference to every error. *)
Theorem check_precedence (E : Env) (snapshot : Snapshot) (g : Z) (h : heap) :
  (system_state snapshot = [] ->
   check E snapshot g h = (Ok (InvalidInputResult None), h))
  /\ (system_state snapshot <> [] ->
      forall input_result h2,
        input_stage E snapshot g h = (Ok input_result, h2) ->
        (is_pass input_result = false ->
         check E snapshot g h = (Ok input_result, h2))
        /\ (is_pass input_result = true ->
            forall state_result h3 log_result h4,
              check_resources E snapshot h2 = (Ok state_result, h3) ->
              check_operator_log E snapshot h3 = (Ok log_result, h4) ->
              check E snapshot g h
              = (Ok (after_input_pass state_result log_result PassResult), h4)
              /\ (is_invalid_input log_result = true ->
                  check E snapshot g h = (Ok log_result, h4)))).
Proof.
  split.
  - intros Hempty. unfold check. rewrite Hempty. reflexivity.
  - intros Hne input_result h2 Hstage. rewrite check_unfold by exact Hne.
    assert (Hrun : forall k : RunResult -> M RunResult,
               (r <- input_stage E snapshot g ;; k r) h = k input_result h2)
      by (intros k; unfold bind; now rewrite Hstage).
    rewrite Hrun. split.
    + intros ->. reflexivity.
    + intros -> state_result h3 log_result h4 Hstate Hlog. simpl.
      unfold bind. rewrite Hstate, Hlog. split; [reflexivity|].
      intros Hinv. unfold after_input_pass, ret. now rewrite Hinv.
Qed.

(** The input changes the replicas from 3 to 5, the stateful set goes from 3
    to 2, and the operator logs an error about an invalid field: the state
    oracle reports an error, the log oracle reports an invalid input, and
    [check] returns the invalid input.  The same run on a snapshot without a
    system state, and with "connection refused" in [stderr], returns
    [InvalidInput(None)]. *)
Lemma check_precedence_witness :
  let s := snapshot_of (replicas_input 5) "configured" "" (replicas_state 5 2)
                       ["error invalid replicas"] in
  let empty := snapshot_of (replicas_input 5) "" "connection refused" []
                           ["error invalid replicas"] in
  let h := heap_of [] (snapshot_of (replicas_input 3) "" "" (replicas_state 3 3) []) in
  let h2 := snd (input_stage plain_env s 0 h) in
  let h3 := snd (check_resources plain_env s h2) in
  let h4 := snd (check_operator_log plain_env s h3) in
  is_error (match fst (check_resources plain_env s h2) with
            | Ok r => r
            | Raise _ => PassResult
            end) = true
  /\ check plain_env s 0 h
     = (Ok (InvalidInputResult (Some [AStr "spec"; AStr "foo"])), h4)
  /\ check plain_env empty 0 h = (Ok (InvalidInputResult None), h).
Proof.
  cbv zeta. split; [reflexivity|split].
  - eapply (proj2 (check_precedence plain_env _ 0 _)).
    + discriminate.
    + reflexivity.
    + reflexivity.
    + reflexivity.
    + reflexivity.
    + reflexivity.
  - apply (proj1 (check_precedence plain_env _ 0 _)). reflexivity.
Defined.

(** C2 as the spec states it fails: with "connection refused" in [stderr] and
    an operator log that names an invalid input, the log oracle's verdict is
    [InvalidInput], which the stated precedence puts first, and [check]
    returns [ConnectionRefused]. *)
Lemma check_precedence_counterexample :
  let s := snapshot_of (replicas_input 5) "" "dial tcp: connection refused"
                       (replicas_state 5 5) ["error invalid replicas"] in
  let h := heap_of [] (snapshot_of (replicas_input 3) "" "" (replicas_state 3 3) []) in
  let h2 := snd (input_stage plain_env s 0 h) in
  let invalid := InvalidInputResult (Some [AStr "spec"; AStr "foo"]) in
  fst (input_stage plain_env s 0 h) = Ok ConnectionRefusedResult
  /\ fst (check_resources plain_env s h2) = Ok PassResult
  /\ fst (check_operator_log plain_env s h2) = Ok invalid
  /\ VerdictCombiner_spec ConnectionRefusedResult PassResult invalid PassResult
     = invalid
  /\ fst (check plain_env s 0 h) = Ok ConnectionRefusedResult
  /\ fst (check plain_env s 0 h)
     <> Ok (VerdictCombiner_spec ConnectionRefusedResult PassResult invalid
                                 PassResult).
Proof.
  cbv zeta. repeat split; try reflexivity. discriminate.
Qed.

(** ** The delta log *)

Lemma delta_log_path_kept_by_input_stage (E : Env) (snapshot : Snapshot) (g : Z)
  (h : heap) :
  delta_log_path (snd (input_stage E snapshot g h)) = Some g
  /\ delta_logs (snd (input_stage E snapshot g h)) = delta_logs h.
Proof.
  pose (P := fun h' : heap =>
               delta_log_path h' = Some g /\ delta_logs h' = delta_logs h).
  assert (Hstage : hoare P (d <- get_deltas E snapshot ;;
                            check_input E snapshot (fst d)) any).
  { eapply hoare_bind with (R := any).
    - apply inv_get_deltas; intros; assumption.
    - intros d _. eapply hoare_weaken.
      + apply inv_check_input. intros; assumption.
      + intros; exact I. }
  assert (Hrun : input_stage E snapshot g h
                 = (d <- get_deltas E snapshot ;; check_input E snapshot (fst d))
                     (snd (set_delta_log_path g h)))
    by reflexivity.
  rewrite Hrun. apply Hstage. split; reflexivity.
Qed.

(** The state oracle raises when it cannot write the delta log. *)
Lemma check_resources_unwritable (E : Env) (snapshot : Snapshot) (g : Z) (h : heap) :
  delta_log_path h = Some g -> writable E g = false ->
  fst (check_resources E snapshot h) = Raise OSError
  /\ delta_logs (snd (check_resources E snapshot h)) = delta_logs h.
Proof.
  intros Hpath Hw.
  pose (P := fun h' : heap =>
               delta_log_path h' = Some g /\ delta_logs h' = delta_logs h).
  assert (Hget : hoare P (get_deltas E snapshot) any)
    by (apply inv_get_deltas; intros; assumption).
  enough (Hrun : exists h', check_resources E snapshot h = (Raise OSError, h')
                             /\ delta_logs h' = delta_logs h)
    by (destruct Hrun as (h' & -> & Hkept); split; [reflexivity|exact Hkept]).
  unfold check_resources, bind. simpl.
  match goal with
  | |- context [get_deltas E snapshot ?h0] => set (h1 := h0)
  end.
  assert (HP : P h1) by (split; [exact Hpath|reflexivity]).
  destruct (Hget h1 HP) as [[Hp3 Hl3] _].
  destruct (get_deltas_total E snapshot h1) as [d Hd].
  destruct (get_deltas E snapshot h1) as [[[input_delta system_delta]|e] h3];
    simpl in Hd, Hp3, Hl3; [|discriminate].
  unfold log_deltas, bind, get_heap, record_call, raise. simpl.
  rewrite Hp3. simpl. rewrite Hw. simpl.
  eexists. split; [reflexivity|exact Hl3].
Qed.

(** C8, as the code has it: [check] does not catch a failure to open or write
    the delta log.  When the input oracle's verdict is not [Pass], [check]
    returns it and no delta log is opened; when it is [Pass] and the log of
    the generation cannot be written, [OSError] leaves [check] and no verdict
    is returned. *)
Theorem check_delta_log_failure (E : Env) (snapshot : Snapshot) (g : Z) (h : heap)
  (input_result : RunResult) (h2 : heap) :
  system_state snapshot <> [] ->
  input_stage E snapshot g h = (Ok input_result, h2) ->
  (is_pass input_result = false ->
   check E snapshot g h = (Ok input_result, h2)
   /\ delta_logs h2 = delta_logs h)
  /\ (is_pass input_result = true -> writable E g = false ->
      fst (check E snapshot g h) = Raise OSError
      /\ delta_logs (snd (check E snapshot g h)) = delta_logs h).
Proof.
  intros Hne Hstage.
  destruct (delta_log_path_kept_by_input_stage E snapshot g h) as [Hpath Hlogs].
  rewrite Hstage in Hpath, Hlogs. simpl in Hpath, Hlogs.
  rewrite check_unfold by exact Hne.
  assert (Hrun : forall k : RunResult -> M RunResult,
             (r <- input_stage E snapshot g ;; k r) h = k input_result h2)
    by (intros k; unfold bind; now rewrite Hstage).
  rewrite Hrun. split.
  - intros ->. split; [reflexivity|exact Hlogs].
  - intros -> Hw. simpl.
    destruct (check_resources_unwritable E snapshot h2 Hpath Hw) as [Hres Hkept].
    unfold bind.
    destruct (check_resources E snapshot h2) as [[r|e] h3]; simpl in Hres, Hkept;
      [discriminate|].
    injection Hres as ->. simpl. split; [reflexivity|now rewrite Hkept].
Qed.

(** With the example collaborators and a log that cannot be written, a
    consistent change of the replicas makes [check] raise [OSError]. *)
Lemma check_delta_log_failure_witness :
  let E := env None (BaseSchema []) (fun _ => false) in
  let s := snapshot_of (replicas_input 5) "configured" "" (replicas_state 5 5) [] in
  let h := heap_of [] (snapshot_of (replicas_input 3) "" "" (replicas_state 3 3) []) in
  fst (check E s 0 h) = Raise OSError.
Proof.
  cbv zeta.
  eapply (check_delta_log_failure
            (env None (BaseSchema []) (fun _ => false)) _ 0 _).
  - discriminate.
  - reflexivity.
  - reflexivity.
  - reflexivity.
Defined.

(** C8 as the spec states it fails: the same snapshots give [Pass] when the
    delta log can be written, and no verdict at all when it cannot. *)
Lemma check_delta_log_failure_counterexample :
  let s := snapshot_of (replicas_input 5) "configured" "" (replicas_state 5 5) [] in
  let h := heap_of [] (snapshot_of (replicas_input 3) "" "" (replicas_state 3 3) []) in
  fst (check (env None (BaseSchema []) (fun _ => true)) s 0 h) = Ok PassResult
  /\ fst (check (env None (BaseSchema []) (fun _ => false)) s 0 h) = Raise OSError
  /\ ~ (exists verdict,
          fst (check (env None (BaseSchema []) (fun _ => false)) s 0 h) = Ok verdict).
Proof.
  cbv zeta. split; [reflexivity|split; [reflexivity|]].
  intros [verdict Hv]. discriminate Hv.
Qed.

(** ** Longest-suffix matching *)

(** Python's [l[-k-1]] is the [k]-th element from the end. *)
Lemma py_index_from_end {A : Type} (l : list A) (k : nat) :
  py_index l (- Z.of_nat k - 1) = nth_error (rev l) k.
Proof.
  unfold py_index. rewrite nth_error_rev.
  replace (0 <=? - Z.of_nat k - 1) with false by (symmetry; apply Z.leb_gt; lia).
  simpl.
  destruct (Nat.ltb_spec k (List.length l)) as [Hlt | Hge].
  - replace (- Z.of_nat (List.length l) <=? - Z.of_nat k - 1) with true
      by (symmetry; apply Z.leb_le; lia).
    replace (- Z.of_nat k - 1 <? 0) with true by (symmetry; apply Z.ltb_lt; lia).
    simpl. f_equal. lia.
  - replace (- Z.of_nat (List.length l) <=? - Z.of_nat k - 1) with false
      by (symmetry; apply Z.leb_gt; lia).
    reflexivity.
Qed.

Lemma skipn_cons_next {A : Type} (k : nat) (l : list A) (a : A) (xs : list A) :
  skipn k l = a :: xs -> skipn (S k) l = xs /\ nth_error l k = Some a.
Proof.
  revert l. induction k as [|k IH]; intros [|b l]; simpl; try discriminate.
  - intros H. injection H as -> ->. now split.
  - intros H. destruct (IH l H) as [Hs Hn]. split; [exact Hs|exact Hn].
Qed.

(** The [while] loop counts the trailing atoms that the two paths share. *)
Lemma while_canonical_match_from (E : Env) (p q : path) (xs : path) :
  forall (ys : path) (k fuel : nat),
    skipn k (rev p) = xs -> skipn k (rev q) = ys ->
    xs <> [] -> ys <> [] -> (List.length xs <= fuel)%nat ->
    while_canonical_match E fuel p q (Z.of_nat k)
    = Ok (Z.of_nat (k + common_prefix_length E xs ys)).
Proof.
  induction xs as [|a xs IH]; intros ys k fuel Hxs Hys Hx Hy Hfuel;
    [contradiction|].
  destruct ys as [|b ys]; [contradiction|].
  destruct fuel as [|fuel]; [simpl in Hfuel; lia|].
  destruct (skipn_cons_next _ _ Hxs) as [Hxs' Ha].
  destruct (skipn_cons_next _ _ Hys) as [Hys' Hb].
  simpl. rewrite !py_index_from_end, Ha, Hb.
  destruct (String.eqb (canonicalize E a) (canonicalize E b)); [|do 2 f_equal; lia].
  assert (Hlp : List.length p = (k + S (List.length xs))%nat).
  { rewrite <- (length_rev p), <- (firstn_skipn k (rev p)), Hxs, length_app.
    simpl. f_equal.
    apply firstn_length_le.
    assert (List.length (skipn k (rev p)) = S (List.length xs)) by now rewrite Hxs.
    rewrite length_skipn in H. lia. }
  assert (Hlq : List.length q = (k + S (List.length ys))%nat).
  { rewrite <- (length_rev q), <- (firstn_skipn k (rev q)), Hys, length_app.
    simpl. f_equal.
    apply firstn_length_le.
    assert (List.length (skipn k (rev q)) = S (List.length ys)) by now rewrite Hys.
    rewrite length_skipn in H. lia. }
  unfold len. rewrite Hlp, Hlq.
  destruct xs as [|a' xs].
  - replace (Z.of_nat k + 1 =? _) with true by (symmetry; apply Z.eqb_eq; simpl; lia).
    simpl. do 2 f_equal. lia.
  - destruct ys as [|b' ys].
    + replace (Z.of_nat k + 1 =? _) with true
        by (symmetry; apply Z.eqb_eq; simpl; lia).
      simpl. do 2 f_equal. lia.
    + replace (Z.of_nat k + 1 =? _) with false
        by (symmetry; apply Z.eqb_neq; simpl List.length; lia).
      replace (Z.of_nat k + 1) with (Z.of_nat (S k)) by lia.
      rewrite (IH (b' :: ys) (S k) fuel Hxs' Hys');
        [|discriminate|discriminate|simpl in *; lia].
      do 2 f_equal. lia.
Qed.

Lemma while_canonical_match_overlap (E : Env) (p q : path) :
  p <> [] -> q <> [] ->
  while_canonical_match E (List.length p) p q 0 = Ok (suffix_overlap E p q).
Proof.
  intros Hp Hq.
  change 0 with (Z.of_nat 0).
  rewrite (@while_canonical_match_from E p q (rev p) (rev q) 0 (List.length p));
    try reflexivity.
  - intros H. apply (f_equal (@rev atom)) in H. rewrite rev_involutive in H.
    now apply Hp.
  - intros H. apply (f_equal (@rev atom)) in H. rewrite rev_involutive in H.
    now apply Hq.
  - rewrite length_rev. lia.
Qed.

Lemma suffix_overlap_nonneg (E : Env) (p q : path) : 0 <= suffix_overlap E p q.
Proof. unfold suffix_overlap. lia. Qed.

Lemma max_overlap_nonneg (E : Env) (p : path) (l : list Diff) :
  0 <= max_overlap E p l.
Proof. induction l as [|d l IH]; simpl; lia. Qed.

Lemma max_overlap_snoc (E : Env) (p : path) (l : list Diff) (d : Diff) :
  max_overlap E p (l ++ [d])
  = Z.max (max_overlap E p l) (suffix_overlap E p (diff_path d)).
Proof.
  induction l as [|x l IH]; simpl.
  - pose proof (suffix_overlap_nonneg E p (diff_path d)). lia.
  - fold (max_overlap E p (l ++ [d])). fold (max_overlap E p l). rewrite IH. lia.
Qed.

Lemma max_overlap_bounds (E : Env) (p : path) (l : list Diff) (x : Diff) :
  In x l -> suffix_overlap E p (diff_path x) <= max_overlap E p l.
Proof.
  induction l as [|d l IH]; simpl; [contradiction|].
  fold (max_overlap E p l).
  intros [-> | Hin]; [lia|]. specialize (IH Hin). lia.
Qed.

Section MatchedLoop.
Variables (E : Env) (p : path).
Hypothesis p_not_empty : p <> [].

(** The test that selects a delta for a given maximum. *)
Let keeps (m : Z) (d : Diff) : bool :=
  (suffix_overlap E p (diff_path d) =? m) && negb (m =? 0).

Lemma filter_keeps_below (m : Z) (l : list Diff) :
  (forall x, In x l -> suffix_overlap E p (diff_path x) < m) ->
  filter (keeps m) l = [].
Proof.
  induction l as [|x l IH]; intros Hl; simpl; [reflexivity|].
  unfold keeps at 1.
  replace (suffix_overlap E p (diff_path x) =? m) with false.
  - simpl. apply IH. intros y Hy. apply Hl. now right.
  - symmetry. apply Z.eqb_neq. specialize (Hl x (or_introl eq_refl)). lia.
Qed.

(** The loop over the system deltas keeps, of the deltas seen so far, those
    whose overlap is the largest seen and not zero. *)
Lemma matched_loop_keeps_longest (deltas : list Diff) :
  forall seen : list Diff,
    (forall d, In d deltas -> diff_path d <> []) ->
    matched_loop E p deltas (filter (keeps (max_overlap E p seen)) seen)
                 (max_overlap E p seen)
    = Ok (filter (keeps (max_overlap E p (seen ++ deltas))) (seen ++ deltas)).
Proof.
  induction deltas as [|d deltas IH]; intros seen Hpaths; simpl.
  - now rewrite app_nil_r.
  - rewrite while_canonical_match_overlap;
      [|exact p_not_empty|apply Hpaths; now left].
    assert (Hrest : forall x, In x deltas -> diff_path x <> [])
      by (intros x Hx; apply Hpaths; now right).
    specialize (IH (seen ++ [d]) Hrest).
    rewrite <- app_assoc in IH. simpl in IH.
    rewrite max_overlap_snoc, filter_app in IH. simpl in IH.
    pose proof (max_overlap_nonneg E p seen) as Hm.
    pose proof (suffix_overlap_nonneg E p (diff_path d)) as Ho.
    set (m := max_overlap E p seen) in *.
    set (o := suffix_overlap E p (diff_path d)) in *.
    destruct ((o =? m) && negb (o =? 0)) eqn:Hsame.
    + apply andb_prop in Hsame as [Heq Hnz]. apply Z.eqb_eq in Heq.
      rewrite <- IH. rewrite Heq, Z.max_id.
      unfold keeps at 3. fold o. rewrite Heq, Z.eqb_refl. simpl.
      rewrite Heq in Hnz. now rewrite Hnz.
    + destruct (o >? m) eqn:Hgt.
      * apply Z.gtb_lt in Hgt.
        rewrite <- IH. replace (Z.max m o) with o by lia.
        rewrite filter_keeps_below.
        -- unfold keeps. fold o. rewrite Z.eqb_refl.
           replace (o =? 0) with false by (symmetry; apply Z.eqb_neq; lia).
           reflexivity.
        -- intros x Hx. pose proof (max_overlap_bounds E p seen x Hx). fold m in H.
           lia.
      * rewrite <- IH.
        assert (Hle : o <= m).
        { destruct (Z.gtb_spec o m); [discriminate|assumption]. }
        replace (Z.max m o) with m by lia.
        replace (keeps m d) with false; [now rewrite app_nil_r|].
        unfold keeps. fold o. symmetry.
        destruct (o =? m) eqn:Heq; [|reflexivity].
        apply Z.eqb_eq in Heq. rewrite Heq in Hsame. exact Hsame.
Qed.
End MatchedLoop.

Lemma generic_field_last (regexes : list (atom -> bool)) (p : path) (a : atom)
  (rest : path) :
  rev p = a :: rest ->
  generic_field regexes p = Ok (existsb (fun regex => regex a) regexes).
Proof.
  intros Hrev. induction regexes as [|regex regexes IH]; simpl; [reflexivity|].
  change (-1) with (- Z.of_nat 0 - 1). rewrite py_index_from_end, Hrev. simpl.
  destruct (regex a); [reflexivity|exact IH].
Qed.

(** C3, as the code has it: for a non-empty input path [P],
    [_list_matched_fields(P, D)] returns nothing when the last atom of [P]
    matches a regex of [GENERIC_FIELDS], whatever [D] holds; otherwise, when
    every system delta of [D] has a non-empty path, it returns exactly the
    deltas of [D], in the order of [D], whose canonicalized suffix overlap
    with [P] is the largest one in [D] and is not zero. *)
Theorem list_matched_fields_longest_suffix (E : Env) (p : path)
  (delta_dict : system_delta_map) :
  p <> [] ->
  (last_atom_generic E p = true -> _list_matched_fields E p delta_dict = Ok [])
  /\ (last_atom_generic E p = false ->
      (forall d, In d (all_deltas delta_dict) -> diff_path d <> []) ->
      _list_matched_fields E p delta_dict
      = Ok (longest_suffix_matches E p delta_dict)).
Proof.
  intros Hp. unfold _list_matched_fields, last_atom_generic.
  destruct (rev p) as [|a rest] eqn:Hrev.
  { apply (f_equal (@rev atom)) in Hrev. rewrite rev_involutive in Hrev.
    contradiction. }
  rewrite (generic_field_last _ _ Hrev). split.
  - intros ->. reflexivity.
  - intros -> Hpaths.
    apply (@matched_loop_keeps_longest E p Hp (all_deltas delta_dict) [] Hpaths).
Qed.

(** Three system deltas, two of which share the two trailing atoms of the
    input path (up to case) and one only the last: the two are returned, in
    their order; an input path that ends in [name] matches nothing. *)
Lemma list_matched_fields_longest_suffix_witness :
  let d1 := mkDiff [AStr "db"; AStr "spec"; AStr "replicas"]
                   (Present (VInt 3)) (Present (VInt 5)) in
  let d2 := mkDiff [AStr "web"; AStr "status"; AStr "replicas"]
                   (Present (VInt 3)) (Present (VInt 4)) in
  let d3 := mkDiff [AStr "cache"; AStr "Spec"; AStr "Replicas"]
                   (Present (VInt 3)) (Present (VInt 5)) in
  let D := [("stateful_set", [("values_changed", [("a", d1)])]);
            ("deployment", [("values_changed", [("b", d2); ("c", d3)])])] in
  _list_matched_fields plain_env [AStr "spec"; AStr "replicas"] D = Ok [d1; d3]
  /\ _list_matched_fields plain_env [AStr "spec"; AStr "name"] D = Ok [].
Proof.
  cbv zeta. split.
  - refine (proj2 (list_matched_fields_longest_suffix plain_env _ _) _ _).
    + discriminate.
    + reflexivity.
    + intros d Hd. simpl in Hd.
      destruct Hd as [<- | [<- | [<- | []]]]; discriminate.
  - refine (proj1 (list_matched_fields_longest_suffix plain_env _ _) _).
    + discriminate.
    + reflexivity.
Defined.

(** C3 as the spec states it fails: the function indexes [path[-1]] and
    [delta.path[-1]] without a test of the lengths.  On the empty input path,
    and on the input path [spec.replicas] against a system delta whose path is
    empty, the deltas of maximal non-zero overlap are none, and the function
    does not return them: it raises [IndexError]. *)
Lemma list_matched_fields_longest_suffix_counterexample :
  let d1 := mkDiff [AStr "db"; AStr "spec"; AStr "replicas"]
                   (Present (VInt 3)) (Present (VInt 5)) in
  let d0 := mkDiff [] (Present VNone) (Present (VInt 5)) in
  let D1 := [("stateful_set", [("values_changed", [("a", d1)])])] in
  let D0 := [("stateful_set", [("type_changes", [("a", d0)])])] in
  let p := [AStr "spec"; AStr "replicas"] in
  longest_suffix_matches plain_env [] D1 = []
  /\ _list_matched_fields plain_env [] D1 = Raise IndexError
  /\ _list_matched_fields plain_env [] D1
     <> Ok (longest_suffix_matches plain_env [] D1)
  /\ last_atom_generic plain_env p = false
  /\ longest_suffix_matches plain_env p D0 = []
  /\ _list_matched_fields plain_env p D0 = Raise IndexError
  /\ _list_matched_fields plain_env p D0
     <> Ok (longest_suffix_matches plain_env p D0).
Proof.
  cbv zeta. repeat split; try reflexivity; discriminate.
Qed.

(** ** The nearest parent *)

(** The local [length] of [find_nearest_parent] stays 0, so the loop assigns
    [ret] at every non-empty key that is a prefix of the path: what is
    returned is the last such key of the dictionary, whatever its length. *)
Lemma find_nearest_parent_last (p : path) (keys : list path) :
  find_nearest_parent p keys = List.find (assigns_ret p) (rev keys).
Proof.
  unfold find_nearest_parent.
  enough (H : forall ret,
             fold_left
               (fun (st : Z * option path) (q : path) =>
                  let (length, ret) := st in
                  if len q >? len p then (length, ret)
                  else if different q p then (length, ret)
                  else if len q >? length then (length, Some q)
                  else (length, ret))
               keys (0, ret)
             = (0, match List.find (assigns_ret p) (rev keys) with
                   | Some q => Some q
                   | None => ret
                   end)).
  { rewrite H. simpl. now destruct (List.find _ _). }
  induction keys as [|q keys IH]; intros ret; simpl; [reflexivity|].
  assert (Hfind : forall l,
             List.find (assigns_ret p) (l ++ [q])
             = match List.find (assigns_ret p) l with
               | Some x => Some x
               | None => if assigns_ret p q then Some q else None
               end).
  { induction l as [|x l IHl]; simpl; [reflexivity|].
    destruct (assigns_ret p x); [reflexivity|exact IHl]. }
  rewrite Hfind. unfold assigns_ret at 2.
  destruct (len q >? len p); simpl.
  - rewrite IH. now destruct (List.find _ _).
  - destruct (different q p); simpl.
    + rewrite IH. now destruct (List.find _ _).
    + destruct (len q >? 0); rewrite IH; now destruct (List.find _ _).
Qed.

(** C4 fails on the code: with the keys [["spec","tls"]] and [["spec"]] in
    this order (the index that the constructor builds when [tls] comes before
    [enabled] in the schema of [spec]), the nearest parent found for
    [spec.tls.cert] is [["spec"]], not the longest prefix key
    [["spec","tls"]].  With [spec.enabled] true and [spec.tls.enabled] false
    the conditions of the longest key fail, those of [["spec"]] hold, the
    delta is not skipped and [check] reports an error. *)
Theorem find_nearest_parent_not_longest :
  let E := env None tls_first_schema (fun _ => true) in
  let keys := [[AStr "spec"; AStr "tls"]; [AStr "spec"]] in
  let p := [AStr "spec"; AStr "tls"; AStr "cert"] in
  let delta := mkDiff p (Present (VStr "a")) (Present (VStr "b")) in
  let s := snapshot_of (tls_input true false "b") "configured" "" (tls_state "b") [] in
  let prev := snapshot_of (tls_input true false "a") "" "" (tls_state "a") [] in
  exists m,
    Checker_init E = Ok m
    /\ dict_keys m = keys
    /\ dict_mem path_eqb p m = false
    /\ nearest_parent_spec p keys = Some [AStr "spec"; AStr "tls"]
    /\ find_nearest_parent p keys = Some [AStr "spec"]
    /\ (exists conditions,
          dict_get path_eqb [AStr "spec"; AStr "tls"] m = Some conditions
          /\ fst (check_conditions (input s) conditions) = Ok true)
    /\ fst (should_skip_input_delta E delta s (heap_of m prev)) = Ok false
    /\ fst (check E s 0 (heap_of m prev))
       = Ok (ErrorResult SYSTEM_STATE "Found no matching fields for input"
                         (Some delta) None).
Proof.
  cbv zeta. eexists. split; [reflexivity|].
  repeat split; try reflexivity.
  eexists. split; reflexivity.
Qed.

(** ** The dependency index after construction *)

Lemma atom_eqb_eq (a b : atom) : atom_eqb a b = true <-> a = b.
Proof.
  destruct a as [x|x], b as [y|y]; simpl; split; try discriminate.
  - intros H. apply String.eqb_eq in H. now subst.
  - intros [= ->]. apply String.eqb_refl.
  - intros H. apply Z.eqb_eq in H. now subst.
  - intros [= ->]. apply Z.eqb_refl.
Qed.

Lemma path_eqb_eq (p q : path) : path_eqb p q = true <-> p = q.
Proof.
  revert q. induction p as [|a p IH]; intros [|b q]; simpl; split;
    try discriminate; try reflexivity.
  - intros H. apply andb_prop in H as [Ha Hp].
    apply atom_eqb_eq in Ha. apply IH in Hp. now subst.
  - intros [= -> ->]. apply andb_true_intro. split.
    + now apply atom_eqb_eq.
    + now apply IH.
Qed.

Lemma is_subfield_refl (p : path) : is_subfield p p = true.
Proof.
  induction p as [|a p IH]; simpl; [reflexivity|].
  rewrite IH, andb_true_r. now apply atom_eqb_eq.
Qed.

(** Induction on schemas through the properties of objects. *)
Lemma Schema_nested_ind (P : Schema -> Prop) :
  (forall schema_path properties,
      Forall (fun kv : string * Schema => P (snd kv)) properties ->
      P (ObjectSchema schema_path properties)) ->
  (forall schema_path item, P item -> P (ArraySchema schema_path item)) ->
  (forall schema_path, P (BaseSchema schema_path)) ->
  forall schema, P schema.
Proof.
  intros Hobject Harray Hbase.
  fix IH 1. intros [schema_path properties | schema_path item | schema_path].
  - apply Hobject. induction properties as [|kv properties IHp].
    + constructor.
    + constructor; [apply IH|exact IHp].
  - apply Harray, IH.
  - apply Hbase.
Qed.

Lemma encode_all_app (l1 l2 : list (path * path)) (m : conditions_map) :
  encode_all (l1 ++ l2) m = encode_all l2 (encode_all l1 m).
Proof. unfold encode_all. apply fold_left_app. Qed.

(** [helper] is the sequence of [encode_dependency] calls of the walk. *)
Lemma helper_dependencies (schema : Schema) :
  forall m, helper schema m = encode_all (dependencies schema) m.
Proof.
  enough (H : (forall m, helper schema m = encode_all (dependencies schema) m)
              /\ match schema with
                 | ArraySchema _ item =>
                     forall m, helper item m = encode_all (dependencies item) m
                 | _ => True
                 end) by apply H.
  induction schema as [schema_path properties IH | schema_path item IH | schema_path]
    using Schema_nested_ind; [|split; [reflexivity|apply IH]|split; [reflexivity|exact I]].
  split; [|exact I]. simpl.
  induction IH as [|[key value] properties Hvalue _ IHp]; intros m; [reflexivity|].
  simpl in Hvalue. destruct Hvalue as [Hvalue Hitem].
  rewrite !encode_all_app, IHp. f_equal.
  destruct (String.eqb key "enabled");
    destruct value as [vp vprops | vp vitem | vp];
    try reflexivity; try apply Hvalue; apply Hitem.
Qed.

Lemma dict_get_app_some {V : Type} (k : path) (m l : list (path * V)) (v : V) :
  dict_get path_eqb k m = Some v -> dict_get path_eqb k (m ++ l) = Some v.
Proof.
  induction m as [|[k' v'] m IH]; simpl; [discriminate|].
  destruct (path_eqb k k'); [auto|exact IH].
Qed.

Lemma dict_get_app_none {V : Type} (k : path) (m l : list (path * V)) :
  dict_get path_eqb k m = None ->
  dict_get path_eqb k (m ++ l) = dict_get path_eqb k l.
Proof.
  induction m as [|[k' v'] m IH]; simpl; [reflexivity|].
  destruct (path_eqb k k'); [discriminate|exact IH].
Qed.

(** What [encode_dependency] stores under a key that the index holds when
    the loop over its items starts. *)
Lemma dict_get_encoded (depender : path) (c : condition) (k : path)
  (m : conditions_map) :
  dict_get path_eqb k
    (map (fun kv : path * list condition =>
            let (key, value) := kv in
            if is_subfield key depender then (key, value ++ [c]) else (key, value)) m)
  = match dict_get path_eqb k m with
    | Some value => Some (if is_subfield k depender then value ++ [c] else value)
    | None => None
    end.
Proof.
  induction m as [|[key value] m IH]; simpl; [reflexivity|].
  destruct (is_subfield key depender) eqn:Hsub; simpl;
    destruct (path_eqb k key) eqn:Hk; try exact IH;
    apply path_eqb_eq in Hk; subst; now rewrite Hsub.
Qed.

(** [encode_dependency] only appends: what a key carries, it keeps. *)
Lemma encode_dependency_keeps (depender dependee : path) (m : conditions_map)
  (k : path) (c : condition) :
  carries m k c -> carries (encode_dependency depender dependee m) k c.
Proof.
  intros (conditions & Hget & Hin). unfold carries, encode_dependency.
  cbv zeta. rewrite dict_get_encoded.
  destruct (dict_mem path_eqb depender m).
  - rewrite Hget. eexists. split; [reflexivity|].
    destruct (is_subfield k depender); [apply in_or_app; now left|exact Hin].
  - rewrite (dict_get_app_some _ _ _ Hget). eexists. split; [reflexivity|].
    destruct (is_subfield k depender); [apply in_or_app; now left|exact Hin].
Qed.

Lemma encode_all_keeps (l : list (path * path)) (m : conditions_map)
  (k : path) (c : condition) :
  carries m k c -> carries (encode_all l m) k c.
Proof.
  revert m. induction l as [|[d e] l IH]; intros m Hc; [exact Hc|].
  simpl. apply IH. now apply encode_dependency_keeps.
Qed.

(** [encode_dependency] gives the condition to the depender and to every key
    of the index that is a subfield of the depender. *)
Lemma encode_dependency_adds (depender dependee : path) (m : conditions_map)
  (k : path) :
  dict_mem path_eqb k m = true \/ k = depender ->
  is_subfield k depender = true ->
  carries (encode_dependency depender dependee m) k (enabled_condition dependee).
Proof.
  intros Hk Hsub. unfold carries, encode_dependency.
  cbv zeta. rewrite dict_get_encoded, Hsub.
  assert (Hlast : forall conditions : list condition,
             In (enabled_condition dependee)
                (conditions ++ [enabled_condition dependee]))
    by (intros; apply in_or_app; right; now left).
  destruct (dict_mem path_eqb depender m) eqn:Hd;
    destruct (dict_get path_eqb k m) as [conditions|] eqn:Hkm.
  - eauto.
  - exfalso. unfold dict_mem in *.
    destruct Hk as [Hk | ->]; [now rewrite Hkm in Hk|now rewrite Hkm in Hd].
  - rewrite (dict_get_app_some _ _ _ Hkm). eauto.
  - rewrite (dict_get_app_none _ _ _ Hkm).
    destruct Hk as [Hk | ->]; [unfold dict_mem in Hk; now rewrite Hkm in Hk|].
    simpl. replace (path_eqb depender depender) with true
      by (symmetry; now apply path_eqb_eq).
    eauto.
Qed.

Lemma dependencies_enabled (schema : Schema) (d e : path) :
  In (d, e) (dependencies schema) -> e = d ++ [AStr "enabled"].
Proof.
  enough (H : (In (d, e) (dependencies schema) -> e = d ++ [AStr "enabled"])
              /\ match schema with
                 | ArraySchema _ item =>
                     In (d, e) (dependencies item) -> e = d ++ [AStr "enabled"]
                 | _ => True
                 end) by apply H.
  induction schema as [schema_path properties IH | schema_path item IH | schema_path]
    using Schema_nested_ind;
    [|split; [contradiction|apply IH]|split; [contradiction|exact I]].
  split; [|exact I]. simpl.
  induction IH as [|[key value] properties Hvalue _ IHp]; [contradiction|].
  simpl in Hvalue. destruct Hvalue as [Hvalue Hitem].
  rewrite !in_app_iff. intros [Hin | [Hin | Hin]].
  - destruct (String.eqb key "enabled") eqn:Hkey; [|contradiction].
    apply String.eqb_eq in Hkey. subst key.
    destruct Hin as [[= <- <-] | []]. reflexivity.
  - destruct value as [vp vprops | vp vitem | vp]; [auto|auto|contradiction].
  - now apply IHp.
Qed.

Lemma Checker_init_helper (E : Env) (m : conditions_map) :
  Checker_init E = Ok m -> m = helper (get_root_schema E) (seed_index E).
Proof.
  unfold Checker_init, seed_index.
  destruct (enable_analysis E); [|now intros [= <-]].
  destruct (analysis_result E); [now intros [= <-]|discriminate].
Qed.

(** X22: what the constructor does hand out.  Each object with a child named
    [enabled] that the walk reaches becomes a key of the index and carries the
    condition [{field: path + ['enabled'], op: '==', value: 'true'}], and so
    does every key which is in the index when the walk reaches that child (a
    key of the analysis result, or the path of an object met earlier) and of
    which the object's path is a prefix.  Conditions are only appended: what a
    key carries when the walk reaches the child, and so what the analysis
    result gave it, it carries in the final index. *)
Theorem enabled_condition_propagation (E : Env) (m : conditions_map)
  (earlier later : list (path * path)) (depender dependee : path) :
  Checker_init E = Ok m ->
  dependencies (get_root_schema E) = earlier ++ (depender, dependee) :: later ->
  dependee = depender ++ [AStr "enabled"]
  /\ carries m depender (enabled_condition dependee)
  /\ (forall k,
        dict_mem path_eqb k (encode_all earlier (seed_index E)) = true ->
        is_subfield k depender = true ->
        carries m k (enabled_condition dependee))
  /\ (forall k c,
        carries (seed_index E) k c
        \/ carries (encode_all earlier (seed_index E)) k c ->
        carries m k c).
Proof.
  intros Hinit Hwalk. apply Checker_init_helper in Hinit. subst m.
  rewrite helper_dependencies, Hwalk, encode_all_app. simpl.
  split; [|split; [|split]].
  - apply (dependencies_enabled (get_root_schema E)).
    rewrite Hwalk. apply in_or_app. right. now left.
  - apply encode_all_keeps, encode_dependency_adds.
    + now right.
    + apply is_subfield_refl.
  - intros k Hk Hsub. apply encode_all_keeps, encode_dependency_adds.
    + now left.
    + exact Hsub.
  - intros k c Hc. apply encode_all_keeps, encode_dependency_keeps.
    destruct Hc as [Hc | Hc]; [now apply encode_all_keeps|exact Hc].
Qed.

(** With [tls] before [enabled] in [spec], the key [spec.tls] is in the
    index when the walk reaches [spec.enabled], and it carries the condition
    on [spec.enabled]. *)
Lemma enabled_condition_propagation_witness :
  exists m,
    Checker_init (env None tls_first_schema (fun _ => true)) = Ok m
    /\ carries m [AStr "spec"; AStr "tls"]
               (enabled_condition [AStr "spec"; AStr "enabled"]).
Proof.
  eexists. split; [reflexivity|].
  destruct (enabled_condition_propagation
              (env None tls_first_schema (fun _ => true))
              [([AStr "spec"; AStr "tls"],
                [AStr "spec"; AStr "tls"; AStr "enabled"])]
              [] [AStr "spec"] [AStr "spec"; AStr "enabled"]
              eq_refl eq_refl) as (_ & _ & Hkeys & _).
  apply Hkeys; reflexivity.
Defined.

(** C5 fails on the code: [encode_dependency] hands the condition to the keys
    that are in the index at the time of the call, so a key created later in
    the walk misses it.  With [enabled] before [tls] in the schema of [spec],
    [spec] carries the condition on [spec.enabled], [spec.tls] is a key of
    which [spec] is a proper prefix, and [spec.tls] does not carry it; with
    [tls] before [enabled] the same key does.  With [spec.enabled] false and
    [spec.tls.enabled] true, a change of [spec.tls.cert] that shows nowhere
    in the system state is skipped under the second schema and reported as an
    error under the first. *)
Theorem enabled_condition_not_propagated :
  let enabled_first := env None enabled_first_schema (fun _ => true) in
  let tls_first := env None tls_first_schema (fun _ => true) in
  let spec_enabled := enabled_condition [AStr "spec"; AStr "enabled"] in
  let p := [AStr "spec"; AStr "tls"; AStr "cert"] in
  let delta := mkDiff p (Present (VStr "a")) (Present (VStr "b")) in
  let s := snapshot_of (tls_input false true "b") "configured" "" (tls_state "b") [] in
  let prev := snapshot_of (tls_input false true "a") "" "" (tls_state "a") [] in
  exists m m',
    Checker_init enabled_first = Ok m
    /\ Checker_init tls_first = Ok m'
    /\ carries m [AStr "spec"] spec_enabled
    /\ dict_mem path_eqb [AStr "spec"; AStr "tls"] m = true
    /\ is_subfield [AStr "spec"; AStr "tls"] [AStr "spec"] = true
    /\ ~ carries m [AStr "spec"; AStr "tls"] spec_enabled
    /\ ~ conditions_propagated m
    /\ carries m' [AStr "spec"; AStr "tls"] spec_enabled
    /\ fst (check enabled_first s 0 (heap_of m prev))
       = Ok (ErrorResult SYSTEM_STATE "Found no matching fields for input"
                         (Some delta) None)
    /\ fst (check tls_first s 0 (heap_of m' prev)) = Ok PassResult.
Proof.
  cbv zeta. eexists. eexists.
  split; [reflexivity|]. split; [reflexivity|].
  assert (Hnot : ~ carries
                   [([AStr "spec"],
                     [enabled_condition [AStr "spec"; AStr "enabled"]]);
                    ([AStr "spec"; AStr "tls"],
                     [enabled_condition [AStr "spec"; AStr "tls"; AStr "enabled"]])]
                   [AStr "spec"; AStr "tls"]
                   (enabled_condition [AStr "spec"; AStr "enabled"])).
  { intros (conditions & Hget & Hin). simpl in Hget. injection Hget as <-.
    destruct Hin as [Heq | []]. discriminate Heq. }
  split; [|split; [reflexivity|split; [reflexivity|split; [exact Hnot|split]]]].
  - eexists. split; [reflexivity|]. now left.
  - intros Hprop. apply Hnot.
    apply (Hprop [AStr "spec"] [AStr "spec"; AStr "tls"]
                 [enabled_condition [AStr "spec"; AStr "enabled"]]).
    + reflexivity.
    + reflexivity.
    + reflexivity.
    + discriminate.
    + now left.
  - split; [|split; reflexivity].
    eexists. split; [reflexivity|]. simpl. right. now left.
Qed.

(** ** The state oracle *)

Lemma check_resources_unfold (E : Env) (snapshot : Snapshot) (h : heap) :
  check_resources E snapshot h
  = (x <- state_oracle_deltas E snapshot ;;
     r <- check_delta_loop E snapshot (snd x) (fst x) ;;
     match r with
     | Some result => ret result
     | None => ret PassResult
     end) h.
Proof.
  unfold check_resources, state_oracle_deltas, bind. simpl.
  destruct (get_deltas E snapshot _) as [[[input_delta system_delta]|e] h1];
    [|reflexivity].
  destruct (log_deltas E (input_delta, system_delta) h1) as [[[]|e] h2];
    [|reflexivity].
  simpl. destruct (dict_pop _ _ _); reflexivity.
Qed.

Lemma found_anywhere_exists (E : Env) (d : Diff) (sd : system_delta_map) :
  found_anywhere E d sd = existsb (consistent E d) (all_deltas sd).
Proof.
  unfold found_anywhere, consistent.
  enough (H : forall l acc,
             fold_left (fun (found : bool) (s : Diff) =>
                          if compare E (diff_prev d) (diff_curr d)
                                     (diff_prev s) (diff_curr s)
                          then true else found) l acc
             = acc || existsb (fun s => compare E (diff_prev d) (diff_curr d)
                                                (diff_prev s) (diff_curr s)) l)
    by apply H.
  induction l as [|s l IH]; intros acc; simpl.
  - now rewrite orb_false_r.
  - rewrite IH. destruct (compare E _ _ _ _), acc; reflexivity.
Qed.

Lemma found_anywhere_false (E : Env) (d : Diff) (sd : system_delta_map) :
  found_anywhere E d sd = false
  <-> forall s, In s (all_deltas sd) -> consistent E d s = false.
Proof.
  rewrite found_anywhere_exists. split.
  - intros H s Hs. destruct (consistent E d s) eqn:Hc; [|reflexivity].
    rewrite <- H. symmetry. apply existsb_exists. eauto.
  - intros H. destruct (existsb _ _) eqn:Hex; [|reflexivity].
    apply existsb_exists in Hex as (s & Hs & Hc). now rewrite (H s Hs) in Hc.
Qed.

Lemma first_inconsistent_some (E : Env) (d : Diff) (matches : list Diff) (m : Diff) :
  first_inconsistent E d matches = Some m ->
  In m matches /\ consistent E d m = false.
Proof.
  unfold consistent. induction matches as [|x matches IH]; simpl; [discriminate|].
  destruct (compare E _ _ (diff_prev x) _) eqn:Hc; simpl.
  - intros H. destruct (IH H). auto.
  - intros [= <-]. auto.
Qed.

Lemma first_inconsistent_none (E : Env) (d : Diff) (matches : list Diff) :
  first_inconsistent E d matches = None
  <-> forall m, In m matches -> consistent E d m = true.
Proof.
  unfold consistent. induction matches as [|x matches IH]; simpl.
  - split; [intros _ m []|reflexivity].
  - destruct (compare E _ _ (diff_prev x) _) eqn:Hc; simpl.
    + rewrite IH. split.
      * intros H m [<- | Hm]; auto.
      * intros H m Hm. apply H. now right.
    + split; [discriminate|]. intros H. rewrite (H x) in Hc by now left.
      discriminate.
Qed.

Lemma len_zero {A : Type} (l : list A) : (len l =? 0) = true <-> l = [].
Proof.
  unfold len. destruct l; simpl; split; try reflexivity; discriminate.
Qed.

(** One turn of the loop at a delta that passes both filters. *)
Lemma check_delta_examined (E : Env) (snapshot : Snapshot) (sd : system_delta_map)
  (d : Diff) (h h' : heap) (matches : list Diff) :
  input_compare E (diff_prev d) (diff_curr d) = false ->
  should_skip_input_delta E d snapshot h = (Ok false, h') ->
  _list_matched_fields E (diff_path d) sd = Ok matches ->
  check_delta E snapshot sd d h
  = (Ok match first_inconsistent E d matches with
        | Some m => Some (inconsistent_error d m)
        | None =>
            if (len matches =? 0) && negb (found_anywhere E d sd)
            then Some (no_match_error d)
            else None
        end, h').
Proof.
  intros Hcmp Hskip Hm. unfold check_delta. rewrite Hcmp.
  unfold bind. rewrite Hskip, Hm. simpl.
  destruct (first_inconsistent E d matches); [reflexivity|].
  destruct (len matches =? 0); [|reflexivity].
  destruct (found_anywhere E d sd); reflexivity.
Qed.

(** What a turn of the loop returns when it returns. *)
Lemma check_delta_returns (E : Env) (snapshot : Snapshot) (sd : system_delta_map)
  (d : Diff) (h h' : heap) (r : RunResult) :
  check_delta E snapshot sd d h = (Ok (Some r), h') ->
  (exists m, r = inconsistent_error d m)
  \/ (r = no_match_error d /\ found_anywhere E d sd = false).
Proof.
  unfold check_delta.
  destruct (input_compare E _ _); [discriminate|].
  unfold bind.
  destruct (should_skip_input_delta E d snapshot h) as [[[|]|e] h1];
    try discriminate.
  unfold lift.
  destruct (_list_matched_fields E (diff_path d) sd) as [matches|e];
    [|discriminate].
  destruct (first_inconsistent E d matches) as [m|].
  - intros [= <- _]. left. now exists m.
  - destruct (len matches =? 0); [|discriminate].
    destruct (found_anywhere E d sd) eqn:Hf; [discriminate|].
    intros [= <- _]. right. now split.
Qed.

Lemma check_delta_loop_returns (E : Env) (snapshot : Snapshot)
  (sd : system_delta_map) (ds : list Diff) (h h' : heap) (d : Diff) :
  check_delta_loop E snapshot sd ds h = (Ok (Some (no_match_error d)), h') ->
  found_anywhere E d sd = false.
Proof.
  revert h. induction ds as [|x ds IH]; intros h; simpl; [discriminate|].
  unfold bind.
  destruct (check_delta E snapshot sd x h) as [[[r|]|e] h1] eqn:Hx;
    [|apply IH|discriminate].
  intros [= -> ->].
  destruct (@check_delta_returns E snapshot sd x h _ _ Hx) as [[m Hm] | [Hd Hf]].
  - discriminate Hm.
  - injection Hd as <-. exact Hf.
Qed.

(** The deltas that let the loop go on do not change what follows. *)
Lemma check_delta_loop_app (E : Env) (snapshot : Snapshot) (sd : system_delta_map)
  (before rest : list Diff) (h hd : heap) :
  check_delta_loop E snapshot sd before h = (Ok None, hd) ->
  check_delta_loop E snapshot sd (before ++ rest) h
  = check_delta_loop E snapshot sd rest hd.
Proof.
  revert h. induction before as [|x before IH]; intros h; simpl.
  - now intros [= ->].
  - unfold bind.
    destruct (check_delta E snapshot sd x h) as [[[r|]|e] h1];
      [discriminate|apply IH|discriminate].
Qed.

Lemma all_consistent_loop (E : Env) (snapshot : Snapshot) (sd : system_delta_map)
  (ds : list Diff) (h h' : heap) :
  all_consistent E snapshot sd ds h h' ->
  check_delta_loop E snapshot sd ds h = (Ok None, h').
Proof.
  induction 1 as [h | d ds h h' Hcmp _ IH | d ds h h1 h' Hcmp Hskip _ IH
                  | d ds h h1 h' matches Hcmp Hskip Hm Hall Hany _ IH]; simpl.
  - reflexivity.
  - unfold bind, check_delta. rewrite Hcmp. exact IH.
  - unfold bind, check_delta. rewrite Hcmp. unfold bind. rewrite Hskip. exact IH.
  - unfold bind. rewrite (@check_delta_examined E snapshot sd d h h1 matches Hcmp Hskip Hm).
    apply first_inconsistent_none in Hall. rewrite Hall.
    destruct (len matches =? 0) eqn:Hlen; [|exact IH].
    apply len_zero in Hlen. destruct (Hany Hlen) as (s & Hs & Hc).
    rewrite found_anywhere_exists.
    replace (existsb (consistent E d) (all_deltas sd)) with true; [exact IH|].
    symmetry. apply existsb_exists. eauto.
Qed.

(** C1: the state oracle goes through the input deltas in order.  At the
    first delta [d] that is neither input-equivalent nor skipped and whose
    longest-suffix matches include an inconsistent one, it returns
    [Error(SYSTEM_STATE, 'Matched delta inconsistent with input delta', d, m)]
    for the first such match [m]; when [d] has no match, it returns
    [Error(SYSTEM_STATE, 'Found no matching fields for input', d)] exactly when
    no delta of the system delta without [custom_resource_spec] is consistent
    with [d]; and when every input delta is equivalent, skipped or matched
    consistently, it returns [Pass]. *)
Theorem state_oracle_verdicts (E : Env) (snapshot : Snapshot) (h h0 : heap)
  (ds : list Diff) (sd : system_delta_map) :
  state_oracle_deltas E snapshot h = (Ok (ds, sd), h0) ->
  (forall before d after hd h' matches,
      ds = before ++ d :: after ->
      check_delta_loop E snapshot sd before h0 = (Ok None, hd) ->
      input_compare E (diff_prev d) (diff_curr d) = false ->
      should_skip_input_delta E d snapshot hd = (Ok false, h') ->
      _list_matched_fields E (diff_path d) sd = Ok matches ->
      (forall m, In m matches -> consistent E d m = false ->
                 exists m', first_inconsistent E d matches = Some m'
                            /\ In m' matches /\ consistent E d m' = false
                            /\ check_resources E snapshot h
                               = (Ok (inconsistent_error d m'), h'))
      /\ (matches = [] ->
          (check_resources E snapshot h = (Ok (no_match_error d), h')
           <-> forall s, In s (all_deltas sd) -> consistent E d s = false)))
  /\ (forall h', all_consistent E snapshot sd ds h0 h' ->
                 check_resources E snapshot h = (Ok PassResult, h')).
Proof.
  intros Hstage.
  assert (Hrun : check_resources E snapshot h
                 = (r <- check_delta_loop E snapshot sd ds ;;
                    match r with
                    | Some result => ret result
                    | None => ret PassResult
                    end) h0).
  { rewrite check_resources_unfold. unfold bind at 1. now rewrite Hstage. }
  rewrite Hrun. clear Hrun Hstage. split.
  - intros before d after hd h' matches -> Hbefore Hcmp Hskip Hm.
    unfold bind. rewrite (@check_delta_loop_app E snapshot sd before (d :: after) h0 hd Hbefore). simpl.
    unfold bind.
    rewrite (@check_delta_examined E snapshot sd d hd h' matches Hcmp Hskip Hm).
    split.
    + intros m Hin Hbad.
      destruct (first_inconsistent E d matches) as [m'|] eqn:Hfirst.
      * destruct (@first_inconsistent_some E d matches m' Hfirst) as [Hin' Hbad'].
        exists m'. auto.
      * rewrite first_inconsistent_none in Hfirst.
        rewrite (Hfirst m Hin) in Hbad. discriminate.
    + intros ->. simpl. rewrite <- found_anywhere_false.
      destruct (found_anywhere E d sd) eqn:Hfound; simpl.
      * split; [|discriminate].
        destruct (check_delta_loop E snapshot sd after h') as [[[r|]|e] h2] eqn:Hafter;
          try discriminate.
        intros [= -> ->].
        rewrite <- Hfound.
        apply (@check_delta_loop_returns E snapshot sd after h' _ d Hafter).
      * split; reflexivity.
  - intros h' Hall. unfold bind. now rewrite (@all_consistent_loop E snapshot sd ds h0 h' Hall).
Qed.

(** The scenarios of the spec: the replicas go from 3 to 5 in the input; a
    stateful set that goes from 3 to 2 is reported as inconsistent, a system
    state without any change gives no match, and a stateful set that goes
    from 3 to 5 passes. *)
Lemma state_oracle_verdicts_witness :
  let prev := snapshot_of (replicas_input 3) "" "" (replicas_state 3 3) [] in
  let h := mkHeap [] (Some 0) prev [] [] in
  let at_ (n : Z) :=
    fst (check_resources plain_env
           (snapshot_of (replicas_input 5) "configured" "" (replicas_state 5 n) []) h) in
  let d := mkDiff [AStr "spec"; AStr "replicas"] (Present (VInt 3)) (Present (VInt 5)) in
  let m := mkDiff [AStr "db"; AStr "spec"; AStr "replicas"]
                  (Present (VInt 3)) (Present (VInt 2)) in
  at_ 2 = Ok (inconsistent_error d m)
  /\ at_ 3 = Ok (no_match_error d)
  /\ at_ 5 = Ok PassResult.
Proof.
  cbv zeta. split; [|split].
  - edestruct (@state_oracle_verdicts plain_env
                 (snapshot_of (replicas_input 5) "configured" "" (replicas_state 5 2) [])
                 (mkHeap [] (Some 0)
                    (snapshot_of (replicas_input 3) "" "" (replicas_state 3 3) [])
                    [] []))
      as [Hfirst _]; [reflexivity|].
    edestruct (Hfirst [] (mkDiff [AStr "spec"; AStr "replicas"]
                                 (Present (VInt 3)) (Present (VInt 5))) [])
      as [Hbad _];
      [reflexivity|reflexivity|reflexivity|reflexivity|reflexivity|].
    edestruct Hbad as (m' & Hm' & _ & _ & Hres);
      [left; reflexivity|reflexivity|].
    injection Hm' as <-. now rewrite Hres.
  - edestruct (@state_oracle_verdicts plain_env
                 (snapshot_of (replicas_input 5) "configured" "" (replicas_state 5 3) [])
                 (mkHeap [] (Some 0)
                    (snapshot_of (replicas_input 3) "" "" (replicas_state 3 3) [])
                    [] []))
      as [Hfirst _]; [reflexivity|].
    edestruct (Hfirst [] (mkDiff [AStr "spec"; AStr "replicas"]
                                 (Present (VInt 3)) (Present (VInt 5))) [])
      as [_ Hnone];
      [reflexivity|reflexivity|reflexivity|reflexivity|reflexivity|].
    destruct (Hnone eq_refl) as [_ Hres].
    rewrite Hres; [reflexivity|]. intros s [].
  - edestruct (@state_oracle_verdicts plain_env
                 (snapshot_of (replicas_input 5) "configured" "" (replicas_state 5 5) [])
                 (mkHeap [] (Some 0)
                    (snapshot_of (replicas_input 3) "" "" (replicas_state 3 3) [])
                    [] []))
      as [_ Hpass]; [reflexivity|].
    erewrite Hpass; [reflexivity|].
    eapply consistent_matched;
      [reflexivity|reflexivity|reflexivity| | |apply consistent_done].
    + intros x [<- | []]. reflexivity.
    + discriminate.
Defined.

(** ** What check writes to its arguments *)

(** C7 fails on the code: [get_deltas] adds an empty entry to
    [prev_snapshot.system_state] for every resource kind that the previous
    snapshot lacks, and [check_condition] rewrites the condition records of
    the index (['INDEX'] becomes [0] in the field, the value ['true'] becomes
    [True]).  Here the previous snapshot is empty and [spec.tls.enabled] is
    false: the first [check] skips the change of [spec.tls.cert] and passes,
    leaves both objects changed, and the same [check] run again evaluates the
    rewritten condition as satisfied and reports an error. *)
Theorem check_mutates_snapshot_and_index :
  let s := snapshot_of (tls_input true false "b") "configured" "" (tls_state "b") [] in
  let prev := snapshot_of (tls_input true false "a") "" "" [] [] in
  let h := heap_of gate_index prev in
  let h1 := snd (check gate_env s 0 h) in
  let d := mkDiff cert_path (Present (VStr "a")) (Present (VStr "b")) in
  Checker_init gate_env = Ok (field_conditions_map h)
  /\ fst (check gate_env s 0 h) = Ok PassResult
  /\ system_state (prev_snapshot h) = []
  /\ system_state (prev_snapshot h1)
     = [("custom_resource_spec", VDict []); ("stateful_set", VDict [])]
  /\ dict_get path_eqb cert_path (field_conditions_map h)
     = Some [mkCond [AStr "spec"; AStr "ports"; AStr "INDEX"; AStr "tls"] "==" VNone;
             mkCond [AStr "spec"; AStr "tls"; AStr "enabled"] "==" (VStr "true")]
  /\ dict_get path_eqb cert_path (field_conditions_map h1)
     = Some [mkCond [AStr "spec"; AStr "ports"; AInt 0; AStr "tls"] "==" VNone;
             mkCond [AStr "spec"; AStr "tls"; AStr "enabled"] "==" (VBool true)]
  /\ fst (should_skip_input_delta gate_env d s h) = Ok true
  /\ fst (should_skip_input_delta gate_env d s h1) = Ok false
  /\ fst (check gate_env s 0 h1) = Ok (no_match_error d).
Proof.
  cbv zeta. repeat split; reflexivity.
Qed.

(** * Further properties of the checker *)

(** ** The input oracle and stderr *)

(** X1: with anything on [stderr] the input oracle answers [ConnectionRefused] or
    [InvalidInput]; it answers [Unchanged] exactly when [stderr] is empty, the
    collaborator does not call the input invalid and [stdout] has
    "unchanged": the search of "unchanged" in [stderr] never decides. *)
Theorem check_input_stderr (E : Env) (snapshot : Snapshot) (input_delta : delta_map)
  (h : heap) :
  let out := stdout (cli_result snapshot) in
  let err := stderr (cli_result snapshot) in
  let verdict := fst (check_input E snapshot input_delta h) in
  (err <> "" ->
   verdict = Ok ConnectionRefusedResult
   \/ verdict = Ok (InvalidInputResult
                      (snd (invalid_input_message E err input_delta))))
  /\ (verdict = Ok UnchangedInputResult
      <-> err = ""
          /\ fst (invalid_input_message E err input_delta) = false
          /\ find out "unchanged" <> -1).
Proof.
  cbv zeta. unfold check_input, bind, record_call, ret. simpl.
  destruct (invalid_input_message E (stderr (cli_result snapshot)) input_delta)
    as [is_invalid responsible] eqn:Hanswer.
  rewrite len_str_positive. simpl. split.
  - intros Hne. apply String.eqb_neq in Hne. rewrite Hne. simpl.
    destruct (negb _); auto.
  - destruct (String.eqb (stderr (cli_result snapshot)) "") eqn:Herr.
    + apply String.eqb_eq in Herr. rewrite Herr. simpl.
      destruct is_invalid; simpl.
      * split; [discriminate|]. intros (_ & Hf & _). discriminate.
      * destruct (find (stdout (cli_result snapshot)) "unchanged" =? -1) eqn:Hout;
          simpl.
        -- apply Z.eqb_eq in Hout. split; [discriminate|].
           intros (_ & _ & Hne). contradiction.
        -- apply Z.eqb_neq in Hout. split; auto.
    + apply String.eqb_neq in Herr. simpl.
      split; [|intros (He & _); contradiction].
      destruct (negb _); discriminate.
Qed.

(** A warning on [stderr] that says "unchanged" is an invalid input; the same
    word on [stdout] with a silent [stderr] is an unchanged input. *)
Lemma check_input_stderr_witness :
  let h := heap_of [] (snapshot_of VNone "" "" [] []) in
  let at_ (out err : string) :=
    fst (check_input plain_env (snapshot_of VNone out err [] []) [] h) in
  (at_ "" "Warning: unchanged" = Ok ConnectionRefusedResult
   \/ at_ "" "Warning: unchanged" = Ok (InvalidInputResult None))
  /\ at_ "cr unchanged" "" = Ok UnchangedInputResult.
Proof.
  cbv zeta. split.
  - apply (check_input_stderr plain_env
             (snapshot_of VNone "" "Warning: unchanged" [] []) []).
    discriminate.
  - apply (check_input_stderr plain_env (snapshot_of VNone "cr unchanged" "" [] []) []).
    split; [reflexivity|split; [reflexivity|]]. vm_compute. discriminate.
Defined.

(** ** Evaluating a condition more than once *)

Lemma index_to_zero_idempotent (p : path) :
  index_to_zero (index_to_zero p) = index_to_zero p.
Proof.
  unfold index_to_zero. rewrite map_map. apply map_ext. intros a.
  destruct (atom_eqb a (AStr "INDEX")) eqn:Ha; [reflexivity|now rewrite Ha].
Qed.

(** X2: a condition [{op: '==', value: 'true'}] on a field that resolves to
    [False] fails the first time it is evaluated and holds from the second
    time on: the first evaluation stores [True] as the value of the record,
    the second compares [False] with [True], coerces again, stores [False] and
    finds [False == False]. *)
Theorem check_condition_flips (inp : value) (c : condition) :
  op c = "==" ->
  cvalue c = VStr "true" ->
  reduce_getitem (index_to_zero (field c)) inp = Ok (VBool false) ->
  let first := check_condition inp c in
  let second := check_condition inp (snd first) in
  let third := check_condition inp (snd second) in
  fst first = Ok false /\ cvalue (snd first) = VBool true
  /\ fst second = Ok true /\ cvalue (snd second) = VBool false
  /\ fst third = Ok true /\ snd third = snd second.
Proof.
  intros Hop Hvalue Hfield. cbv zeta.
  assert (Hfirst : check_condition inp c
                   = (Ok false, mkCond (index_to_zero (field c)) "==" (VBool true))).
  { unfold check_condition, with_field, with_value. simpl.
    rewrite Hfield, Hop, Hvalue. reflexivity. }
  rewrite Hfirst. simpl.
  assert (Hsecond : check_condition inp
                      (mkCond (index_to_zero (field c)) "==" (VBool true))
                    = (Ok true, mkCond (index_to_zero (field c)) "==" (VBool false))).
  { unfold check_condition, with_field, with_value. simpl.
    rewrite index_to_zero_idempotent, Hfield. reflexivity. }
  rewrite Hsecond. simpl.
  unfold check_condition, with_field, with_value. simpl.
  rewrite !index_to_zero_idempotent, Hfield. simpl.
  repeat split; reflexivity.
Qed.

(** The gate of the spec's scenario: [spec.tls.enabled] is false. *)
Lemma check_condition_flips_witness :
  let c := mkCond [AStr "spec"; AStr "tls"; AStr "enabled"] "==" (VStr "true") in
  let inp := tls_input true false "a" in
  fst (check_condition inp c) = Ok false
  /\ fst (check_condition inp (snd (check_condition inp c))) = Ok true.
Proof.
  cbv zeta.
  destruct (@check_condition_flips (tls_input true false "a")
              (mkCond [AStr "spec"; AStr "tls"; AStr "enabled"] "==" (VStr "true"))
              eq_refl eq_refl eq_refl) as (H1 & _ & H2 & _).
  split; [exact H1|exact H2].
Defined.

(** ** An index out of range while resolving a field *)

(** X3: [check_condition] catches [KeyError] and [TypeError] only: a field that
    runs into a list index out of range (an ['INDEX'] atom, read as [0], on
    an empty list) raises [IndexError], and the exception leaves
    [should_skip_input_delta] when the condition is the first one stored
    under the path of the delta. *)
Theorem index_error_escapes (E : Env) (snapshot : Snapshot) (d : Diff) (h : heap)
  (c : condition) (rest : list condition) :
  default_rule E d = false ->
  dict_get path_eqb (diff_path d) (field_conditions_map h) = Some (c :: rest) ->
  reduce_getitem (index_to_zero (field c)) (input snapshot) = Raise IndexError ->
  fst (check_condition (input snapshot) c) = Raise IndexError
  /\ fst (should_skip_input_delta E d snapshot h) = Raise IndexError.
Proof.
  intros Hdefault Hkey Hfield.
  assert (Hc : fst (check_condition (input snapshot) c) = Raise IndexError).
  { unfold check_condition, with_field. simpl. now rewrite Hfield. }
  split; [exact Hc|].
  unfold should_skip_input_delta. rewrite Hdefault.
  unfold bind, get_heap, dict_mem. simpl. rewrite Hkey.
  unfold eval_conditions, bind, get_heap. simpl. rewrite Hkey. simpl.
  destruct (check_condition (input snapshot) c) as [[[|]|e] c'];
    simpl in Hc; try discriminate.
  injection Hc as ->. reflexivity.
Qed.

(** A condition on the first port, and an input without ports. *)
Lemma index_error_escapes_witness :
  let c := mkCond [AStr "spec"; AStr "ports"; AStr "INDEX"; AStr "tls"] "==" VNone in
  let inp := doc [("spec", doc [("ports", VList []); ("cert", VStr "b")])] in
  let d := mkDiff cert_path (Present (VStr "a")) (Present (VStr "b")) in
  let s := snapshot_of inp "" "" [] [] in
  fst (should_skip_input_delta plain_env d s (heap_of [(cert_path, [c])] s))
  = Raise IndexError.
Proof.
  cbv zeta.
  eapply index_error_escapes; reflexivity.
Defined.

(** ** The wildcard of control-flow fields *)

Lemma gate_matches_same (p : path) (a b : atom) :
  gate_matches (p ++ [a]) (p ++ [b]) = gate_matches [a] [b].
Proof.
  induction p as [|x p IH]; [reflexivity|].
  simpl app. cbn [gate_matches].
  replace (atom_eqb x x) with true by (symmetry; now apply atom_eqb_eq).
  destruct (atom_eqb x (AStr "INDEX")) eqn:Hx; simpl; [|exact IH].
  apply atom_eqb_eq in Hx. subst x. simpl. exact IH.
Qed.

(** X4: ['INDEX'] in a control-flow field stands for one decimal digit: with
    analysis enabled, an empty dependency index and no schema default, a delta
    at [p + [n]] is skipped by the field [p + ['INDEX']] exactly when
    [0 <= n <= 9]; the tenth element of a list and those after it are not
    skipped. *)
Theorem index_gate_single_digit (E : Env) (a : AnalysisResult) (snapshot : Snapshot)
  (h : heap) (p : path) (n : Z) (prev curr : field_value) :
  enable_analysis E = true ->
  analysis_result E = Some a ->
  control_flow_fields a = [p ++ [AStr "INDEX"]] ->
  field_conditions_map h = [] ->
  schema_default E (p ++ [AInt n]) = None ->
  should_skip_input_delta E (mkDiff (p ++ [AInt n]) prev curr) snapshot h
  = (Ok ((0 <=? n) && (n <=? 9)), h).
Proof.
  intros Hon Ha Hfields Hindex Hdefault.
  unfold should_skip_input_delta, default_rule. simpl. rewrite Hdefault.
  unfold bind, get_heap. simpl. rewrite Hindex. simpl.
  rewrite Hon, Ha, Hfields. simpl.
  rewrite gate_matches_same. unfold len. rewrite !length_app. simpl.
  rewrite Z.eqb_refl. simpl.
  destruct ((0 <=? n) && (n <=? 9)); reflexivity.
Qed.

(** The control-flow field [spec.ports.INDEX] skips port 9 and not port 10. *)
Lemma index_gate_single_digit_witness :
  let a := mkAnalysis [] [[AStr "spec"; AStr "ports"; AStr "INDEX"]] in
  let E := env (Some a) (BaseSchema []) (fun _ => true) in
  let s := snapshot_of VNone "" "" [] [] in
  let at_ (n : Z) :=
    fst (should_skip_input_delta E
           (mkDiff [AStr "spec"; AStr "ports"; AInt n] (Present (VInt 1)) (Present (VInt 2)))
           s (heap_of [] s)) in
  at_ 9 = Ok true /\ at_ 10 = Ok false.
Proof.
  cbv zeta. split.
  - rewrite (@index_gate_single_digit
               (env (Some (mkAnalysis [] [[AStr "spec"; AStr "ports"; AStr "INDEX"]]))
                    (BaseSchema []) (fun _ => true))
               (mkAnalysis [] [[AStr "spec"; AStr "ports"; AStr "INDEX"]])
               (snapshot_of VNone "" "" [] []) (heap_of [] (snapshot_of VNone "" "" [] []))
               [AStr "spec"; AStr "ports"] 9); reflexivity.
  - rewrite (@index_gate_single_digit
               (env (Some (mkAnalysis [] [[AStr "spec"; AStr "ports"; AStr "INDEX"]]))
                    (BaseSchema []) (fun _ => true))
               (mkAnalysis [] [[AStr "spec"; AStr "ports"; AStr "INDEX"]])
               (snapshot_of VNone "" "" [] []) (heap_of [] (snapshot_of VNone "" "" [] []))
               [AStr "spec"; AStr "ports"] 10); reflexivity.
Defined.

(** ** get_deltas *)

Lemma dict_get_set_eq {V : Type} (k : string) (v : V) (d : list (string * V)) :
  dict_get String.eqb k (dict_set String.eqb k v d) = Some v.
Proof.
  induction d as [|[k' v'] d IH]; simpl.
  - now rewrite String.eqb_refl.
  - destruct (String.eqb k k') eqn:Hk; simpl; rewrite Hk; [reflexivity|exact IH].
Qed.

Lemma dict_get_set_other {V : Type} (k k' : string) (v : V) (d : list (string * V)) :
  String.eqb k k' = false ->
  dict_get String.eqb k (dict_set String.eqb k' v d) = dict_get String.eqb k d.
Proof.
  intros Hk. induction d as [|[x w] d IH]; simpl.
  - now rewrite Hk.
  - destruct (String.eqb k' x) eqn:Hx; simpl.
    + apply String.eqb_eq in Hx. subst x. now rewrite Hk.
    + destruct (String.eqb k x); [reflexivity|exact IH].
Qed.

Lemma dict_mem_set {V : Type} (k k' : string) (v : V) (d : list (string * V)) :
  dict_mem String.eqb k (dict_set String.eqb k' v d)
  = String.eqb k k' || dict_mem String.eqb k d.
Proof.
  unfold dict_mem. destruct (String.eqb k k') eqn:Hk.
  - apply String.eqb_eq in Hk. subst k'. now rewrite dict_get_set_eq.
  - now rewrite dict_get_set_other.
Qed.

Lemma resource_before_set (prev : list (string * value)) (resource x : string) :
  dict_mem String.eqb resource prev = false ->
  resource_before (dict_set String.eqb resource (VDict []) prev) x
  = resource_before prev x.
Proof.
  intros Hm. unfold resource_before.
  destruct (String.eqb x resource) eqn:Hx.
  - apply String.eqb_eq in Hx. subst x. rewrite dict_get_set_eq.
    unfold dict_mem in Hm. now destruct (dict_get String.eqb resource prev).
  - now rewrite dict_get_set_other.
Qed.

Lemma system_deltas_of_ext (E : Env) (p1 p2 curr : list (string * value)) :
  (forall x, resource_before p1 x = resource_before p2 x) ->
  forall acc, system_deltas_of E p1 curr acc = system_deltas_of E p2 curr acc.
Proof.
  intros Hext. induction curr as [|[resource doc] curr IH]; intros acc; simpl.
  - reflexivity.
  - now rewrite Hext, IH.
Qed.

(** The loop of [get_deltas], run: its result and the heap it leaves. *)
Lemma system_state_deltas_run (E : Env) (curr : list (string * value)) :
  forall (acc : system_delta_map) (h : heap),
  exists h',
    system_state_deltas E curr acc h
    = (Ok (system_deltas_of E (system_state (prev_snapshot h)) curr acc), h')
    /\ same_but_prev_state h h'
    /\ system_state (prev_snapshot h')
       = with_missing_resources (system_state (prev_snapshot h)) curr.
Proof.
  induction curr as [|[resource doc] curr IH]; intros acc h; simpl.
  - exists h. unfold same_but_prev_state. repeat split; reflexivity.
  - unfold bind at 1. simpl.
    destruct (dict_mem String.eqb resource (system_state (prev_snapshot h))) eqn:Hm.
    + unfold bind, ret, get_heap. simpl.
      assert (Hget : dict_get String.eqb resource (system_state (prev_snapshot h))
                     = Some (resource_before (system_state (prev_snapshot h)) resource)).
      { unfold resource_before, dict_mem in *.
        now destruct (dict_get String.eqb resource (system_state (prev_snapshot h))). }
      rewrite Hget. apply IH.
    + unfold bind, set_prev_system_state, get_heap. simpl.
      rewrite dict_get_set_eq.
      match goal with
      | |- context [system_state_deltas E curr ?a ?h1] =>
          destruct (IH a h1) as (h' & Hrun & Hsame & Hstate)
      end.
      exists h'. simpl in Hstate. rewrite Hrun. split; [|split].
      * do 2 f_equal.
        assert (Hdefault : resource_before (system_state (prev_snapshot h)) resource
                           = VDict []).
        { unfold resource_before, dict_mem in *.
          now destruct (dict_get String.eqb resource (system_state (prev_snapshot h))). }
        rewrite Hdefault. apply system_deltas_of_ext. intros x. simpl.
        now apply resource_before_set.
      * unfold same_but_prev_state in *. simpl in Hsame. exact Hsame.
      * exact Hstate.
Qed.

(** [get_deltas], run. *)
Lemma get_deltas_run (E : Env) (snapshot : Snapshot) (h : heap) :
  fst (get_deltas E snapshot h)
  = Ok (diff_input E (input (prev_snapshot h)) (input snapshot),
        system_deltas_of E (system_state (prev_snapshot h)) (system_state snapshot) [])
  /\ same_but_prev_state (snd (record_call CallGetDeltas h))
                         (snd (get_deltas E snapshot h))
  /\ system_state (prev_snapshot (snd (get_deltas E snapshot h)))
     = with_missing_resources (system_state (prev_snapshot h)) (system_state snapshot).
Proof.
  unfold get_deltas, bind, get_heap. simpl.
  match goal with
  | |- context [system_state_deltas E ?c ?a ?h1] =>
      destruct (system_state_deltas_run E c a h1) as (h' & Hrun & Hsame & Hstate)
  end.
  rewrite Hrun. simpl. split; [reflexivity|split; [exact Hsame|exact Hstate]].
Qed.

(** X5: [get_deltas] in closed form: the input delta is the diff of the two
    inputs; the system delta has, for each resource kind of the current
    state, the diff against the same kind of the previous state, or against
    an empty dictionary; the heap changes only in that the call is recorded
    and the missing kinds are added, empty, to
    [prev_snapshot.system_state]. *)
Theorem get_deltas_closed_form (E : Env) (snapshot : Snapshot) (h : heap) :
  fst (get_deltas E snapshot h)
  = Ok (diff_input E (input (prev_snapshot h)) (input snapshot),
        system_deltas_of E (system_state (prev_snapshot h)) (system_state snapshot) [])
  /\ same_but_prev_state (snd (record_call CallGetDeltas h))
                         (snd (get_deltas E snapshot h))
  /\ system_state (prev_snapshot (snd (get_deltas E snapshot h)))
     = with_missing_resources (system_state (prev_snapshot h)) (system_state snapshot).
Proof. exact (get_deltas_run E snapshot h). Qed.

Lemma with_missing_resources_keeps (curr prev : list (string * value)) (k : string) :
  dict_mem String.eqb k prev = true ->
  dict_mem String.eqb k (with_missing_resources prev curr) = true.
Proof.
  revert prev. induction curr as [|[resource doc] curr IH]; intros prev Hk; simpl.
  - exact Hk.
  - apply IH. destruct (dict_mem String.eqb resource prev); [exact Hk|].
    rewrite dict_mem_set, Hk. apply orb_true_r.
Qed.

Lemma with_missing_resources_adds (curr prev : list (string * value)) (k : string) :
  In k (dict_keys curr) ->
  dict_mem String.eqb k (with_missing_resources prev curr) = true.
Proof.
  revert prev. induction curr as [|[resource doc] curr IH]; intros prev; simpl.
  - contradiction.
  - intros [<- | Hin]; [|now apply IH].
    apply with_missing_resources_keeps.
    destruct (dict_mem String.eqb resource prev) eqn:Hm; [exact Hm|].
    rewrite dict_mem_set, String.eqb_refl. reflexivity.
Qed.

(** With every resource kind of the current state in the previous state, the
    loop of [get_deltas] writes nothing. *)
Lemma system_state_deltas_settled (E : Env) (curr : list (string * value)) :
  forall (acc : system_delta_map) (h : heap),
    (forall k, In k (dict_keys curr) ->
               dict_mem String.eqb k (system_state (prev_snapshot h)) = true) ->
    system_state_deltas E curr acc h
    = (Ok (system_deltas_of E (system_state (prev_snapshot h)) curr acc), h).
Proof.
  induction curr as [|[resource doc] curr IH]; intros acc h Hall; simpl.
  - reflexivity.
  - unfold bind at 1. simpl.
    rewrite (Hall resource) by (now left).
    unfold bind, ret, get_heap. simpl.
    assert (Hget : dict_get String.eqb resource (system_state (prev_snapshot h))
                   = Some (resource_before (system_state (prev_snapshot h)) resource)).
    { specialize (Hall resource (or_introl eq_refl)).
      unfold resource_before, dict_mem in *.
      now destruct (dict_get String.eqb resource (system_state (prev_snapshot h))). }
    rewrite Hget. apply IH. intros k Hk. apply Hall. now right.
Qed.

Lemma resource_before_with_missing (curr prev : list (string * value)) (x : string) :
  resource_before (with_missing_resources prev curr) x = resource_before prev x.
Proof.
  revert prev. induction curr as [|[resource doc] curr IH]; intros prev; simpl.
  - reflexivity.
  - rewrite IH. destruct (dict_mem String.eqb resource prev) eqn:Hm; [reflexivity|].
    now apply resource_before_set.
Qed.

(** X6: [get_deltas] writes to the previous snapshot once: a second call, as
    [check] makes inside [check_resources] and [check_operator_log], returns
    the same deltas and leaves the previous snapshot as the first call left
    it. *)
Theorem get_deltas_again (E : Env) (snapshot : Snapshot) (h : heap) :
  let first := get_deltas E snapshot h in
  let second := get_deltas E snapshot (snd first) in
  fst second = fst first
  /\ prev_snapshot (snd second) = prev_snapshot (snd first).
Proof.
  cbv zeta.
  destruct (get_deltas_run E snapshot h) as (Hres & Hsame & Hstate).
  destruct (get_deltas E snapshot h) as [r1 h1]. simpl in *.
  destruct Hsame as (_ & _ & _ & _ & Hinput & _).
  unfold get_deltas, bind, get_heap. simpl.
  rewrite system_state_deltas_settled.
  - simpl. split; [|reflexivity].
    rewrite Hres, Hstate, Hinput. do 2 f_equal.
    apply system_deltas_of_ext. intros x. apply resource_before_with_missing.
  - intros k Hk. simpl. rewrite Hstate. now apply with_missing_resources_adds.
Qed.

(** ** A snapshot without the custom resource *)

Lemma dict_mem_cons {V : Type} (k k' : string) (v : V) (d : list (string * V)) :
  dict_mem String.eqb k ((k', v) :: d)
  = String.eqb k k' || dict_mem String.eqb k d.
Proof. unfold dict_mem. simpl. now destruct (String.eqb k k'). Qed.

Lemma system_deltas_of_mem (E : Env) (prev curr : list (string * value)) (k : string) :
  forall acc,
    dict_mem String.eqb k (system_deltas_of E prev curr acc)
    = dict_mem String.eqb k acc || dict_mem String.eqb k curr.
Proof.
  induction curr as [|[resource doc] curr IH]; intros acc; simpl.
  - now rewrite orb_false_r.
  - rewrite IH, dict_mem_set, dict_mem_cons.
    destruct (String.eqb k resource), (dict_mem String.eqb k acc); reflexivity.
Qed.

Lemma dict_pop_none {V : Type} (k : string) (d : list (string * V)) :
  dict_mem String.eqb k d = false -> dict_pop String.eqb k d = None.
Proof.
  unfold dict_mem. induction d as [|[k' v'] d IH]; simpl; [reflexivity|].
  destruct (String.eqb k k'); [discriminate|].
  intros H. now rewrite (IH H).
Qed.

(** X7: [check_resources] pops [custom_resource_spec] off the system delta
    without looking whether it is there: for a snapshot whose system state has
    no resource of that name, the state oracle writes the delta log and then
    raises [KeyError], and so does [check] whenever the input oracle
    passes. *)
Theorem no_custom_resource_raises (E : Env) (snapshot : Snapshot) (g : Z)
  (h h2 : heap) :
  system_state snapshot <> [] ->
  dict_mem String.eqb "custom_resource_spec" (system_state snapshot) = false ->
  writable E g = true ->
  input_stage E snapshot g h = (Ok PassResult, h2) ->
  fst (check_resources E snapshot h2) = Raise KeyError
  /\ fst (check E snapshot g h) = Raise KeyError
  /\ exists written, delta_logs (snd (check E snapshot g h))
                     = delta_logs h ++ [(g, written)].
Proof.
  intros Hne Hcr Hw Hstage.
  destruct (delta_log_path_kept_by_input_stage E snapshot g h) as [Hpath Hlogs].
  rewrite Hstage in Hpath, Hlogs. simpl in Hpath, Hlogs.
  assert (Hrun : exists written h3,
             check_resources E snapshot h2 = (Raise KeyError, h3)
             /\ delta_logs h3 = delta_logs h ++ [(g, written)]).
  { unfold check_resources, bind. simpl.
    match goal with
    | |- context [get_deltas E snapshot ?h0] =>
        destruct (get_deltas_run E snapshot h0) as (Hres & Hsame & _);
        destruct (get_deltas E snapshot h0) as [[[input_delta system_delta]|e] h1]
    end; simpl in Hres, Hsame; [|discriminate].
    injection Hres as Hin Hsd.
    destruct Hsame as (_ & Hp1 & Hl1 & _).
    unfold log_deltas, bind, get_heap, record_call, write_delta_log. simpl.
    rewrite Hp1, Hpath. simpl. rewrite Hw. simpl.
    rewrite dict_pop_none.
    - do 2 eexists. split; [reflexivity|]. simpl.
      rewrite Hl1. simpl. rewrite Hlogs. reflexivity.
    - rewrite Hsd, system_deltas_of_mem. exact Hcr. }
  destruct Hrun as (written & h3 & Hrun & Hlog).
  split; [now rewrite Hrun|].
  assert (Hcheck : check E snapshot g h = (Raise KeyError, h3)).
  { rewrite check_unfold by exact Hne.
    unfold bind. rewrite Hstage. simpl. now rewrite Hrun. }
  rewrite Hcheck. simpl. split; [reflexivity|]. now exists written.
Qed.

(** A cluster state that only lists one stateful set. *)
Lemma no_custom_resource_raises_witness :
  let st := [("stateful_set", doc [("db", doc [("spec", doc [("replicas", VInt 3)])])])] in
  let s := snapshot_of (replicas_input 5) "configured" "" st [] in
  let h := heap_of [] (snapshot_of (replicas_input 3) "" "" st []) in
  fst (check plain_env s 0 h) = Raise KeyError.
Proof.
  cbv zeta.
  eapply (@no_custom_resource_raises plain_env _ 0 _ _).
  - discriminate.
  - reflexivity.
  - reflexivity.
  - reflexivity.
Defined.

(** ** The verdicts of check *)

Lemma check_delta_returns_error (E : Env) (snapshot : Snapshot)
  (sd : system_delta_map) (d : Diff) (h h' : heap) (r : RunResult) :
  check_delta E snapshot sd d h = (Ok (Some r), h') -> state_error E [d] r.
Proof.
  unfold check_delta.
  destruct (input_compare E (diff_prev d) (diff_curr d)) eqn:Hcmp; [discriminate|].
  unfold bind.
  destruct (should_skip_input_delta E d snapshot h) as [[[|]|e] h1];
    try discriminate.
  unfold lift.
  destruct (_list_matched_fields E (diff_path d) sd) as [matches|e];
    [|discriminate].
  destruct (first_inconsistent E d matches) as [m|] eqn:Hfirst.
  - intros [= <- _]. exists d. split; [now left|split; [exact Hcmp|]].
    left. exists m. split; [reflexivity|].
    now destruct (@first_inconsistent_some E d matches m Hfirst).
  - destruct (len matches =? 0); [|discriminate].
    destruct (found_anywhere E d sd); [discriminate|].
    intros [= <- _]. exists d. split; [now left|split; [exact Hcmp|now right]].
Qed.

Lemma check_delta_loop_returns_error (E : Env) (snapshot : Snapshot)
  (sd : system_delta_map) (ds : list Diff) :
  forall (h h' : heap) (r : RunResult),
    check_delta_loop E snapshot sd ds h = (Ok (Some r), h') -> state_error E ds r.
Proof.
  induction ds as [|x ds IH]; intros h h' r; simpl; [discriminate|].
  unfold bind.
  destruct (check_delta E snapshot sd x h) as [[[rx|]|e] h1] eqn:Hx;
    [|intros Hrest|discriminate].
  - intros [= <- _].
    destruct (@check_delta_returns_error E snapshot sd x h h1 rx Hx)
      as (d & [<- | []] & Hd).
    exists x. split; [now left|exact Hd].
  - destruct (IH h1 h' r Hrest) as (d & Hin & Hd).
    exists d. split; [now right|exact Hd].
Qed.

(** The state oracle passes or reports an error about one of the input
    deltas. *)
Lemma check_resources_verdict (E : Env) (snapshot : Snapshot) (h : heap)
  (r : RunResult) :
  fst (check_resources E snapshot h) = Ok r ->
  r = PassResult
  \/ state_error E
       (input_deltas (diff_input E (input (prev_snapshot h)) (input snapshot))) r.
Proof.
  unfold check_resources, bind. simpl.
  match goal with
  | |- context [get_deltas E snapshot ?h0] =>
      destruct (get_deltas_run E snapshot h0) as (Hres & _);
      destruct (get_deltas E snapshot h0) as [[[input_delta system_delta]|e] h1]
  end; simpl in Hres; [|discriminate].
  injection Hres as -> _.
  destruct (log_deltas E _ h1) as [[[]|e] h2]; [|discriminate].
  destruct (dict_pop _ _ _) as [sd|]; [|discriminate].
  destruct (check_delta_loop E snapshot sd _ h2) as [[[x|]|e] h3] eqn:Hloop;
    simpl; try discriminate.
  - intros [= <-]. right.
    apply (@check_delta_loop_returns_error E snapshot sd _ h2 h3 x Hloop).
  - intros [= <-]. now left.
Qed.

Lemma check_input_verdict (E : Env) (snapshot : Snapshot) (d : delta_map) (h : heap)
  (r : RunResult) :
  fst (check_input E snapshot d h) = Ok r -> input_verdict r.
Proof.
  unfold check_input, bind, record_call, ret, input_verdict. simpl.
  destruct (invalid_input_message E _ d) as [is_invalid p].
  repeat match goal with
         | |- context [if ?b then _ else _] => destruct b
         end; simpl; intros [= <-]; eauto 6.
Qed.

(** The first stage of [check] keeps the previous input. *)
Lemma input_stage_prev_input (E : Env) (snapshot : Snapshot) (g : Z) (h : heap) :
  input (prev_snapshot (snd (input_stage E snapshot g h))) = input (prev_snapshot h).
Proof.
  pose (P := fun h' : heap => input (prev_snapshot h') = input (prev_snapshot h)).
  assert (Hstage : hoare P (d <- get_deltas E snapshot ;;
                            check_input E snapshot (fst d)) any).
  { eapply hoare_bind with (R := any).
    - apply inv_get_deltas; intros; assumption.
    - intros d _. eapply hoare_weaken.
      + apply inv_check_input. intros; assumption.
      + intros; exact I. }
  assert (Hrun : input_stage E snapshot g h
                 = (d <- get_deltas E snapshot ;; check_input E snapshot (fst d))
                     (snd (set_delta_log_path g h)))
    by reflexivity.
  rewrite Hrun. apply Hstage. reflexivity.
Qed.

Lemma input_stage_verdict (E : Env) (snapshot : Snapshot) (g : Z) (h : heap)
  (r : RunResult) :
  fst (input_stage E snapshot g h) = Ok r -> input_verdict r.
Proof.
  unfold input_stage, bind. simpl.
  destruct (get_deltas E snapshot _) as [[d|e] h1]; [|discriminate].
  apply check_input_verdict.
Qed.

Lemma check_empty_system_state_eq (E : Env) (snapshot : Snapshot) (g : Z) (h : heap) :
  system_state snapshot = [] ->
  check E snapshot g h = (Ok (InvalidInputResult None), h).
Proof. intros Hempty. unfold check. now rewrite Hempty. Qed.

(** What [check] returns when it returns. *)
Lemma check_verdict (E : Env) (snapshot : Snapshot) (g : Z) (h : heap)
  (r : RunResult) :
  fst (check E snapshot g h) = Ok r ->
  input_verdict r
  \/ state_error E
       (input_deltas (diff_input E (input (prev_snapshot h)) (input snapshot))) r.
Proof.
  destruct (system_state snapshot) as [|kv st] eqn:Hst.
  { rewrite check_empty_system_state_eq by exact Hst. intros [= <-].
    left. unfold input_verdict. eauto 6. }
  assert (Hne : system_state snapshot <> []) by (rewrite Hst; discriminate).
  rewrite check_unfold by exact Hne.
  pose proof (input_stage_prev_input E snapshot g h) as Hinput.
  pose proof (@input_stage_verdict E snapshot g h) as Hverdict.
  unfold bind at 1.
  destruct (input_stage E snapshot g h) as [[ir|e] h2]; [|discriminate].
  simpl in Hinput, Hverdict. specialize (Hverdict ir eq_refl).
  destruct (negb (is_pass ir)) eqn:Hpass.
  - intros [= <-]. now left.
  - unfold bind.
    pose proof (@check_resources_verdict E snapshot h2) as Hstate.
    destruct (check_resources E snapshot h2) as [[sr|e] h3]; [|discriminate].
    specialize (Hstate sr eq_refl). rewrite Hinput in Hstate.
    destruct (check_operator_log E snapshot h3) as [[lr|e] h4] eqn:Hlog;
      [|discriminate].
    assert (Hlr : lr = PassResult \/ is_invalid_input lr = true).
    { revert Hlog. unfold check_operator_log, bind. simpl.
      destruct (get_deltas E snapshot _) as [[d|e] h5]; [|discriminate].
      unfold lift. intros [= Hloop _].
      now apply (@operator_log_loop_verdict E (fst d) (operator_log snapshot)). }
    simpl. intros [= <-]. unfold after_input_pass.
    destruct Hlr as [-> | Hinv].
    + simpl. destruct Hstate as [-> | Herr]; [left; now left|].
      destruct Herr as (d & Hin & Hcmp & [(m & -> & Hm) | ->]); simpl; right;
        exists d; (split; [exact Hin|split; [exact Hcmp|]]).
      * left. now exists m.
      * now right.
    + rewrite Hinv. left. destruct lr; try discriminate.
      unfold input_verdict. eauto 6.
Qed.

(** X8: a verdict of [check] is a verdict of the input oracle ([Pass],
    [Unchanged], [ConnectionRefused], [InvalidInput]) or an error of the state
    oracle about a delta of the input that is not input-equivalent: the error
    carries that delta and either the system delta that is inconsistent with
    it or none.  No other error is ever returned. *)
Theorem check_verdicts (E : Env) (snapshot : Snapshot) (g : Z) (h : heap)
  (r : RunResult) :
  fst (check E snapshot g h) = Ok r ->
  input_verdict r
  \/ state_error E
       (input_deltas (diff_input E (input (prev_snapshot h)) (input snapshot))) r.
Proof. apply check_verdict. Qed.

(** The inconsistent change of the replicas is reported with the delta of the
    input and the delta of the stateful set. *)
Lemma check_verdicts_witness :
  let s := snapshot_of (replicas_input 5) "configured" "" (replicas_state 5 2) [] in
  let h := heap_of [] (snapshot_of (replicas_input 3) "" "" (replicas_state 3 3) []) in
  exists r,
    fst (check plain_env s 0 h) = Ok r
    /\ (input_verdict r
        \/ state_error plain_env
             (input_deltas (diff_input plain_env (replicas_input 3) (replicas_input 5)))
             r).
Proof.
  cbv zeta. eexists. split; [reflexivity|].
  apply (@check_verdicts plain_env
           (snapshot_of (replicas_input 5) "configured" "" (replicas_state 5 2) []) 0
           (heap_of [] (snapshot_of (replicas_input 3) "" "" (replicas_state 3 3) []))).
  reflexivity.
Defined.

(** X9: when the diff of the two inputs has no delta, [check] reports no error,
    whatever happened to the system state: the state oracle only looks at
    system deltas through the deltas of the input. *)
Theorem no_input_delta_no_error (E : Env) (snapshot : Snapshot) (g : Z) (h : heap)
  (r : RunResult) :
  input_deltas (diff_input E (input (prev_snapshot h)) (input snapshot)) = [] ->
  fst (check E snapshot g h) = Ok r ->
  input_verdict r.
Proof.
  intros Hnone Hr.
  destruct (@check_verdict E snapshot g h r Hr) as [Hv | (d & Hin & _)];
    [exact Hv|].
  rewrite Hnone in Hin. contradiction.
Qed.

(** The input stays at 3 replicas while the stateful set drops to 2. *)
Lemma no_input_delta_no_error_witness :
  let s := snapshot_of (replicas_input 3) "configured" "" (replicas_state 3 2) [] in
  let h := heap_of [] (snapshot_of (replicas_input 3) "" "" (replicas_state 3 3) []) in
  input_verdict PassResult /\ fst (check plain_env s 0 h) = Ok PassResult.
Proof.
  cbv zeta. split; [|reflexivity].
  apply (@no_input_delta_no_error plain_env
           (snapshot_of (replicas_input 3) "configured" "" (replicas_state 3 2) []) 0
           (heap_of [] (snapshot_of (replicas_input 3) "" "" (replicas_state 3 3) []))).
  - reflexivity.
  - reflexivity.
Defined.

(** ** What check leaves untouched *)

Lemma check_condition_shape (inp : value) (c : condition) :
  condition_shape (snd (check_condition inp c)) = condition_shape c.
Proof.
  unfold check_condition, condition_shape, with_field, with_value. simpl.
  destruct (reduce_getitem (index_to_zero (field c)) inp) as [v|[]];
    destruct (translate_op (op c)) as [o|]; simpl;
    try (now rewrite index_to_zero_idempotent).
  destruct (apply_op o v (cvalue c)) as [[|]|e]; simpl;
    try (now rewrite index_to_zero_idempotent).
  destruct (is_bool v); simpl; now rewrite index_to_zero_idempotent.
Qed.

Lemma check_conditions_shape (inp : value) (conditions : list condition) :
  map condition_shape (snd (check_conditions inp conditions))
  = map condition_shape conditions.
Proof.
  induction conditions as [|c rest IH]; simpl; [reflexivity|].
  pose proof (check_condition_shape inp c) as Hc.
  destruct (check_condition inp c) as [[[|]|e] c']; simpl in *.
  - destruct (check_conditions inp rest) as [r rest']. simpl in *.
    now rewrite Hc, IH.
  - now rewrite Hc.
  - now rewrite Hc.
Qed.

Lemma index_shape_set (key : path) (m : conditions_map)
  (conditions conditions' : list condition) :
  dict_get path_eqb key m = Some conditions ->
  map condition_shape conditions' = map condition_shape conditions ->
  index_shape (dict_set path_eqb key conditions' m) = index_shape m.
Proof.
  intros Hget Hshape. induction m as [|[k v] m IH]; simpl in *; [discriminate|].
  destruct (path_eqb key k); simpl.
  - injection Hget as ->. now rewrite Hshape.
  - now rewrite IH.
Qed.

Lemma with_missing_resources_get (curr prev : list (string * value)) (k : string)
  (v : value) :
  dict_get String.eqb k prev = Some v ->
  dict_get String.eqb k (with_missing_resources prev curr) = Some v.
Proof.
  revert prev. induction curr as [|[resource doc] curr IH]; intros prev Hk; simpl.
  - exact Hk.
  - apply IH. destruct (dict_mem String.eqb resource prev) eqn:Hm; [exact Hk|].
    rewrite dict_get_set_other; [exact Hk|].
    destruct (String.eqb k resource) eqn:Hkr; [|reflexivity].
    apply String.eqb_eq in Hkr. subst resource.
    unfold dict_mem in Hm. now rewrite Hk in Hm.
Qed.

Section Frame.
(** A property of the heap that is kept by every step of a check, given that
    [get_deltas] and the evaluation of stored conditions keep it. *)
Variable P : heap -> Prop.
Hypothesis P_record_call : forall c h, P h -> P (snd (record_call c h)).
Hypothesis P_delta_log_path : forall g h, P h -> P (snd (set_delta_log_path g h)).
Hypothesis P_delta_log : forall g d h, P h -> P (snd (write_delta_log g d h)).
Hypothesis P_get_deltas : forall E snapshot, hoare P (get_deltas E snapshot) any.
Hypothesis P_eval_conditions :
  forall snapshot key, hoare P (eval_conditions snapshot key) any.

Ltac frame_step :=
  match goal with
  | |- hoare _ (bind _ _) _ => eapply hoare_bind with (R := any); [|intros ? _]
  | |- hoare _ (ret _) _ => apply hoare_ret; exact I
  | |- hoare _ (raise _) _ => apply hoare_raise
  | |- hoare _ (lift _) _ => apply hoare_lift; intros; exact I
  | |- hoare _ get_heap _ => apply hoare_get_heap; intros; exact I
  | |- hoare _ (record_call _) _ =>
      intros ? ?; split; [now apply P_record_call|intros; exact I]
  | |- hoare _ (set_delta_log_path _) _ =>
      intros ? ?; split; [now apply P_delta_log_path|intros; exact I]
  | |- hoare _ (write_delta_log _ _) _ =>
      intros ? ?; split; [now apply P_delta_log|intros; exact I]
  | |- hoare _ (get_deltas _ _) _ => apply P_get_deltas
  | |- hoare _ (eval_conditions _ _) _ => apply P_eval_conditions
  | |- hoare _ (if ?b then _ else _) _ => destruct b
  | |- hoare _ (match ?x with _ => _ end) _ => destruct x
  end.

Lemma frame_check_input (E : Env) (snapshot : Snapshot) (d : delta_map) :
  hoare P (check_input E snapshot d) any.
Proof.
  unfold check_input.
  destruct (invalid_input_message E (stderr (cli_result snapshot)) d).
  repeat frame_step.
Qed.

Lemma frame_should_skip (E : Env) (d : Diff) (snapshot : Snapshot) :
  hoare P (should_skip_input_delta E d snapshot) any.
Proof. unfold should_skip_input_delta. repeat frame_step. Qed.

Lemma frame_check_delta (E : Env) (snapshot : Snapshot) (sd : system_delta_map)
  (d : Diff) :
  hoare P (check_delta E snapshot sd d) any.
Proof.
  unfold check_delta.
  destruct (input_compare E _ _); [frame_step|].
  eapply hoare_bind with (R := any); [apply frame_should_skip|intros skip _].
  destruct skip; [frame_step|].
  repeat frame_step.
Qed.

Lemma frame_check_delta_loop (E : Env) (snapshot : Snapshot) (sd : system_delta_map)
  (ds : list Diff) :
  hoare P (check_delta_loop E snapshot sd ds) any.
Proof.
  induction ds as [|d ds IH]; simpl; [frame_step|].
  eapply hoare_bind with (R := any); [apply frame_check_delta|intros r _].
  destruct r; [frame_step|apply IH].
Qed.

Lemma frame_check_resources (E : Env) (snapshot : Snapshot) :
  hoare P (check_resources E snapshot) any.
Proof.
  unfold check_resources, log_deltas.
  eapply hoare_bind with (R := any); [frame_step|intros _ _].
  eapply hoare_bind with (R := any); [frame_step|intros [input_delta system_delta] _].
  eapply hoare_bind with (R := any); [repeat frame_step|intros _ _].
  destruct (dict_pop _ _ _); [|frame_step].
  eapply hoare_bind with (R := any); [apply frame_check_delta_loop|intros r _].
  destruct r; frame_step.
Qed.

Lemma frame_check_operator_log (E : Env) (snapshot : Snapshot) :
  hoare P (check_operator_log E snapshot) any.
Proof. unfold check_operator_log. repeat frame_step. Qed.

Lemma frame_check (E : Env) (snapshot : Snapshot) (g : Z) :
  hoare P (check E snapshot g) any.
Proof.
  unfold check. destruct (system_state snapshot); [frame_step|].
  eapply hoare_bind with (R := any); [frame_step|intros _ _].
  eapply hoare_bind with (R := any); [frame_step|intros d _].
  eapply hoare_bind with (R := any); [apply frame_check_input|intros input_result _].
  destruct (negb (is_pass input_result)); [frame_step|].
  eapply hoare_bind with (R := any); [apply frame_check_resources|intros sr _].
  eapply hoare_bind with (R := any); [apply frame_check_operator_log|intros lr _].
  repeat frame_step.
Qed.
End Frame.

Lemma framed_get_deltas (h0 : heap) (E : Env) (snapshot : Snapshot) :
  hoare (framed h0) (get_deltas E snapshot) any.
Proof.
  intros h (Hi & Hc & Ho & Hst & Hidx & Hlogs). split; [|intros; exact I].
  destruct (get_deltas_run E snapshot h) as (_ & Hsame & Hstate).
  destruct Hsame as (Hm & _ & Hl & _ & Hi' & Hc' & Ho'). simpl in *.
  unfold framed. rewrite Hi', Hc', Ho', Hm, Hl, Hstate.
  repeat split; try assumption.
  intros k v Hk. apply with_missing_resources_get. now apply Hst.
Qed.

Lemma framed_eval_conditions (h0 : heap) (snapshot : Snapshot) (key : path) :
  hoare (framed h0) (eval_conditions snapshot key) any.
Proof.
  intros h (Hi & Hc & Ho & Hst & Hidx & Hlogs). split; [|intros; exact I].
  unfold eval_conditions, bind, get_heap. simpl.
  destruct (dict_get path_eqb key (field_conditions_map h)) as [conditions|] eqn:Hget.
  - pose proof (check_conditions_shape (input snapshot) conditions) as Hshape.
    destruct (check_conditions (input snapshot) conditions) as [r conditions'].
    simpl in *. unfold framed. simpl.
    rewrite (@index_shape_set key (field_conditions_map h) conditions conditions'
               Hget Hshape).
    destruct r; simpl; repeat split; assumption.
  - simpl. unfold framed. repeat split; assumption.
Qed.

(** X10: whether it returns or raises, [check] leaves the input, the CLI result
    and the operator log of the previous snapshot as they were, keeps every
    resource entry of its system state, keeps the keys of the dependency
    index in their order with the same number of conditions, the same
    operators and the same fields up to ['INDEX'] read as [0], and only adds
    to the delta logs. *)
Theorem check_frame (E : Env) (snapshot : Snapshot) (g : Z) (h : heap) :
  framed h (snd (check E snapshot g h)).
Proof.
  assert (Hcheck : hoare (framed h) (check E snapshot g) any).
  { apply frame_check.
    - intros c h1 (Hi & Hc & Ho & Hst & Hidx & Hlogs). unfold framed. simpl.
      repeat split; assumption.
    - intros g' h1 (Hi & Hc & Ho & Hst & Hidx & Hlogs). unfold framed. simpl.
      repeat split; assumption.
    - intros g' d h1 (Hi & Hc & Ho & Hst & Hidx & written & Hlogs).
      unfold framed. simpl. repeat split; try assumption.
      exists (written ++ [(g', d)]). now rewrite Hlogs, app_assoc.
    - apply framed_get_deltas.
    - apply framed_eval_conditions. }
  apply Hcheck. unfold framed. repeat split; try reflexivity.
  - auto.
  - exists []. now rewrite app_nil_r.
Qed.

(** ** Where the entries of the dependency index come from *)

Lemma encode_dependency_mem (depender dependee k : path) (m : conditions_map) :
  dict_mem path_eqb k (encode_dependency depender dependee m) = true ->
  dict_mem path_eqb k m = true \/ k = depender.
Proof.
  unfold encode_dependency, dict_mem. cbv zeta. rewrite dict_get_encoded.
  destruct (dict_get path_eqb depender m) eqn:Hd.
  - destruct (dict_get path_eqb k m); [now left|discriminate].
  - destruct (dict_get path_eqb k m) eqn:Hk; [now left|].
    rewrite (dict_get_app_none _ _ _ Hk). simpl.
    destruct (path_eqb k depender) eqn:Hkd; [|discriminate].
    apply path_eqb_eq in Hkd. now right.
Qed.

Lemma encode_dependency_carries (depender dependee k : path) (m : conditions_map)
  (c : condition) :
  carries (encode_dependency depender dependee m) k c ->
  carries m k c
  \/ (c = enabled_condition dependee /\ is_subfield k depender = true).
Proof.
  unfold carries, encode_dependency. cbv zeta. rewrite dict_get_encoded.
  intros (conditions & Hget & Hin).
  assert (Hcases : forall old : list condition,
             (if is_subfield k depender
              then old ++ [enabled_condition dependee] else old) = conditions ->
             In c old
             \/ (c = enabled_condition dependee /\ is_subfield k depender = true)).
  { intros old Hold. destruct (is_subfield k depender); subst conditions.
    - apply in_app_or in Hin as [Hin | [<- | []]]; auto.
    - auto. }
  destruct (dict_mem path_eqb depender m).
  - destruct (dict_get path_eqb k m) as [old|] eqn:Hk; [|discriminate].
    injection Hget as Hget. destruct (Hcases old Hget) as [Hold | Hnew]; eauto.
  - destruct (dict_get path_eqb k m) as [old|] eqn:Hk.
    + rewrite (dict_get_app_some _ _ _ Hk) in Hget.
      injection Hget as Hget. destruct (Hcases old Hget) as [Hold | Hnew]; eauto.
    + rewrite (dict_get_app_none _ _ _ Hk) in Hget. simpl in Hget.
      destruct (path_eqb k depender); [|discriminate].
      injection Hget as Hget. destruct (Hcases [] Hget) as [[] | Hnew]. auto.
Qed.

Lemma encode_all_mem (l : list (path * path)) (k : path) :
  forall m,
    dict_mem path_eqb k (encode_all l m) = true ->
    dict_mem path_eqb k m = true \/ exists e, In (k, e) l.
Proof.
  induction l as [|[d e] l IH]; intros m; simpl; [auto|].
  intros Hk. apply IH in Hk as [Hm | (e' & Hin)]; [|eauto].
  apply encode_dependency_mem in Hm as [Hm' | ->]; eauto.
Qed.

Lemma encode_all_carries (l : list (path * path)) (k : path) (c : condition) :
  forall m,
    carries (encode_all l m) k c ->
    carries m k c
    \/ exists d e, In (d, e) l /\ c = enabled_condition e
                   /\ is_subfield k d = true.
Proof.
  induction l as [|[d e] l IH]; intros m; simpl; [auto|].
  intros Hk. apply IH in Hk as [Hm | (d' & e' & Hin & Hc)].
  - apply encode_dependency_carries in Hm as [Hm' | [-> Hsub]];
      [now left|].
    right. exists d, e. auto.
  - right. exists d', e'. auto.
Qed.

(** X11: after construction every key of the index is a key of the analysis
    result or the path of an object schema with a child named [enabled], and
    every condition is a condition of the analysis result or the condition
    [{field: path + ['enabled'], op: '==', value: 'true'}] of such an object
    whose path is a prefix of the key: the constructor puts nothing else in
    the index. *)
Theorem index_entries_origin (E : Env) (m : conditions_map) :
  Checker_init E = Ok m ->
  (forall k,
      dict_mem path_eqb k m = true ->
      dict_mem path_eqb k (seed_index E) = true
      \/ In (k, k ++ [AStr "enabled"]) (dependencies (get_root_schema E)))
  /\ (forall k c,
        carries m k c ->
        carries (seed_index E) k c
        \/ exists d,
             In (d, d ++ [AStr "enabled"]) (dependencies (get_root_schema E))
             /\ c = enabled_condition (d ++ [AStr "enabled"])
             /\ is_subfield k d = true).
Proof.
  intros Hinit. apply Checker_init_helper in Hinit. subst m.
  rewrite helper_dependencies. split.
  - intros k Hk. apply encode_all_mem in Hk as [Hm | (e & Hin)];
      [now left|].
    right. pose proof (@dependencies_enabled _ _ _ Hin) as <-. exact Hin.
  - intros k c Hk.
    apply encode_all_carries in Hk as [Hm | (d & e & Hin & -> & Hsub)];
      [now left|].
    right. exists d. pose proof (@dependencies_enabled _ _ _ Hin) as <-. auto.
Qed.

(** The index built for [spec: {tls: {cert, enabled}, enabled}]. *)
Lemma index_entries_origin_witness :
  exists m,
    Checker_init (env None tls_first_schema (fun _ => true)) = Ok m
    /\ (carries [] [AStr "spec"; AStr "tls"]
                (enabled_condition [AStr "spec"; AStr "enabled"])
        \/ exists d,
             In (d, d ++ [AStr "enabled"]) (dependencies tls_first_schema)
             /\ enabled_condition [AStr "spec"; AStr "enabled"]
                = enabled_condition (d ++ [AStr "enabled"])
             /\ is_subfield [AStr "spec"; AStr "tls"] d = true).
Proof.
  eexists. split; [reflexivity|].
  eapply (proj2 (@index_entries_origin
                   (env None tls_first_schema (fun _ => true)) _ eq_refl)).
  eexists. split; [reflexivity|]. right. now left.
Defined.

(** ** A second checker on the same context *)

Lemma encode_dependency_appends (depender dependee k : path) (m : conditions_map)
  (conditions : list condition) :
  dict_get path_eqb k m = Some conditions ->
  dict_get path_eqb k (encode_dependency depender dependee m)
  = Some (if is_subfield k depender
          then conditions ++ [enabled_condition dependee]
          else conditions).
Proof.
  intros Hk. unfold encode_dependency. cbv zeta. rewrite dict_get_encoded.
  destruct (dict_mem path_eqb depender m).
  - now rewrite Hk.
  - now rewrite (dict_get_app_some _ _ _ Hk).
Qed.

Lemma encode_all_appends (l : list (path * path)) (k : path) :
  forall m conditions,
    dict_get path_eqb k m = Some conditions ->
    exists more, dict_get path_eqb k (encode_all l m) = Some (conditions ++ more).
Proof.
  induction l as [|[d e] l IH]; intros m conditions Hk; simpl.
  - exists []. now rewrite app_nil_r.
  - apply (encode_dependency_appends d e) in Hk.
    apply IH in Hk as (more & Hmore). rewrite Hmore.
    destruct (is_subfield k d).
    + exists ([enabled_condition e] ++ more). now rewrite <- app_assoc.
    + now exists more.
Qed.

(** X12: with analysis enabled the constructor works on the dictionary of the
    context, so a second checker built from the same context starts from the
    index that the first one left: the walk then appends every [enabled]
    condition once more, and each object with a child named [enabled] carries
    its condition twice. *)
Theorem second_construction_duplicates (root : Schema) (seed : conditions_map)
  (d e : path) :
  In (d, e) (dependencies root) ->
  exists a b c,
    dict_get path_eqb d (helper root (helper root seed))
    = Some (a ++ enabled_condition e :: b ++ enabled_condition e :: c).
Proof.
  intros Hin.
  destruct (in_split _ _ Hin) as (l1 & l2 & Hsplit).
  assert (Hfirst : carries (helper root seed) d (enabled_condition e)).
  { rewrite helper_dependencies, Hsplit, encode_all_app. simpl.
    apply encode_all_keeps, encode_dependency_adds;
      [now right|apply is_subfield_refl]. }
  destruct Hfirst as (conditions & Hget & Hc).
  destruct (in_split _ _ Hc) as (a & b & ->).
  rewrite (helper_dependencies root (helper root seed)), Hsplit, encode_all_app.
  simpl.
  apply (encode_all_appends l1) in Hget as (s1 & H1).
  apply (encode_dependency_appends d e) in H1.
  rewrite is_subfield_refl in H1.
  apply (encode_all_appends l2) in H1 as (s2 & H3).
  exists a, (b ++ s1), s2. rewrite H3. f_equal.
  repeat (rewrite <- app_assoc; simpl). reflexivity.
Qed.

(** Two checkers for [spec: {tls: {cert, enabled}, enabled}]. *)
Lemma second_construction_duplicates_witness :
  exists a b c,
    dict_get path_eqb [AStr "spec"]
             (helper tls_first_schema (helper tls_first_schema []))
    = Some (a ++ enabled_condition [AStr "spec"; AStr "enabled"]
              :: b ++ enabled_condition [AStr "spec"; AStr "enabled"] :: c).
Proof.
  apply second_construction_duplicates. simpl. right. now left.
Defined.

(** ** Matching and empty paths *)

Lemma py_index_nil {A : Type} (n : Z) : py_index (@nil A) n = None.
Proof.
  unfold py_index. simpl.
  destruct ((0 <=? n) && (n <? 0)) eqn:H1; [|reflexivity].
  apply andb_prop in H1 as [H H']. apply Z.leb_le in H. apply Z.ltb_lt in H'. lia.
Qed.

Lemma while_canonical_match_nil (E : Env) (fuel : nat) (p : path) (position : Z) :
  while_canonical_match E fuel p [] position = Raise IndexError.
Proof.
  destruct fuel as [|fuel]; simpl; [reflexivity|].
  rewrite py_index_nil. now destruct (py_index p (- position - 1)).
Qed.

Lemma matched_loop_empty_path (E : Env) (p : path) (deltas : list Diff) :
  p <> [] ->
  (exists d, In d deltas /\ diff_path d = []) ->
  forall results max_match,
    matched_loop E p deltas results max_match = Raise IndexError.
Proof.
  intros Hp. induction deltas as [|x deltas IH]; intros (d & Hin & Hd);
    [contradiction|].
  intros results max_match. simpl.
  destruct (diff_path x) as [|b q] eqn:Hx.
  - now rewrite while_canonical_match_nil.
  - rewrite while_canonical_match_overlap by (assumption || discriminate).
    assert (Hrest : exists d, In d deltas /\ diff_path d = []).
    { destruct Hin as [<- | Hin]; [rewrite Hx in Hd; discriminate|eauto]. }
    repeat match goal with
           | |- context [if ?b then _ else _] => destruct b
           end; now apply IH.
Qed.

(** X13: [_list_matched_fields] indexes paths from their end without looking at
    their lengths.  On an empty input path it raises [IndexError] unless
    there is neither a generic regex nor a system delta; on a non-empty input
    path whose last atom is not generic it raises [IndexError] as soon as one
    of the system deltas has an empty path. *)
Theorem list_matched_fields_index_error (E : Env) (p : path)
  (delta_dict : system_delta_map) :
  (p = [] -> GENERIC_FIELDS E <> [] \/ all_deltas delta_dict <> [] ->
   _list_matched_fields E p delta_dict = Raise IndexError)
  /\ (p = [] -> GENERIC_FIELDS E = [] -> all_deltas delta_dict = [] ->
      _list_matched_fields E p delta_dict = Ok [])
  /\ (p <> [] -> last_atom_generic E p = false ->
      (exists d, In d (all_deltas delta_dict) /\ diff_path d = []) ->
      _list_matched_fields E p delta_dict = Raise IndexError).
Proof.
  unfold _list_matched_fields. split; [|split].
  - intros -> Hsome. destruct (GENERIC_FIELDS E) as [|regex regexes]; simpl.
    + destruct Hsome as [Hg | Hd]; [contradiction|].
      destruct (all_deltas delta_dict); [contradiction|reflexivity].
    + reflexivity.
  - intros -> -> ->. reflexivity.
  - intros Hp Hgeneric Hempty. unfold last_atom_generic in Hgeneric.
    destruct (rev p) as [|a rest] eqn:Hrev.
    { apply (f_equal (@rev atom)) in Hrev. rewrite rev_involutive in Hrev.
      contradiction. }
    rewrite (@generic_field_last (GENERIC_FIELDS E) p a rest Hrev), Hgeneric.
    now apply matched_loop_empty_path.
Qed.

(** A delta at the root of a resource: its path is empty. *)
Lemma list_matched_fields_index_error_witness :
  let root := mkDiff [] (Present VNone) (Present (VInt 1)) in
  let D := [("stateful_set", [("type_changes", [("root", root)])])] in
  _list_matched_fields plain_env [] D = Raise IndexError
  /\ _list_matched_fields plain_env [AStr "spec"; AStr "replicas"] D
     = Raise IndexError.
Proof.
  cbv zeta. split.
  - apply (proj1 (list_matched_fields_index_error plain_env [] _));
      [reflexivity|]. left. discriminate.
  - apply (proj2 (proj2 (list_matched_fields_index_error
                           plain_env [AStr "spec"; AStr "replicas"] _)));
      [discriminate|reflexivity|].
    eexists. split; [left; reflexivity|reflexivity].
Defined.

(** ** Matches share the last atom *)

Lemma suffix_overlap_zero (E : Env) (p q : path) :
  (suffix_overlap E p q =? 0) = negb (same_last_atom E p q).
Proof.
  unfold suffix_overlap, same_last_atom.
  destruct (rev p) as [|a rp], (rev q) as [|b rq]; try reflexivity.
  simpl. destruct (String.eqb (canonicalize E a) (canonicalize E b)); reflexivity.
Qed.

Lemma max_overlap_attained (E : Env) (p : path) (l : list Diff) :
  max_overlap E p l <> 0 ->
  exists d, In d l /\ suffix_overlap E p (diff_path d) = max_overlap E p l.
Proof.
  induction l as [|x l IH]; simpl; [contradiction|].
  fold (max_overlap E p l). intros Hmax.
  destruct (Z.max_spec (suffix_overlap E p (diff_path x)) (max_overlap E p l))
    as [[Hlt ->] | [Hle ->]].
  - destruct IH as (d & Hin & Hd); [pose proof (suffix_overlap_nonneg E p (diff_path x)); lia|].
    exists d. auto.
  - exists x. auto.
Qed.

(** X14: for non-empty paths and an input path whose last atom is not generic,
    every delta that [_list_matched_fields] returns is one of the system
    deltas and ends in the same atom as the input path, up to
    canonicalization; and nothing is returned exactly when no system delta
    ends in that atom. *)
Theorem list_matched_fields_last_atom (E : Env) (p : path)
  (delta_dict : system_delta_map) :
  p <> [] ->
  (forall d, In d (all_deltas delta_dict) -> diff_path d <> []) ->
  last_atom_generic E p = false ->
  exists matches,
    _list_matched_fields E p delta_dict = Ok matches
    /\ (forall m, In m matches ->
                  In m (all_deltas delta_dict)
                  /\ same_last_atom E p (diff_path m) = true)
    /\ (matches = []
        <-> forall d, In d (all_deltas delta_dict) ->
                      same_last_atom E p (diff_path d) = false).
Proof.
  intros Hp Hpaths Hgeneric. unfold _list_matched_fields.
  unfold last_atom_generic in Hgeneric.
  destruct (rev p) as [|a rest] eqn:Hrev.
  { apply (f_equal (@rev atom)) in Hrev. rewrite rev_involutive in Hrev.
    contradiction. }
  rewrite (@generic_field_last (GENERIC_FIELDS E) p a rest Hrev), Hgeneric.
  pose proof (@matched_loop_keeps_longest E p Hp (all_deltas delta_dict) [] Hpaths)
    as Hloop.
  simpl in Hloop. rewrite Hloop. eexists. split; [reflexivity|].
  set (l := all_deltas delta_dict) in *.
  set (mx := max_overlap E p l) in *.
  split.
  - intros m Hm. apply filter_In in Hm as [Hin Hkeep]. split; [exact Hin|].
    apply andb_prop in Hkeep as [Heq Hnz]. apply Z.eqb_eq in Heq.
    pose proof (suffix_overlap_zero E p (diff_path m)) as Hz.
    rewrite Heq in Hz. rewrite Hz in Hnz. now rewrite negb_involutive in Hnz.
  - split.
    + intros Hnone d Hd.
      destruct (same_last_atom E p (diff_path d)) eqn:Hlast; [|reflexivity].
      exfalso.
      assert (Hpos : suffix_overlap E p (diff_path d) <> 0).
      { intros Hz. apply Z.eqb_eq in Hz. rewrite suffix_overlap_zero, Hlast in Hz.
        discriminate. }
      assert (Hmx : mx <> 0).
      { pose proof (max_overlap_bounds E p l d Hd).
        pose proof (suffix_overlap_nonneg E p (diff_path d)). fold mx in H. lia. }
      destruct (max_overlap_attained E p l Hmx) as (x & Hx & Hov).
      assert (Hin : In x (filter
                            (fun d0 => (suffix_overlap E p (diff_path d0) =? mx)
                                       && negb (mx =? 0)) l)).
      { apply filter_In. split; [exact Hx|]. fold mx in Hov.
        rewrite Hov, Z.eqb_refl. simpl. apply negb_true_iff. now apply Z.eqb_neq. }
      rewrite Hnone in Hin. contradiction.
    + intros Hall.
      destruct (filter _ l) as [|x rest'] eqn:Hf; [reflexivity|].
      assert (Hin : In x (x :: rest')) by now left.
      rewrite <- Hf in Hin. apply filter_In in Hin as [Hx Hkeep].
      apply andb_prop in Hkeep as [Heq Hnz]. apply Z.eqb_eq in Heq.
      pose proof (suffix_overlap_zero E p (diff_path x)) as Hz.
      rewrite (Hall x Hx) in Hz. simpl in Hz. apply Z.eqb_eq in Hz.
      rewrite Hz in Heq. rewrite <- Heq in Hnz. discriminate.
Qed.

(** The deltas of the example end in [replicas] or not. *)
Lemma list_matched_fields_last_atom_witness :
  let d1 := mkDiff [AStr "db"; AStr "spec"; AStr "replicas"]
                   (Present (VInt 3)) (Present (VInt 5)) in
  let d2 := mkDiff [AStr "db"; AStr "status"; AStr "phase"]
                   (Present (VStr "a")) (Present (VStr "b")) in
  let D := [("stateful_set", [("values_changed", [("a", d1); ("b", d2)])])] in
  exists matches,
    _list_matched_fields plain_env [AStr "spec"; AStr "replicas"] D = Ok matches
    /\ (forall m, In m matches ->
                  In m (all_deltas D)
                  /\ same_last_atom plain_env [AStr "spec"; AStr "replicas"]
                                    (diff_path m) = true)
    /\ (matches = []
        <-> forall d, In d (all_deltas D) ->
                      same_last_atom plain_env [AStr "spec"; AStr "replicas"]
                                     (diff_path d) = false).
Proof.
  cbv zeta. apply list_matched_fields_last_atom.
  - discriminate.
  - intros d Hd. simpl in Hd. destruct Hd as [<- | [<- | []]]; discriminate.
  - reflexivity.
Defined.

(** ** The log oracle *)

Lemma operator_log_loop_ignored (E : Env) (d : delta_map) (before rest : list string) :
  (forall line, In line before -> ignored_line E line = true) ->
  operator_log_loop E d (before ++ rest) = operator_log_loop E d rest.
Proof.
  induction before as [|line before IH]; intros Hall; simpl; [reflexivity|].
  pose proof (Hall line (or_introl eq_refl)) as Hline.
  unfold ignored_line in Hline.
  destruct (parse_log E line) as [|kv parsed].
  - apply IH. intros x Hx. apply Hall. now right.
  - destruct (log_level (kv :: parsed)) as [level|e]; [|discriminate].
    rewrite Hline. apply IH. intros x Hx. apply Hall. now right.
Qed.

Lemma check_operator_log_run (E : Env) (snapshot : Snapshot) (h : heap) :
  exists d,
    fst (check_operator_log E snapshot h)
    = operator_log_loop E d (operator_log snapshot).
Proof.
  unfold check_operator_log, bind. simpl.
  match goal with
  | |- context [get_deltas E snapshot ?h0] =>
      destruct (get_deltas_total E snapshot h0) as [d Hd];
      destruct (get_deltas E snapshot h0) as [[d'|e] h1]
  end; simpl in Hd; [|discriminate].
  now exists (fst d').
Qed.

(** X15: the log oracle raises no alarm: a verdict of [check_operator_log] is
    [Pass] or [InvalidInput], and it is [Pass] when every line of the
    operator log parses to nothing or has a level other than warn, error and
    fatal (compared in lower case). *)
Theorem log_oracle_verdicts (E : Env) (snapshot : Snapshot) (h : heap) :
  (forall r, fst (check_operator_log E snapshot h) = Ok r ->
             r = PassResult \/ exists p, r = InvalidInputResult p)
  /\ ((forall line, In line (operator_log snapshot) -> ignored_line E line = true) ->
      fst (check_operator_log E snapshot h) = Ok PassResult).
Proof.
  destruct (check_operator_log_run E snapshot h) as [d ->]. split.
  - intros r Hr.
    apply (@operator_log_loop_verdict E d (operator_log snapshot)) in Hr
      as [-> | Hinv]; [now left|].
    right. destruct r; try discriminate. eauto.
  - intros Hall.
    rewrite <- (app_nil_r (operator_log snapshot)).
    now rewrite operator_log_loop_ignored.
Qed.

(** A log with lines at level info and lines that do not parse. *)
Lemma log_oracle_verdicts_witness :
  let s := snapshot_of VNone "" "" (replicas_state 3 3)
                       ["info reconciling"; "garbage"; "info done"] in
  fst (check_operator_log plain_env s (heap_of [] s)) = Ok PassResult.
Proof.
  cbv zeta. apply log_oracle_verdicts.
  intros line [<- | [<- | [<- | []]]]; reflexivity.
Defined.

(** X16: a log record without a [level] is not passed over: after lines that are
    ignored, the first line that parses to a non-empty record without the key
    [level] makes [check_operator_log] raise [KeyError]. *)
Theorem log_without_level_raises (E : Env) (snapshot : Snapshot) (h : heap)
  (before after : list string) (line : string) :
  operator_log snapshot = before ++ line :: after ->
  (forall x, In x before -> ignored_line E x = true) ->
  parse_log E line <> [] ->
  dict_mem String.eqb "level" (parse_log E line) = false ->
  fst (check_operator_log E snapshot h) = Raise KeyError.
Proof.
  intros Hlog Hbefore Hparsed Hlevel.
  destruct (check_operator_log_run E snapshot h) as [d ->].
  rewrite Hlog, operator_log_loop_ignored by exact Hbefore. simpl.
  destruct (parse_log E line) as [|kv parsed]; [contradiction|].
  unfold log_level. unfold dict_mem in Hlevel.
  now destruct (dict_get String.eqb "level" (kv :: parsed)).
Qed.

(** A parser that keeps the message of a line it cannot classify. *)
Lemma log_without_level_raises_witness :
  let E := mkEnv false None (BaseSchema []) (fun _ => None) (fun a => Fixtures.str a)
                 [] invalid_message same
                 (fun a b c d => same a c && same b d) diff diff
                 (fun line => if startswith line "info " then parse line
                              else [("msg", VStr line)])
                 (fun _ => true) in
  let s := snapshot_of VNone "" "" (replicas_state 3 3)
                       ["info reconciling"; "panic: nil map"] in
  fst (check_operator_log E s (heap_of [] s)) = Raise KeyError.
Proof.
  cbv zeta.
  eapply (@log_without_level_raises _ _ _ ["info reconciling"] [] "panic: nil map").
  - reflexivity.
  - intros x [<- | []]. reflexivity.
  - discriminate.
  - reflexivity.
Defined.

(** ** The health oracle on its own *)

Lemma unhealthy_nil (healthy : value -> outcome bool) (resources : list value) :
  unhealthy healthy resources = Ok []
  <-> forall r, In r resources -> healthy r = Ok true.
Proof.
  induction resources as [|x resources IH]; cbn [unhealthy].
  - split; [intros _ r []|reflexivity].
  - unfold obind. destruct (healthy x) as [[|]|e] eqn:Hx.
    + rewrite IH. split.
      * intros H r [<- | Hr]; auto.
      * intros H r Hr. apply H. now right.
    + split.
      * destruct (reduce_getitem [AStr "metadata"; AStr "name"] x); [|discriminate].
        destruct (unhealthy healthy resources); discriminate.
      * intros H. specialize (H x (or_introl eq_refl)). congruence.
    + split; [discriminate|].
      intros H. specialize (H x (or_introl eq_refl)). congruence.
Qed.

Lemma append_nonempty (k : string) (c : ascii) (s : string) :
  (k ++ String c s)%string <> "".
Proof. destruct k; discriminate. Qed.

Lemma health_message_empty (kinds : list (string * list value)) :
  forall msg,
    health_message kinds = Ok msg ->
    (msg = "" <-> forall kv, In kv kinds -> snd kv = []).
Proof.
  induction kinds as [|[kind resources] kinds IH]; intros msg; cbn [health_message].
  - intros [= <-]. split; [intros _ kv []|reflexivity].
  - destruct (len resources =? 0) eqn:Hlen.
    + apply len_zero in Hlen. subst resources. intros Hmsg.
      rewrite (IH msg Hmsg). split.
      * intros H kv [<- | Hkv]; [reflexivity|now apply H].
      * intros H kv Hkv. apply H. now right.
    + unfold obind.
      destruct (join_names resources) as [names|]; [|discriminate].
      destruct (health_message kinds) as [rest|]; [|discriminate].
      intros [= <-]. split.
      * intros H. now apply append_nonempty in H.
      * intros H. specialize (H (kind, resources) (or_introl eq_refl)).
        simpl in H. subst resources. discriminate.
Qed.

Lemma health_message_of (u1 u2 u3 : list value) (msg : string) :
  health_message [("statefulset", u1); ("deployment", u2); ("pod", u3)] = Ok msg ->
  (msg = "" <-> u1 = [] /\ u2 = [] /\ u3 = []).
Proof.
  intros Hmsg. rewrite (health_message_empty _ Hmsg). split.
  - intros H. repeat split.
    + apply (H ("statefulset", u1)). now left.
    + apply (H ("deployment", u2)). right. now left.
    + apply (H ("pod", u3)). right. right. now left.
  - intros (-> & -> & ->) kv [<- | [<- | [<- | []]]]; reflexivity.
Qed.

(** X17: the health oracle, which [check] does not call, only records its call in
    the heap; it answers [Pass] or an error of the health oracle with a
    non-empty message; it raises when the system state lacks one of the kinds
    [stateful_set], [deployment] and [pod]; and with the three kinds present
    it answers [Pass] exactly when every stateful set, every deployment and
    every pod passes its test. *)
Theorem check_health_verdicts (snapshot : Snapshot) (h : heap) :
  snd (check_health snapshot h) = snd (record_call CallCheckHealth h)
  /\ (forall r, fst (check_health snapshot h) = Ok r ->
                r = PassResult
                \/ exists msg, r = ErrorResult SYSTEM_HEALTH msg None None
                               /\ msg <> "")
  /\ (dict_mem String.eqb "stateful_set" (system_state snapshot) = false
      \/ dict_mem String.eqb "deployment" (system_state snapshot) = false
      \/ dict_mem String.eqb "pod" (system_state snapshot) = false ->
      forall r, fst (check_health snapshot h) <> Ok r)
  /\ (forall sfs dps pods,
        kind_is (system_state snapshot) "stateful_set" sfs ->
        kind_is (system_state snapshot) "deployment" dps ->
        kind_is (system_state snapshot) "pod" pods ->
        (fst (check_health snapshot h) = Ok PassResult
         <-> all_healthy healthy_stateful_set sfs
             /\ all_healthy healthy_deployment dps
             /\ all_healthy healthy_pod pods)).
Proof.
  unfold check_health, bind, lift, record_call. cbn [fst snd].
  split; [reflexivity|]. unfold kind_is, all_healthy, resources_of, dict_mem.
  set (st := system_state snapshot).
  split; [|split].
  - intros r. unfold obind.
    destruct (dict_get String.eqb "stateful_set" st) as [[]|]; try discriminate.
    destruct (unhealthy healthy_stateful_set _) as [u1|]; [|discriminate].
    destruct (dict_get String.eqb "deployment" st) as [[]|]; try discriminate.
    destruct (unhealthy healthy_deployment _) as [u2|]; [|discriminate].
    destruct (dict_get String.eqb "pod" st) as [[]|]; try discriminate.
    destruct (unhealthy healthy_pod _) as [u3|]; [|discriminate].
    destruct (health_message _) as [msg|]; [|discriminate].
    destruct (String.eqb msg "") eqn:Hmsg; simpl; intros [= <-]; [now left|].
    right. exists msg. split; [reflexivity|]. now apply String.eqb_neq.
  - intros Hmissing r. unfold obind.
    destruct (dict_get String.eqb "stateful_set" st) as [[]|]; try discriminate;
      try (destruct Hmissing as [? | Hmissing]; [discriminate|]).
    destruct (unhealthy healthy_stateful_set _) as [u1|]; [|discriminate].
    destruct (dict_get String.eqb "deployment" st) as [[]|]; try discriminate;
      try (destruct Hmissing as [? | Hmissing]; [discriminate|]).
    destruct (unhealthy healthy_deployment _) as [u2|]; [|discriminate].
    destruct (dict_get String.eqb "pod" st) as [[]|]; try discriminate.
  - intros sfs dps pods -> -> ->. unfold obind.
    rewrite <- !unhealthy_nil.
    destruct (unhealthy healthy_stateful_set (dict_values sfs)) as [u1|];
      [|split; [discriminate|intros (H & _); discriminate]].
    destruct (unhealthy healthy_deployment (dict_values dps)) as [u2|];
      [|split; [discriminate|intros (_ & H & _); discriminate]].
    destruct (unhealthy healthy_pod (dict_values pods)) as [u3|];
      [|split; [discriminate|intros (_ & _ & H); discriminate]].
    destruct (health_message _) as [msg|] eqn:Hmsg.
    + apply health_message_of in Hmsg.
      destruct (String.eqb msg "") eqn:Heq; simpl.
      * apply String.eqb_eq in Heq. apply Hmsg in Heq as (-> & -> & ->).
        split; auto.
      * apply String.eqb_neq in Heq. split; [discriminate|].
        intros ([= ->] & [= ->] & [= ->]). exfalso. apply Heq, Hmsg. auto.
    + split; [discriminate|]. intros ([= ->] & [= ->] & [= ->]). discriminate.
Qed.

(** A deployment scaled to zero and a running pod are healthy; without the
    kind [pod] the oracle raises. *)
Lemma check_health_verdicts_witness :
  let idle := doc [("metadata", doc [("name", VStr "idle")]);
                   ("spec", doc [("replicas", VInt 0)]);
                   ("status", doc [])] in
  let pod := doc [("metadata", doc [("name", VStr "db-0")]);
                  ("status", doc [("phase", VStr "Running")])] in
  let st := [("stateful_set", doc []); ("deployment", doc [("idle", idle)]);
             ("pod", doc [("db-0", pod)])] in
  let s := snapshot_of VNone "" "" st [] in
  let s' := snapshot_of VNone "" "" [("stateful_set", doc []); ("deployment", doc [])] [] in
  fst (check_health s (heap_of [] s)) = Ok PassResult
  /\ forall r, fst (check_health s' (heap_of [] s')) <> Ok r.
Proof.
  cbv zeta. split.
  - match goal with
    | |- fst (check_health ?s ?h) = _ =>
        destruct (check_health_verdicts s h) as (_ & _ & _ & Hpass)
    end.
    eapply Hpass; [reflexivity|reflexivity|reflexivity|].
    split; [|split].
    + intros r [].
    + intros r [<- | []]. reflexivity.
    + intros r [<- | []]. reflexivity.
  - match goal with
    | |- forall r, fst (check_health ?s ?h) <> _ =>
        destruct (check_health_verdicts s h) as (_ & _ & Hmissing & _)
    end.
    apply Hmissing. right. right. reflexivity.
Defined.

(** ** What find_nearest_parent returns *)

Lemma is_subfield_different (p q : path) :
  is_subfield p q = negb (len q >? len p) && negb (different q p).
Proof.
  revert p. induction q as [|b q IH]; intros [|a p]; try reflexivity.
  cbn [is_subfield different]. rewrite IH.
  replace (len (b :: q) >? len (a :: p)) with (len q >? len p).
  - destruct (atom_eqb b a); simpl; [reflexivity|].
    now rewrite andb_false_r.
  - unfold len. cbn [List.length].
    destruct (Z.gtb_spec (Z.of_nat (List.length q)) (Z.of_nat (List.length p)));
      destruct (Z.gtb_spec (Z.of_nat (S (List.length q)))
                           (Z.of_nat (S (List.length p)))); try reflexivity; lia.
Qed.

Lemma assigns_ret_prefix (p q : path) :
  assigns_ret p q = true <-> q <> [] /\ is_subfield p q = true.
Proof.
  unfold assigns_ret. rewrite is_subfield_different.
  destruct q as [|b q].
  - rewrite andb_false_r. split; [discriminate|]. intros [H _]. contradiction.
  - replace (len (b :: q) >? 0) with true.
    + rewrite andb_true_r. split; [intros H; split; [discriminate|exact H]|tauto].
    + symmetry. apply Z.gtb_lt. unfold len. simpl List.length. lia.
Qed.

Lemma find_split {A : Type} (f : A -> bool) (l : list A) (x : A) :
  List.find f l = Some x ->
  exists l1 l2, l = l1 ++ x :: l2 /\ f x = true /\ forall y, In y l1 -> f y = false.
Proof.
  induction l as [|a l IH]; simpl; [discriminate|].
  destruct (f a) eqn:Ha.
  - intros [= <-]. exists [], l. repeat split; [exact Ha|intros y []].
  - intros Hx. destruct (IH Hx) as (l1 & l2 & -> & Hfx & Hl1).
    exists (a :: l1), l2. repeat split; [exact Hfx|].
    intros y [<- | Hy]; auto.
Qed.

Lemma not_assigns_ret (p q : path) :
  assigns_ret p q = false <-> q = [] \/ is_subfield p q = false.
Proof.
  split.
  - intros H. destruct q as [|b q]; [now left|]. right.
    destruct (is_subfield p (b :: q)) eqn:Hs; [|reflexivity].
    assert (Ha : assigns_ret p (b :: q) = true)
      by (apply assigns_ret_prefix; split; [discriminate|exact Hs]).
    congruence.
  - intros H. destruct (assigns_ret p q) eqn:Ha; [|reflexivity].
    apply assigns_ret_prefix in Ha as [Hne Hs].
    destruct H as [-> | H]; [contradiction|congruence].
Qed.

(** X18: [find_nearest_parent] returns a key only if it is not empty and is a
    prefix of the path, and then it is the last such key of the dictionary:
    no key after it is a non-empty prefix.  It returns [None] exactly when no
    key is a non-empty prefix of the path; the empty path, which is a key
    when the root object has a child named [enabled], is never returned. *)
Theorem find_nearest_parent_result (p : path) (keys : list path) :
  (forall q,
      find_nearest_parent p keys = Some q ->
      exists before after,
        keys = before ++ q :: after
        /\ q <> [] /\ is_subfield p q = true
        /\ forall x, In x after -> x = [] \/ is_subfield p x = false)
  /\ (find_nearest_parent p keys = None
      <-> forall q, In q keys -> q = [] \/ is_subfield p q = false).
Proof.
  rewrite find_nearest_parent_last. split.
  - intros q Hq. apply find_split in Hq as (l1 & l2 & Hrev & Hfq & Hl1).
    exists (rev l2), (rev l1).
    apply assigns_ret_prefix in Hfq as [Hne Hs]. repeat split; try assumption.
    + rewrite <- (rev_involutive keys), Hrev, rev_app_distr. simpl.
      now rewrite <- app_assoc.
    + intros x Hx. apply not_assigns_ret, Hl1. now apply in_rev.
  - split.
    + intros Hnone q Hq. apply not_assigns_ret.
      apply (@find_none _ (assigns_ret p) (rev keys) Hnone). now apply in_rev in Hq.
    + intros Hall. destruct (List.find _ _) as [q|] eqn:Hq; [|reflexivity].
      apply find_some in Hq as [Hin Hfq]. apply in_rev in Hin.
      specialize (Hall q Hin). apply not_assigns_ret in Hall. congruence.
Qed.

(** The keys [[]], [["spec"]] and [["spec","tls"]]. *)
Lemma find_nearest_parent_result_witness :
  let keys := [[]; [AStr "spec"]; [AStr "spec"; AStr "tls"]] in
  find_nearest_parent [AStr "spec"; AStr "tls"; AStr "cert"] keys
  = Some [AStr "spec"; AStr "tls"]
  /\ find_nearest_parent [AStr "status"] keys = None.
Proof.
  cbv zeta. split; [reflexivity|].
  apply find_nearest_parent_result.
  intros q [<- | [<- | [<- | []]]]; auto.
Defined.

Lemma nearest_parent_spec_last (p : path) (keys : list path) :
  parents_first p keys -> ~ In [] keys ->
  nearest_parent_spec p keys = List.find (assigns_ret p) (rev keys).
Proof.
  induction keys as [|q l IH] using rev_ind; intros Hsorted Hempty;
    [reflexivity|].
  unfold nearest_parent_spec. rewrite fold_left_app. simpl.
  fold (nearest_parent_spec p l). rewrite rev_app_distr. simpl.
  rewrite IH.
  - destruct (is_subfield p q) eqn:Hq.
    + assert (Ha : assigns_ret p q = true).
      { apply assigns_ret_prefix. split; [|exact Hq].
        intros ->. apply Hempty, in_or_app. right. now left. }
      rewrite Ha.
      destruct (List.find (assigns_ret p) (rev l)) as [b|] eqn:Hb; [|reflexivity].
      apply find_some in Hb as [Hin Hab]. apply in_rev in Hin.
      apply assigns_ret_prefix in Hab as [_ Hsb].
      destruct (in_split _ _ Hin) as (before & between & ->).
      assert (Hlt : len b < len q).
      { apply (Hsorted before b between q []); [|exact Hsb|exact Hq].
        now rewrite <- app_assoc. }
      replace (len q >? len b) with true; [reflexivity|].
      symmetry. apply Z.gtb_lt. exact Hlt.
    + replace (assigns_ret p q) with false; [reflexivity|].
      symmetry. apply not_assigns_ret. now right.
  - intros before b between x after Hl. apply (Hsorted before b between x (after ++ [q])).
    rewrite Hl. repeat (rewrite <- app_assoc; simpl). reflexivity.
  - intros Hin. apply Hempty, in_or_app. now left.
Qed.

(** X19: when no key is empty and the keys that are prefixes of the path come in
    the order of their lengths, as they do when every parent was inserted
    before its children, [find_nearest_parent] returns the longest key that
    is a prefix of the path. *)
Theorem find_nearest_parent_parents_first (p : path) (keys : list path) :
  parents_first p keys -> ~ In [] keys ->
  find_nearest_parent p keys = nearest_parent_spec p keys.
Proof.
  intros Hsorted Hempty.
  now rewrite find_nearest_parent_last, nearest_parent_spec_last.
Qed.

(** The keys [["spec"]] and [["spec","tls"]], parent first. *)
Lemma find_nearest_parent_parents_first_witness :
  let keys := [[AStr "spec"]; [AStr "spec"; AStr "tls"]] in
  let p := [AStr "spec"; AStr "tls"; AStr "cert"] in
  find_nearest_parent p keys = nearest_parent_spec p keys
  /\ nearest_parent_spec p keys = Some [AStr "spec"; AStr "tls"].
Proof.
  cbv zeta. split; [|reflexivity].
  apply find_nearest_parent_parents_first.
  - intros before b between q after Hkeys Hb Hq.
    destruct before as [|x before]; simpl in Hkeys.
    + inversion Hkeys as [[Hb' Hrest]].
      destruct between as [|y between]; simpl in Hrest.
      * inversion Hrest. reflexivity.
      * inversion Hrest as [[Hy Hnil]]. now destruct between.
    + inversion Hkeys as [[Hx Hrest]].
      destruct before as [|y before]; simpl in Hrest.
      * inversion Hrest as [[Hb' Hnil]]. now destruct between.
      * inversion Hrest as [[Hy Hnil]]. now destruct before.
  - intros [H | [H | []]]; discriminate.
Defined.

(** ** count_num_fields *)

Lemma dict_pop_split {V : Type} (k : string) (d d' : list (string * V)) :
  dict_pop String.eqb k d = Some d' ->
  exists v l1 l2, d = l1 ++ (k, v) :: l2 /\ d' = l1 ++ l2.
Proof.
  revert d'. induction d as [|[k' v'] d IH]; intros d'; simpl; [discriminate|].
  destruct (String.eqb k k') eqn:Hk.
  - apply String.eqb_eq in Hk. subst k'. intros [= <-]. now exists v', [], d.
  - destruct (dict_pop String.eqb k d) as [r|]; [|discriminate].
    intros [= <-]. destruct (IH r eq_refl) as (v & l1 & l2 & -> & ->).
    now exists v, ((k', v') :: l1), l2.
Qed.

Lemma all_deltas_app (d1 d2 : system_delta_map) :
  all_deltas (d1 ++ d2) = all_deltas d1 ++ all_deltas d2.
Proof.
  unfold all_deltas, dict_values. now rewrite !map_app, concat_app.
Qed.

(** X20: [count_num_fields] never raises and, unlike [check], does not look
    whether the system state is empty.  When it returns a pair, the input
    oracle passed and the input delta has a change kind; the first number is
    the length of the flattened system state and the second counts every
    system delta, those of [custom_resource_spec] included: it is the number
    of deltas under [custom_resource_spec] plus the number of deltas that the
    state oracle searches. *)
Theorem count_num_fields_counts (E : Env)
  (flatten_dict : list (string * value) -> list (path * value))
  (snapshot : Snapshot) (h : heap) :
  let input_delta := diff_input E (input (prev_snapshot h)) (input snapshot) in
  let system_delta :=
    system_deltas_of E (system_state (prev_snapshot h)) (system_state snapshot) [] in
  (exists r, fst (count_num_fields E flatten_dict snapshot h) = Ok r)
  /\ (forall n k,
        fst (count_num_fields E flatten_dict snapshot h) = Ok (Some (n, k)) ->
        input_delta <> []
        /\ n = len (flatten_dict (system_state snapshot))
        /\ k = len (all_deltas system_delta)
        /\ forall without_cr,
             dict_pop String.eqb "custom_resource_spec" system_delta
             = Some without_cr ->
             exists cr, k = len (all_deltas [("custom_resource_spec", cr)])
                            + len (all_deltas without_cr)).
Proof.
  cbv zeta. unfold count_num_fields, bind.
  destruct (get_deltas_run E snapshot h) as (Hres & _).
  destruct (get_deltas E snapshot h) as [[[input_delta system_delta]|e] h1];
    simpl in Hres; [|discriminate].
  injection Hres as <- <-.
  destruct (check_input_total E snapshot input_delta h1) as [ir Hir].
  destruct (check_input E snapshot input_delta h1) as [[ir'|e] h2];
    simpl in Hir; [|discriminate].
  split.
  - destruct (negb (is_pass ir')); [eexists; reflexivity|].
    destruct (len input_delta >? 0); eexists; reflexivity.
  - intros n k. destruct (negb (is_pass ir')); [discriminate|].
    destruct (len input_delta >? 0) eqn:Hlen; [|discriminate].
    simpl. intros [= <- <-]. split; [|split; [reflexivity|split; [reflexivity|]]].
    + intros ->. discriminate Hlen.
    + intros without_cr Hpop.
      apply dict_pop_split in Hpop as (cr & l1 & l2 & -> & ->).
      exists cr. rewrite !all_deltas_app.
      change ((("custom_resource_spec", cr) :: l2))
        with ([("custom_resource_spec", cr)] ++ l2).
      rewrite all_deltas_app. unfold len. rewrite !length_app. lia.
Qed.

(** The replicas change in the input and in the stateful set: two system
    deltas are counted, one of which is the custom resource's own. *)
Lemma count_num_fields_counts_witness :
  let s := snapshot_of (replicas_input 5) "configured" "" (replicas_state 5 5) [] in
  let h := heap_of [] (snapshot_of (replicas_input 3) "" "" (replicas_state 3 3) []) in
  fst (count_num_fields plain_env (fun _ => []) s h) = Ok (Some (0, 2))
  /\ 2 = len (all_deltas (system_deltas_of plain_env (replicas_state 3 3)
                                           (replicas_state 5 5) [])).
Proof.
  cbv zeta. split; [reflexivity|].
  apply (proj2 (count_num_fields_counts plain_env (fun _ => [])
                  (snapshot_of (replicas_input 5) "configured" "" (replicas_state 5 5) [])
                  (heap_of [] (snapshot_of (replicas_input 3) "" ""
                                           (replicas_state 3 3) []))) 0 2 eq_refl).
Defined.

(** ** The delta log of a generation *)

Lemma check_input_heap (E : Env) (snapshot : Snapshot) (d : delta_map) (h : heap) :
  snd (check_input E snapshot d h) = snd (record_call CallCheckInput h).
Proof.
  unfold check_input, bind, ret. simpl.
  destruct (invalid_input_message E _ d) as [is_invalid p].
  repeat match goal with
         | |- context [if ?b then _ else _] => destruct b
         end; reflexivity.
Qed.

Lemma logs_kept_by_get_deltas (L : list (Z * (delta_map * system_delta_map)))
  (E : Env) (snapshot : Snapshot) :
  hoare (fun h => delta_logs h = L) (get_deltas E snapshot) any.
Proof.
  intros h Hh. split; [|intros; exact I].
  destruct (get_deltas_run E snapshot h) as (_ & (_ & _ & Hl & _) & _).
  now rewrite Hl.
Qed.

Lemma logs_kept_by_eval_conditions (L : list (Z * (delta_map * system_delta_map)))
  (snapshot : Snapshot) (key : path) :
  hoare (fun h => delta_logs h = L) (eval_conditions snapshot key) any.
Proof.
  intros h Hh. split; [|intros; exact I].
  unfold eval_conditions, bind, get_heap. simpl.
  destruct (dict_get path_eqb key (field_conditions_map h)); [|exact Hh].
  destruct (check_conditions (input snapshot) l) as [[r|e] conditions']; exact Hh.
Qed.

(** X21: when the input oracle passes and the log of the generation can be
    written, [check] writes one delta log, whether it then returns or raises:
    the log of the generation holds the input delta and the whole system
    delta, [custom_resource_spec] included. *)
Theorem check_writes_delta_log (E : Env) (snapshot : Snapshot) (g : Z) (h h2 : heap) :
  system_state snapshot <> [] ->
  input_stage E snapshot g h = (Ok PassResult, h2) ->
  writable E g = true ->
  delta_logs (snd (check E snapshot g h))
  = delta_logs h
    ++ [(g, (diff_input E (input (prev_snapshot h)) (input snapshot),
             system_deltas_of E (system_state (prev_snapshot h))
                              (system_state snapshot) []))].
Proof.
  intros Hne Hstage Hw.
  destruct (delta_log_path_kept_by_input_stage E snapshot g h) as [Hpath Hlogs].
  pose proof (input_stage_prev_input E snapshot g h) as Hinput.
  assert (Hstate : system_state (prev_snapshot h2)
                   = with_missing_resources (system_state (prev_snapshot h))
                                            (system_state snapshot)).
  { assert (Hrun : input_stage E snapshot g h
                   = (d <- get_deltas E snapshot ;; check_input E snapshot (fst d))
                       (snd (set_delta_log_path g h))) by reflexivity.
    rewrite Hrun in Hstage. unfold bind in Hstage.
    destruct (get_deltas_run E snapshot (snd (set_delta_log_path g h)))
      as (_ & _ & Hst).
    destruct (get_deltas E snapshot (snd (set_delta_log_path g h))) as [[d|e] h1];
      [|discriminate].
    pose proof (check_input_heap E snapshot (fst d) h1) as Hheap.
    rewrite Hstage in Hheap. simpl in Hheap. subst h2. exact Hst. }
  rewrite Hstage in Hpath, Hlogs, Hinput. simpl in Hpath, Hlogs, Hinput.
  rewrite check_unfold by exact Hne.
  set (L := delta_logs h
            ++ [(g, (diff_input E (input (prev_snapshot h)) (input snapshot),
                     system_deltas_of E (system_state (prev_snapshot h))
                                      (system_state snapshot) []))]).
  assert (Hstate_oracle : delta_logs (snd (check_resources E snapshot h2)) = L).
  { unfold check_resources, bind. simpl.
    match goal with
    | |- context [get_deltas E snapshot ?h0] =>
        destruct (get_deltas_run E snapshot h0) as (Hres & Hsame & _);
        destruct (get_deltas E snapshot h0) as [[[input_delta system_delta]|e] h1]
    end; simpl in Hres, Hsame; [|discriminate].
    injection Hres as Hin Hsd. destruct Hsame as (_ & Hp1 & Hl1 & _).
    unfold log_deltas, bind, get_heap, record_call, write_delta_log. simpl.
    rewrite Hp1, Hpath. simpl. rewrite Hw. simpl.
    match goal with
    | |- context [mkHeap ?a ?b ?c (delta_logs h1 ++ ?w) ?e] =>
        set (h3 := mkHeap a b c (delta_logs h1 ++ w) e)
    end.
    assert (HL : delta_logs h3 = L).
    { unfold h3, L. simpl. rewrite Hl1, Hlogs, Hin, Hsd, Hinput, Hstate.
      do 4 f_equal. apply system_deltas_of_ext. intros x.
      apply resource_before_with_missing. }
    destruct (dict_pop _ _ _) as [sd|]; [|exact HL].
    assert (Hloop : hoare (fun h' => delta_logs h' = L)
                          (check_delta_loop E snapshot sd (input_deltas input_delta))
                          any).
    { apply frame_check_delta_loop. apply logs_kept_by_eval_conditions. }
    destruct (Hloop h3 HL) as [Hkept _].
    destruct (check_delta_loop E snapshot sd (input_deltas input_delta) h3)
      as [[[r|]|e] h4]; exact Hkept. }
  unfold bind. rewrite Hstage. simpl.
  destruct (check_resources E snapshot h2) as [[sr|e] h3]; simpl in *;
    [|exact Hstate_oracle].
  assert (Hlog : hoare (fun h' => delta_logs h' = L)
                       (check_operator_log E snapshot) any).
  { apply frame_check_operator_log; [intros; assumption|].
    apply logs_kept_by_get_deltas. }
  destruct (Hlog h3 Hstate_oracle) as [Hkept _].
  destruct (check_operator_log E snapshot h3) as [[lr|e] h4]; exact Hkept.
Qed.

(** The log of generation 7 for the change of the replicas. *)
Lemma check_writes_delta_log_witness :
  let s := snapshot_of (replicas_input 5) "configured" "" (replicas_state 5 5) [] in
  let h := heap_of [] (snapshot_of (replicas_input 3) "" "" (replicas_state 3 3) []) in
  delta_logs (snd (check plain_env s 7 h))
  = [(7, (diff (replicas_input 3) (replicas_input 5),
          system_deltas_of plain_env (replicas_state 3 3) (replicas_state 5 5) []))].
Proof.
  cbv zeta.
  eapply (@check_writes_delta_log plain_env
            (snapshot_of (replicas_input 5) "configured" "" (replicas_state 5 5) []) 7
            (heap_of [] (snapshot_of (replicas_input 3) "" "" (replicas_state 3 3) []))).
  - discriminate.
  - reflexivity.
  - reflexivity.
Defined.
